(** * A shallow embedding of the ETF codec (Erlang External Term Format)

    The development follows the Go sources:
    - [etf.go]            the data model (terms, pids, refs, ...) and the tags;
    - [write.go]          the [Encoder] methods;
    - [read.go]           [Decoder.Decode], [newAtom], [readBigInt] and the
                          small reading helpers;
    - [write/write.go]    the stand-alone writers of package [write];
    - [decode.go]         the typed decode bridge ([decode], [Decode]).

    Conventions.  A Go integer of width [w] is a [Z] together with the
    wrap-around written at every conversion ([byte_of], [int32_of], ...).
    A byte slice or a Go string is a [list Z] of octets.  The byte stream
    behind a [Decoder] is the list of the bytes that are still unread; the
    sink behind an [Encoder] is the list of the bytes written so far (an
    in-memory buffer, as in the tests of the package, so that [Write] itself
    never fails).  A Go function returning [(value, err)] returns a pair whose
    second component is an [option error]; a run-time panic is an explicit
    outcome. *)

From Stdlib Require Import String ZArith List Lia Bool.
Import ListNotations.
Local Open Scope Z_scope.

Set Warnings "-register-all".

(** ** Machine integers *)

(** The two sizes of Go's native [int] and [uint]. *)
Inductive Arch : Type := Arch32 | Arch64.

Definition intSize (a : Arch) : Z :=
  match a with Arch32 => 32 | Arch64 => 64 end.

(** Conversion to an unsigned integer of [w] bits. *)
Definition uwrap (w x : Z) : Z := x mod 2 ^ w.

(** Conversion to a signed (two's complement) integer of [w] bits. *)
Definition swrap (w x : Z) : Z := (x + 2 ^ (w - 1)) mod 2 ^ w - 2 ^ (w - 1).

Definition byte_of (x : Z) : Z := uwrap 8 x.
Definition uint16_of (x : Z) : Z := uwrap 16 x.
Definition uint32_of (x : Z) : Z := uwrap 32 x.
Definition uint64_of (x : Z) : Z := uwrap 64 x.
Definition int32_of (x : Z) : Z := swrap 32 x.
Definition int64_of (x : Z) : Z := swrap 64 x.
Definition int_of (a : Arch) (x : Z) : Z := swrap (intSize a) x.
Definition uint_of (a : Arch) (x : Z) : Z := uwrap (intSize a) x.

Definition MaxUint8 : Z := 255.
Definition MaxUint16 : Z := 65535.
Definition MaxUint32 : Z := 4294967295.
Definition MaxInt32 : Z := 2147483647.
Definition MinInt32 : Z := -2147483648.

Definition is_byte (x : Z) : Prop := 0 <= x <= 255.
Definition is_uint32 (x : Z) : Prop := 0 <= x <= MaxUint32.
Definition is_int64 (x : Z) : Prop := - 2 ^ 63 <= x < 2 ^ 63.

(** [encoding/binary]'s big-endian readers. *)
Definition be_Uint16 (b : list Z) : Z :=
  nth 0 b 0 * 256 + nth 1 b 0.

Definition be_Uint32 (b : list Z) : Z :=
  ((nth 0 b 0 * 256 + nth 1 b 0) * 256 + nth 2 b 0) * 256 + nth 3 b 0.

Definition be_Uint64 (b : list Z) : Z :=
  be_Uint32 (firstn 4 b) * 2 ^ 32 + be_Uint32 (skipn 4 b).

(** ** etf.go: the data model *)

Definition Atom : Type := list Z.

Record Pid : Type := mkPid {
  Pid_Node : Atom;
  Pid_Id : Z;
  Pid_Serial : Z;
  Pid_Creation : Z
}.

Record Port : Type := mkPort {
  Port_Node : Atom;
  Port_Id : Z;
  Port_Creation : Z
}.

Record Ref : Type := mkRef {
  Ref_Node : Atom;
  Ref_Creation : Z;
  Ref_Id : list Z
}.

Record Export : Type := mkExport {
  Export_Module : Atom;
  Export_Function : Atom;
  Export_Arity : Z
}.

#[local] Set Implicit Arguments.

Record FunctionOf (T : Type) : Type := mkFunction {
  Arity : Z;
  Unique : list Z;
  Index : Z;
  Free : Z;
  Module_ : Atom;
  OldIndex : Z;
  OldUnique : Z;
  Pid_ : Pid;
  FreeVars : list T
}.

(** [Term] is Go's [any]; the constructors are the dynamic types that the
    codec produces or accepts.  [TNil] is the nil interface value. *)
Inductive Term : Type :=
| TNil
| TBool (b : bool)
| TInt (x : Z)
| TInt64 (x : Z)
| TBigInt (v : Z)
| TFloat64 (bits : Z)
| TString (s : list Z)
| TBytes (b : list Z)
| TAtom (a : Atom)
| TTuple (t : list Term)
| TList (l : list Term)
| TPid (p : Pid)
| TPort (p : Port)
| TRef (r : Ref)
| TExport (e : Export)
| TFunction (f : FunctionOf Term).

#[local] Unset Implicit Arguments.

Definition Function : Type := FunctionOf Term.

(** The context: [atomCache] is never read by the codec; [currentCache] is a
    slice of string pointers, a nil pointer being an unoccupied slot. *)
Record Context : Type := mkContext {
  atomCache : list (option (list Z));
  currentCache : list (option (list Z))
}.

(** [new(Context)]. *)
Definition newContext : Context :=
  {| atomCache := repeat None 2048; currentCache := [] |}.

(** Erlang external term tags. *)
Definition ettAtom : Z := 100.
Definition ettAtomUTF8 : Z := 118.
Definition ettBinary : Z := 109.
Definition ettBitBinary : Z := 77.
Definition ettCachedAtom : Z := 67.
Definition ettCacheRef : Z := 82.
Definition ettExport : Z := 113.
Definition ettFloat : Z := 99.
Definition ettFun : Z := 117.
Definition ettInteger : Z := 98.
Definition ettLargeBig : Z := 111.
Definition ettLargeTuple : Z := 105.
Definition ettList : Z := 108.
Definition ettNewCache : Z := 78.
Definition ettNewFloat : Z := 70.
Definition ettNewFun : Z := 112.
Definition ettNewRef : Z := 114.
Definition ettNil : Z := 106.
Definition ettPid : Z := 103.
Definition ettPort : Z := 102.
Definition ettRef : Z := 101.
Definition ettSmallAtom : Z := 115.
Definition ettSmallAtomUTF8 : Z := 119.
Definition ettSmallBig : Z := 110.
Definition ettSmallInteger : Z := 97.
Definition ettSmallTuple : Z := 104.
Definition ettString : Z := 107.

(** Erlang external term format version. *)
Definition EtVersion : Z := 131.

(** [reverse] of etf.go ([slices.Reverse]). *)
Definition reverse (b : list Z) : list Z := rev b.

(** ** Errors *)

Inductive error : Type :=
| EOF
| ErrUnexpectedEOF
| ErrFloatScan
| ErrUnknownTerm (termType : Z)
| ErrUnknownType (t : string)
| Errorf (format : string) (arg : Z)
| ErrScan (msg : string).

(** What a call does: it returns, it panics, or (for the functions that are
    defined by recursion on a fuel) the fuel did not suffice. *)
Inductive outcome (A : Type) : Type :=
| Done (a : A)
| Panic
| OutOfFuel.

Arguments Done {A} a.
Arguments Panic {A}.
Arguments OutOfFuel {A}.

(** ** math/big: the operations the codec uses, on [Z] *)

Module big.

(** The base-256 digits of a non-negative integer, least significant first;
    [fuel] bounds their number. *)
Fixpoint digits (fuel : nat) (z : Z) : list Z :=
  match fuel with
  | O => []
  | S f => if z <=? 0 then [] else (z mod 256) :: digits f (z / 256)
  end.

(** The number of octets of the magnitude of [z]. *)
Definition size (z : Z) : nat :=
  if Z.abs z =? 0 then O else Z.to_nat (Z.log2 (Z.abs z) / 8 + 1).

(** [x.Bytes()]: the absolute value as a big-endian byte slice without
    leading zero. *)
Definition Bytes (z : Z) : list Z := rev (digits (size z) (Z.abs z)).

(** [SetBytes]: the big-endian unsigned integer of a byte slice. *)
Definition SetBytes (b : list Z) : Z :=
  fold_left (fun acc x => acc * 256 + x) b 0.

Definition Sign (z : Z) : Z := Z.sgn z.

(** [x.Int64()]: the low 64 bits of the magnitude as an [int64], negated
    (with wrap-around) for a negative [x]. *)
Definition Int64 (z : Z) : Z :=
  let v := int64_of (uint64_of (Z.abs z)) in
  if z <? 0 then int64_of (- v) else v.

(** [x.Uint64()]. *)
Definition Uint64 (z : Z) : Z := uint64_of (Z.abs z).

End big.

(** ** write.go: the encoder *)

Module Encoder.

(** The sink: the bytes written so far.  [Write] appends and reports no
    error. *)
Definition Writer : Type := list Z.

Definition Write (w : Writer) (p : list Z) : Writer * option error :=
  (w ++ p, None).

Definition WriteString (w : Writer) (s : list Z) : Writer * option error :=
  (w ++ s, None).

(** [if _, err = first; err == nil { _, err = next }] *)
Definition andThen (first : Writer * option error)
    (next : Writer -> Writer * option error) : Writer * option error :=
  match first with
  | (w, None) => next w
  | (w, Some e) => (w, Some e)
  end.

Definition writeAtom (w : Writer) (atom : Atom) : Writer * option error :=
  let size := Z.of_nat (length atom) in
  if size <=? MaxUint8 then
    andThen (Write w [ettSmallAtom; byte_of size])
            (fun w => WriteString w atom)
  else if size <=? MaxUint16 then
    andThen (Write w [ettAtom; byte_of (Z.shiftr size 8); byte_of size])
            (fun w => WriteString w atom)
  else
    (w, Some (Errorf "atom is too big (%d bytes)" size)).

Definition writeBigInt (w : Writer) (x : Z) : Writer * option error :=
  let sign := if big.Sign x <? 0 then 1 else 0 in
  let bytes := reverse (big.Bytes (Z.abs x)) in
  let size := Z.of_nat (length bytes) in
  let header :=
    if size <=? MaxUint8 then
      Write w [ettSmallBig; byte_of size; byte_of sign]
    else if size <=? MaxUint32 then
      Write w [ettLargeBig;
               byte_of (Z.shiftr size 24); byte_of (Z.shiftr size 16);
               byte_of (Z.shiftr size 8); byte_of size;
               byte_of sign]
    else
      (w, Some (Errorf "bad big int size (%d)" size)) in
  andThen header (fun w => Write w bytes).

Definition writeBinary (w : Writer) (bytes : list Z) : Writer * option error :=
  let size := Z.of_nat (length bytes) in
  if size <=? MaxUint32 then
    andThen (Write w [ettBinary;
                      byte_of (Z.shiftr size 24); byte_of (Z.shiftr size 16);
                      byte_of (Z.shiftr size 8); byte_of size])
            (fun w => Write w bytes)
  else
    (w, Some (Errorf "bad binary size (%d)" size)).

Definition writeBool (w : Writer) (b : bool) : Writer * option error :=
  if b then Write w [ettSmallAtom; 4; 116; 114; 117; 101]
  else Write w [ettSmallAtom; 5; 102; 97; 108; 115; 101].

Definition writeFloat (w : Writer) (fb : Z) : Writer * option error :=
  andThen (Write w [ettNewFloat])
          (fun w => Write w [byte_of (Z.shiftr fb 56); byte_of (Z.shiftr fb 48);
                             byte_of (Z.shiftr fb 40); byte_of (Z.shiftr fb 32);
                             byte_of (Z.shiftr fb 24); byte_of (Z.shiftr fb 16);
                             byte_of (Z.shiftr fb 8); byte_of fb]).

Definition writeInt (w : Writer) (x : Z) : Writer * option error :=
  if (x >=? 0) && (x <=? MaxUint8) then
    Write w [ettSmallInteger; byte_of x]
  else if (x >=? MinInt32) && (x <=? MaxInt32) then
    let x := int32_of x in
    Write w [ettInteger;
             byte_of (Z.shiftr x 24); byte_of (Z.shiftr x 16);
             byte_of (Z.shiftr x 8); byte_of x]
  else
    writeBigInt w x.

Definition writeUint (w : Writer) (x : Z) : Writer * option error :=
  if x <=? MaxUint8 then
    Write w [ettSmallInteger; byte_of x]
  else if x <=? MaxInt32 then
    Write w [ettInteger;
             byte_of (Z.shiftr x 24); byte_of (Z.shiftr x 16);
             byte_of (Z.shiftr x 8); byte_of x]
  else
    writeBigInt w x.

Definition writePid (w : Writer) (p : Pid) : Writer * option error :=
  match Write w [ettPid] with
  | (w, Some e) => (w, Some e)
  | (w, None) =>
    match writeAtom w (Pid_Node p) with
    | (w, Some e) => (w, Some e)
    | (w, None) =>
      Write w [0; 0; byte_of (Z.shiftr (Pid_Id p) 8); byte_of (Pid_Id p);
               byte_of (Z.shiftr (Pid_Serial p) 24);
               byte_of (Z.shiftr (Pid_Serial p) 16);
               byte_of (Z.shiftr (Pid_Serial p) 8);
               byte_of (Pid_Serial p);
               Pid_Creation p]
    end
  end.

Definition writeString (w : Writer) (s : list Z) : Writer * option error :=
  let size := Z.of_nat (length s) in
  if size <=? MaxUint16 then
    andThen (Write w [ettString; byte_of (Z.shiftr size 8); byte_of size])
            (fun w => Write w s)
  else
    (w, Some (Errorf "string is too big (%d bytes)" size)).

(** [for _, v := range l { if err = write(v); err != nil { return } }] *)
Fixpoint writeEach {A : Type} (write : Writer -> A -> Writer * option error)
    (w : Writer) (l : list A) : Writer * option error :=
  match l with
  | [] => (w, None)
  | v :: l' =>
    match write w v with
    | (w, Some e) => (w, Some e)
    | (w, None) => writeEach write w l'
    end
  end.

Definition writeRef (w : Writer) (ref : Ref) : Writer * option error :=
  let n := Z.of_nat (length (Ref_Id ref)) in
  match Write w [ettNewRef; byte_of (Z.shiftr n 8); byte_of n] with
  | (w, Some e) => (w, Some e)
  | (w, None) =>
    match writeAtom w (Ref_Node ref) with
    | (w, Some e) => (w, Some e)
    | (w, None) =>
      match Write w [Ref_Creation ref] with
      | (w, Some e) => (w, Some e)
      | (w, None) =>
        writeEach (fun w v =>
                     Write w [byte_of (Z.shiftr v 24); byte_of (Z.shiftr v 16);
                              byte_of (Z.shiftr v 8); byte_of v])
                  w (Ref_Id ref)
      end
    end
  end.

(** The header of [writeTuple] and of [writeRecord]. *)
Definition writeTupleHeader (w : Writer) (n : Z) : Writer * option error :=
  if n <=? MaxUint8 then
    Write w [ettSmallTuple; byte_of n]
  else
    Write w [ettLargeTuple;
             byte_of (Z.shiftr n 24); byte_of (Z.shiftr n 16);
             byte_of (Z.shiftr n 8); byte_of n].

Definition writeListHeader (w : Writer) (n : Z) : Writer * option error :=
  Write w [ettList;
           byte_of (Z.shiftr n 24); byte_of (Z.shiftr n 16);
           byte_of (Z.shiftr n 8); byte_of n].

(** [if err = first; err != nil { return }; next] for calls that may panic. *)
Definition thenEncode (first : outcome (Writer * option error))
    (next : Writer -> outcome (Writer * option error))
    : outcome (Writer * option error) :=
  match first with
  | Done (w, None) => next w
  | other => other
  end.

(** [EncodeTerm] on the dynamic types of [Term].  [Port], [Export] and
    [Function] are structs without a case of their own: they go through
    [writeRecord], which writes their exported fields as a tuple; a [List]
    and the array [Unique] go through [writeList]; the nil interface has the
    invalid kind, for which [rv.Type()] panics. *)
Fixpoint EncodeTerm (w : Writer) (term : Term) {struct term}
    : outcome (Writer * option error) :=
  let encodeEach :=
    fix encodeEach (w : Writer) (l : list Term) {struct l}
        : outcome (Writer * option error) :=
      match l with
      | [] => Done (w, None)
      | v :: l' => thenEncode (EncodeTerm w v) (fun w => encodeEach w l')
      end in
  let writeList (w : Writer) (l : list Term) :=
    thenEncode (Done (writeListHeader w (Z.of_nat (length l))))
      (fun w => thenEncode (encodeEach w l)
      (fun w => Done (Write w [ettNil]))) in
  let writeUintList (w : Writer) (l : list Z) :=
    thenEncode (Done (writeListHeader w (Z.of_nat (length l))))
      (fun w => thenEncode (Done (writeEach writeUint w l))
      (fun w => Done (Write w [ettNil]))) in
  match term with
  | TNil => Panic
  | TBool v => Done (writeBool w v)
  | TInt v => Done (writeInt w v)
  | TInt64 v => Done (writeInt w v)
  | TBigInt v => Done (writeBigInt w v)
  | TString v => Done (writeString w v)
  | TBytes v => Done (writeBinary w v)
  | TFloat64 v => Done (writeFloat w v)
  | TAtom v => Done (writeAtom w v)
  | TPid v => Done (writePid w v)
  | TTuple tuple =>
    thenEncode (Done (writeTupleHeader w (Z.of_nat (length tuple))))
      (fun w => encodeEach w tuple)
  | TRef v => Done (writeRef w v)
  | TList l => writeList w l
  | TPort p =>
    thenEncode (Done (writeTupleHeader w 3))
      (fun w => thenEncode (Done (writeAtom w (Port_Node p)))
      (fun w => thenEncode (Done (writeUint w (Port_Id p)))
      (fun w => Done (writeUint w (Port_Creation p)))))
  | TExport e =>
    thenEncode (Done (writeTupleHeader w 3))
      (fun w => thenEncode (Done (writeAtom w (Export_Module e)))
      (fun w => thenEncode (Done (writeAtom w (Export_Function e)))
      (fun w => Done (writeUint w (Export_Arity e)))))
  | TFunction f =>
    thenEncode (Done (writeTupleHeader w 9))
      (fun w => thenEncode (Done (writeUint w (Arity f)))
      (fun w => thenEncode (writeUintList w (Unique f))
      (fun w => thenEncode (Done (writeUint w (Index f)))
      (fun w => thenEncode (Done (writeUint w (Free f)))
      (fun w => thenEncode (Done (writeAtom w (Module_ f)))
      (fun w => thenEncode (Done (writeUint w (OldIndex f)))
      (fun w => thenEncode (Done (writeUint w (OldUnique f)))
      (fun w => thenEncode (Done (writePid w (Pid_ f)))
      (fun w => writeList w (FreeVars f))))))))))
  end.

Definition Encode (w : Writer) (term : Term)
    : outcome (Writer * option error) :=
  match Write w [EtVersion] with
  | (w, Some e) => Done (w, Some e)
  | (w, None) => EncodeTerm w term
  end.

End Encoder.

(** ** read.go: the decoder *)

Module Decoder.

(** The stream: the bytes not yet read. *)
Definition Reader : Type := list Z.

(** [make([]byte, n)]. *)
Definition make (n : Z) : list Z := repeat 0 (Z.to_nat n).

(** [bufio.Reader.ReadByte]. *)
Definition ReadByte (r : Reader) : Z * option error * Reader :=
  match r with
  | [] => (0, Some EOF, [])
  | x :: r' => (x, None, r')
  end.

(** [io.ReadFull(r, b)]: fills [b] from the stream; when the stream ends
    first, the bytes read so far are in [b], the rest of [b] is as it was, and
    the error is [EOF] if nothing was read, [ErrUnexpectedEOF] otherwise. *)
Definition ReadFull (r : Reader) (b : list Z) : list Z * option error * Reader :=
  let got := firstn (length b) r in
  let err :=
    if (length got <? length b)%nat then
      Some (match got with [] => EOF | _ :: _ => ErrUnexpectedEOF end)
    else None in
  (got ++ skipn (length got) b, err, skipn (length b) r).

Definition ruint8 (r : Reader) : Z * option error * Reader := ReadByte r.

Definition ruint16 (r : Reader) : Z * option error * Reader :=
  let '(b, err, r) := ReadFull r (make 2) in (be_Uint16 b, err, r).

Definition ruint32 (r : Reader) : Z * option error * Reader :=
  let '(b, err, r) := ReadFull r (make 4) in (be_Uint32 b, err, r).

Definition buint8 (r : Reader) : list Z * option error * Reader :=
  let '(size, err, r) := ruint8 r in (make size, err, r).

Definition buint16 (r : Reader) : list Z * option error * Reader :=
  let '(size, err, r) := ruint16 r in (make size, err, r).

Definition buint32 (r : Reader) : list Z * option error * Reader :=
  let '(size, err, r) := ruint32 r in (make size, err, r).

Definition bTrue : list Z := [116; 114; 117; 101].
Definition bFalse : list Z := [102; 97; 108; 115; 101].

(** [bytes.Compare(a, b) == 0]. *)
Fixpoint bytes_eqb (a b : list Z) : bool :=
  match a, b with
  | [], [] => true
  | x :: a', y :: b' => (x =? y) && bytes_eqb a' b'
  | _, _ => false
  end.

Definition newAtom (b : list Z) : Term :=
  if bytes_eqb b bTrue then TBool true
  else if bytes_eqb b bFalse then TBool false
  else TAtom b.

(** [b[i] = v] for an index in range. *)
Fixpoint store (b : list Z) (i : nat) (v : Z) : list Z :=
  match b, i with
  | [], _ => []
  | _ :: b', O => v :: b'
  | x :: b', S i' => x :: store b' i' v
  end.

(** [for i := i; i < hsize; i++ { b[i], b[size-i-1] = b[size-i-1], b[i] }],
    with [count] the iterations left. *)
Fixpoint swapLoop (count i : nat) (b : list Z) : list Z :=
  match count with
  | O => b
  | S count' =>
    let j := (length b - i - 1)%nat in
    swapLoop count' (S i) (store (store b i (nth j b 0)) j (nth i b 0))
  end.

Section Decode.

(** The size of the native [int]. *)
Variable arch : Arch.

(** [fmt.Sscanf(string(b), "%f", &f)]: the number of items scanned, the
    float stored (as its IEEE 754 bits) and the error. *)
Variable Sscanf_f : list Z -> Z * Z * option error.

(** The context of the decoder. *)
Variable c : Context.

Definition readBigInt (r : Reader) (b : list Z) (sign : Z)
    : Term * option error * Reader :=
  match ReadFull r b with
  | (_, Some err, r) => (TNil, Some err, r)
  | (b, None, r) =>
    let size := length b in
    let hsize := Nat.div2 size in
    let b := swapLoop hsize 0 b in
    let v := big.SetBytes b in
    let v := if negb (sign =? 0) then - v else v in
    let v64 := big.Int64 v in
    let x := int_of arch v64 in
    if v =? int64_of x then (TInt x, None, r)
    else if v =? v64 then (TInt64 v64, None, r)
    else (TBigInt v, None, r)
  end.

Definition result : Type := outcome (Term * option error * Reader).

(** [for i := 0; i < cap(s); i++ { if s[i], err = d.Decode(); err != nil
    { break } }]: the elements assigned (the one of the failing call
    included), the last error and the stream.  [rec] is [d.Decode]. *)
Fixpoint decodeEach (rec : Reader -> result) (n : nat) (r : Reader)
    : outcome (list Term * option error * Reader) :=
  match n with
  | O => Done ([], None, r)
  | S n' =>
    match rec r with
    | Done (t, Some err, r) => Done ([t], Some err, r)
    | Done (t, None, r) =>
      match decodeEach rec n' r with
      | Done (ts, err, r) => Done (t :: ts, err, r)
      | Panic => Panic
      | OutOfFuel => OutOfFuel
      end
    | Panic => Panic
    | OutOfFuel => OutOfFuel
    end
  end.

(** A slice made with [n] nil elements of which the first ones were
    assigned. *)
Definition filled (n : nat) (ts : list Term) : list Term :=
  ts ++ repeat TNil (n - length ts).

(** [for i := 0; i < cap(ref.Id); i++ { if ref.Id[i], err = ruint32(d.r);
    err != nil { return } }] *)
Fixpoint readIds (n : nat) (r : Reader) : list Z * option error * Reader :=
  match n with
  | O => ([], None, r)
  | S n' =>
    match ruint32 r with
    | (_, Some err, r) => ([], Some err, r)
    | (id, None, r) =>
      let '(ids, err, r) := readIds n' r in (id :: ids, err, r)
    end
  end.

(** The part of [ettNewFun] and [ettFun] after the four child terms: the
    free variables, then the type assertions. *)
Definition finishFun (rec : Reader -> result) (arity : Z) (unique : list Z)
    (index free : Z) (m oldi oldu pid : Term) (r : Reader) : result :=
  match decodeEach rec (Z.to_nat free) r with
  | Done (vars, err, r) =>
    match m, oldi, oldu, pid with
    | TAtom m, TInt oldi, TInt oldu, TPid pid =>
      Done (TFunction {| Arity := arity; Unique := unique; Index := index;
                         Free := free; Module_ := m;
                         OldIndex := uint32_of oldi;
                         OldUnique := uint32_of oldu;
                         Pid_ := pid;
                         FreeVars := filled (Z.to_nat free) vars |},
            err, r)
    | _, _, _, _ => Panic
    end
  | Panic => Panic
  | OutOfFuel => OutOfFuel
  end.

(** The body of [Decode]; [rec] stands for the recursive calls
    [d.Decode()]. *)
Definition DecodeBody (rec : Reader -> result) (r : Reader) : result :=
  match ruint8 r with
  | (_, Some err, r) => Done (TNil, Some err, r)
  | (etype, None, r) =>
    if etype =? EtVersion then
      rec r
    else if (etype =? ettAtom) || (etype =? ettAtomUTF8) then
      match buint16 r with
      | (_, Some err, r) => Done (TNil, Some err, r)
      | (b, None, r) =>
        let '(b, err, r) := ReadFull r b in Done (newAtom b, err, r)
      end
    else if (etype =? ettSmallAtom) || (etype =? ettSmallAtomUTF8) then
      match buint8 r with
      | (_, Some err, r) => Done (TNil, Some err, r)
      | (b, None, r) =>
        let '(b, err, r) := ReadFull r b in Done (newAtom b, err, r)
      end
    else if etype =? ettBinary then
      match buint32 r with
      | (_, Some err, r) => Done (TNil, Some err, r)
      | (b, None, r) =>
        let '(b, err, r) := ReadFull r b in Done (TBytes b, err, r)
      end
    else if etype =? ettString then
      match buint16 r with
      | (_, Some err, r) => Done (TNil, Some err, r)
      | (b, None, r) =>
        let '(b, err, r) := ReadFull r b in Done (TString b, err, r)
      end
    else if etype =? ettFloat then
      match ReadFull r (make 31) with
      | (_, Some err, r) => Done (TNil, Some err, r)
      | (b, None, r) =>
        let '(n, f, err) := Sscanf_f b in
        let err :=
          match err with
          | None => if negb (n =? 1) then Some ErrFloatScan else None
          | Some e => Some e
          end in
        Done (TFloat64 f, err, r)
      end
    else if etype =? ettNewFloat then
      match ReadFull r (make 8) with
      | (_, Some err, r) => Done (TNil, Some err, r)
      | (b, None, r) => Done (TFloat64 (be_Uint64 b), None, r)
      end
    else if etype =? ettSmallInteger then
      let '(x, err, r) := ruint8 r in Done (TInt x, err, r)
    else if etype =? ettInteger then
      match ReadFull r (make 4) with
      | (_, Some err, r) => Done (TInt 0, Some err, r)
      | (b, None, r) => Done (TInt (int32_of (be_Uint32 b)), None, r)
      end
    else if etype =? ettSmallBig then
      match ReadFull r (make 2) with
      | (_, Some err, r) => Done (TNil, Some err, r)
      | (b, None, r) =>
        let sign := nth 1 b 0 in
        Done (readBigInt r (make (nth 0 b 0)) sign)
      end
    else if etype =? ettLargeBig then
      match ReadFull r (make 5) with
      | (_, Some err, r) => Done (TNil, Some err, r)
      | (b, None, r) =>
        let sign := nth 4 b 0 in
        Done (readBigInt r (make (be_Uint32 (firstn 4 b))) sign)
      end
    else if etype =? ettNil then
      Done (TList [], None, r)
    else if etype =? ettPid then
      match rec r with
      | Done (_, Some err, r) => Done (TNil, Some err, r)
      | Done (node, None, r) =>
        match ReadFull r (make 9) with
        | (_, Some err, r) => Done (TNil, Some err, r)
        | (b, None, r) =>
          match node with
          | TAtom node =>
            Done (TPid {| Pid_Node := node;
                          Pid_Id := be_Uint32 (firstn 4 b);
                          Pid_Serial := be_Uint32 (firstn 4 (skipn 4 b));
                          Pid_Creation := nth 8 b 0 |},
                  None, r)
          | _ => Panic
          end
        end
      | Panic => Panic
      | OutOfFuel => OutOfFuel
      end
    else if etype =? ettNewRef then
      match ruint16 r with
      | (_, Some err, r) => Done (TNil, Some err, r)
      | (nid, None, r) =>
        match rec r with
        | Done (_, Some err, r) => Done (TNil, Some err, r)
        | Done (node, None, r) =>
          match ruint8 r with
          | (_, Some err, r) => Done (TNil, Some err, r)
          | (creation, None, r) =>
            match node with
            | TAtom node =>
              match readIds (Z.to_nat nid) r with
              | (_, Some err, r) => Done (TNil, Some err, r)
              | (ids, None, r) =>
                Done (TRef {| Ref_Node := node; Ref_Creation := creation;
                              Ref_Id := ids |},
                      None, r)
              end
            | _ => Panic
            end
          end
        | Panic => Panic
        | OutOfFuel => OutOfFuel
        end
      end
    else if etype =? ettRef then
      match rec r with
      | Done (_, Some err, r) => Done (TNil, Some err, r)
      | Done (node, None, r) =>
        match node with
        | TAtom node =>
          match ruint32 r with
          | (_, Some err, r) => Done (TNil, Some err, r)
          | (id, None, r) =>
            (* [b] is still the nil slice here *)
            match ReadFull r [] with
            | (_, Some err, r) => Done (TNil, Some err, r)
            | (b, None, r) =>
              match nth_error b 0 with
              | Some creation =>
                Done (TRef {| Ref_Node := node; Ref_Creation := creation;
                              Ref_Id := [id] |},
                      None, r)
              | None => Panic
              end
            end
          end
        | _ => Panic
        end
      | Panic => Panic
      | OutOfFuel => OutOfFuel
      end
    else if etype =? ettSmallTuple then
      match ruint8 r with
      | (_, Some err, r) => Done (TNil, Some err, r)
      | (arity, None, r) =>
        match decodeEach rec (Z.to_nat arity) r with
        | Done (ts, err, r) =>
          Done (TTuple (filled (Z.to_nat arity) ts), err, r)
        | Panic => Panic
        | OutOfFuel => OutOfFuel
        end
      end
    else if etype =? ettLargeTuple then
      match ruint32 r with
      | (_, Some err, r) => Done (TNil, Some err, r)
      | (arity, None, r) =>
        match decodeEach rec (Z.to_nat arity) r with
        | Done (ts, err, r) =>
          Done (TTuple (filled (Z.to_nat arity) ts), err, r)
        | Panic => Panic
        | OutOfFuel => OutOfFuel
        end
      end
    else if etype =? ettList then
      match ruint32 r with
      | (_, Some err, r) => Done (TNil, Some err, r)
      | (n, None, r) =>
        match decodeEach rec (Z.to_nat (uint32_of (n + 1))) r with
        | Done (_, Some err, r) => Done (TNil, Some err, r)
        | Done (list, None, r) =>
          match nth_error list (Z.to_nat n) with
          | Some (TList _) => Done (TList (firstn (Z.to_nat n) list), None, r)
          | Some _ => Done (TList list, None, r)
          | None => Panic
          end
        | Panic => Panic
        | OutOfFuel => OutOfFuel
        end
      end
    else if etype =? ettBitBinary then
      match ruint32 r with
      | (_, Some err, r) => Done (TNil, Some err, r)
      | (length_, None, r) =>
        match ruint8 r with
        | (_, Some err, r) => Done (TNil, Some err, r)
        | (bits, None, r) =>
          let '(b, err, r) := ReadFull r (make length_) in
          match length b with
          | O => Panic
          | S last =>
            let b := store b last
                       (Z.shiftr (nth last b 0) (byte_of (8 - bits))) in
            Done (TBytes b, err, r)
          end
        end
      end
    else if etype =? ettExport then
      match rec r with
      | Done (_, Some err, r) => Done (TNil, Some err, r)
      | Done (m, None, r) =>
        match rec r with
        | Done (_, Some err, r) => Done (TNil, Some err, r)
        | Done (f, None, r) =>
          match ruint8 r with
          | (_, Some err, r) => Done (TNil, Some err, r)
          | (a, None, r) =>
            match m, f with
            | TAtom m, TAtom f =>
              Done (TExport {| Export_Module := m; Export_Function := f;
                               Export_Arity := a |},
                    None, r)
            | _, _ => Panic
            end
          end
        | Panic => Panic
        | OutOfFuel => OutOfFuel
        end
      | Panic => Panic
      | OutOfFuel => OutOfFuel
      end
    else if etype =? ettNewFun then
      let '(_, _, r) := ruint32 r in
      let '(arity, _, r) := ruint8 r in
      let '(unique, _, r) := ReadFull r (make 16) in
      let '(index, _, r) := ruint32 r in
      let '(free, _, r) := ruint32 r in
      match rec r with
      | Done (m, _, r) =>
        match rec r with
        | Done (oldi, _, r) =>
          match rec r with
          | Done (oldu, _, r) =>
            match rec r with
            | Done (pid, _, r) =>
              finishFun rec arity unique index free m oldi oldu pid r
            | Panic => Panic
            | OutOfFuel => OutOfFuel
            end
          | Panic => Panic
          | OutOfFuel => OutOfFuel
          end
        | Panic => Panic
        | OutOfFuel => OutOfFuel
        end
      | Panic => Panic
      | OutOfFuel => OutOfFuel
      end
    else if etype =? ettFun then
      let '(free, _, r) := ruint32 r in
      match rec r with
      | Done (pid, _, r) =>
        match rec r with
        | Done (m, _, r) =>
          match rec r with
          | Done (oldi, _, r) =>
            match rec r with
            | Done (oldu, _, r) =>
              finishFun rec 0 (make 16) 0 free m oldi oldu pid r
            | Panic => Panic
            | OutOfFuel => OutOfFuel
            end
          | Panic => Panic
          | OutOfFuel => OutOfFuel
          end
        | Panic => Panic
        | OutOfFuel => OutOfFuel
        end
      | Panic => Panic
      | OutOfFuel => OutOfFuel
      end
    else if etype =? ettPort then
      match rec r with
      | Done (a, _, r) =>
        match a with
        | TAtom a =>
          let '(id, _, r) := ruint32 r in
          let '(creation, err, r) := ruint8 r in
          Done (TPort {| Port_Node := a; Port_Id := id;
                         Port_Creation := creation |},
                err, r)
        | _ => Panic
        end
      | Panic => Panic
      | OutOfFuel => OutOfFuel
      end
    else if etype =? ettCacheRef then
      match ReadFull r (make 1) with
      | (_, Some err, r) => Done (TNil, Some err, r)
      | (b, None, r) =>
        match nth_error (currentCache c) (Z.to_nat (nth 0 b 0)) with
        | Some (Some text) => Done (TAtom text, None, r)
        | Some None => Panic
        | None => Panic
        end
      end
    else
      Done (TNil, Some (ErrUnknownTerm etype), r)
  end.

(** [Decode] with a bound [fuel] on the depth of the recursive calls. *)
Fixpoint DecodeFuel (fuel : nat) (r : Reader) : result :=
  match fuel with
  | O => OutOfFuel
  | S fuel' => DecodeBody (DecodeFuel fuel') r
  end.

(** [Decode] reads the next term from the underlying reader.  Every call
    reads the tag first, so that the depth of the calls is at most the number
    of unread bytes plus one. *)
Definition Decode (r : Reader) : result :=
  DecodeFuel (S (length r)) r.

End Decode.

End Decoder.

(** ** write/write.go: the stand-alone writers *)

Module write.

(** Modelled from the spec: the constants [ErlTypeSmallAtom], [ErlTypeAtom],
    [ErlTypeSmallBig], [ErlTypeLargeBig], [ErlTypeBinary],
    [ErlTypeNewFloat], [ErlTypeSmallInteger], [ErlTypeInteger] and
    [ErlTypeString] come from the package [types], which is not part of the
    sources; their values are those of the tag catalog (SMALL_ATOM 0x73,
    ATOM 0x64, SMALL_BIG 0x6E, LARGE_BIG 0x6F, BINARY 0x6D, NEW_FLOAT 0x46,
    SMALL_INTEGER 0x61, INTEGER 0x62, STRING 0x6B). *)
Definition ErlTypeSmallAtom : Z := 115.
Definition ErlTypeAtom : Z := 100.
Definition ErlTypeSmallBig : Z := 110.
Definition ErlTypeLargeBig : Z := 111.
Definition ErlTypeBinary : Z := 109.
Definition ErlTypeNewFloat : Z := 70.
Definition ErlTypeSmallInteger : Z := 97.
Definition ErlTypeInteger : Z := 98.
Definition ErlTypeString : Z := 107.

Definition Writer : Type := list Z.

Definition Write (w : Writer) (p : list Z) : Writer * option error :=
  (w ++ p, None).

Definition andThen (first : Writer * option error)
    (next : Writer -> Writer * option error) : Writer * option error :=
  match first with
  | (w, None) => next w
  | (w, Some e) => (w, Some e)
  end.

(** [for i := 0; i < size; i++ { r[i] = b[size-i-1] }] *)
Definition reverse (b : list Z) : list Z :=
  let size := length b in
  map (fun i => nth (size - i - 1) b 0) (seq 0 size).

Definition Atom (w : Writer) (atom : list Z) : Writer * option error :=
  let size := Z.of_nat (length atom) in
  if size <=? 255 then
    andThen (Write w [ErlTypeSmallAtom; byte_of size])
            (fun w => Write w atom)
  else if size <=? 65535 then
    andThen (Write w [ErlTypeAtom; byte_of (Z.shiftr size 8); byte_of size])
            (fun w => Write w atom)
  else
    (w, Some (Errorf "atom is too big (%d bytes)" size)).

Definition BigInt (arch : Arch) (w : Writer) (x : Z)
    : Writer * option error :=
  let sign := if big.Sign x <? 0 then 1 else 0 in
  let bytes := reverse (big.Bytes (Z.abs x)) in
  let size := Z.of_nat (length bytes) in
  if size <=? 255 then
    andThen (Write w [ErlTypeSmallBig; byte_of size; byte_of sign])
            (fun w => Write w bytes)
  else if int_of arch (uint32_of size) =? size then
    andThen (Write w [ErlTypeLargeBig;
                      byte_of (Z.shiftr size 24); byte_of (Z.shiftr size 16);
                      byte_of (Z.shiftr size 8); byte_of size;
                      byte_of sign])
            (fun w => Write w bytes)
  else
    (w, Some (Errorf "bad big int size (%d)" size)).

Definition Binary (arch : Arch) (w : Writer) (bytes : list Z)
    : Writer * option error :=
  let size := Z.of_nat (length bytes) in
  if int_of arch (uint32_of size) =? size then
    andThen (Write w [ErlTypeBinary;
                      byte_of (Z.shiftr size 24); byte_of (Z.shiftr size 16);
                      byte_of (Z.shiftr size 8); byte_of size])
            (fun w => Write w bytes)
  else
    (w, Some (Errorf "bad binary size (%d)" size)).

Definition Bool (w : Writer) (b : bool) : Writer * option error :=
  if b then Atom w [116; 114; 117; 101]
  else Atom w [102; 97; 108; 115; 101].

Definition Float64 (w : Writer) (fb : Z) : Writer * option error :=
  andThen (Write w [ErlTypeNewFloat])
          (fun w => Write w [byte_of (Z.shiftr fb 56); byte_of (Z.shiftr fb 48);
                             byte_of (Z.shiftr fb 40); byte_of (Z.shiftr fb 32);
                             byte_of (Z.shiftr fb 24); byte_of (Z.shiftr fb 16);
                             byte_of (Z.shiftr fb 8); byte_of fb]).

Definition Int64 (arch : Arch) (w : Writer) (x : Z)
    : Writer * option error :=
  if (x >=? 0) && (x <=? 255) then
    Write w [ErlTypeSmallInteger; byte_of x]
  else if int64_of (int32_of x) =? x then
    Write w [ErlTypeInteger;
             byte_of (Z.shiftr x 24); byte_of (Z.shiftr x 16);
             byte_of (Z.shiftr x 8); byte_of x]
  else
    BigInt arch w x.

Definition String (w : Writer) (s : list Z) : Writer * option error :=
  let size := Z.of_nat (length s) in
  if size <=? 65535 then
    andThen (Write w [ErlTypeString; byte_of (Z.shiftr size 8); byte_of size])
            (fun w => Write w s)
  else
    (w, Some (Errorf "string is too big (%d bytes)" size)).

End write.

(** ** decode.go: the typed decode bridge *)

Module Typed.

(** Modelled from the spec: the constants [erlSmallTuple], [erlLargeTuple]
    and [erlFormatVersion] are declared in a file that is not part of the
    sources; their values are those of the tag catalog (SMALL_TUPLE 0x68,
    LARGE_TUPLE 0x69, format version 0x83). *)
Definition erlSmallTuple : Z := 104.
Definition erlLargeTuple : Z := 105.
Definition erlFormatVersion : Z := 131.

(** The kinds of [reflect] that [decode] distinguishes. *)
Inductive IntKind : Type := Int | Int8 | Int16 | Int32 | Int64.
Inductive UintKind : Type := Uint | Uint8 | Uint16 | Uint32 | Uint64.

(** The type of a target ([reflect.Type]). *)
Inductive type : Type :=
| TyBool
| TyInt (k : IntKind)
| TyUint (k : UintKind)
| TyFloat32
| TyFloat64
| TyString
| TyAtom
| TyStruct (fields : list type)
| TyPtrBigInt
| TyPtrOther (name : string)
| TySliceByte
| TySliceOther (name : string)
| TyArray (len : nat) (elem : type)
| TyOther (name : string).

(** The value a target holds ([ptr.Elem()]); floats are their IEEE 754
    bits. *)
Inductive value : Type :=
| VBool (b : bool)
| VInt (k : IntKind) (x : Z)
| VUint (k : UintKind) (x : Z)
| VFloat32 (bits : Z)
| VFloat64 (bits : Z)
| VString (s : list Z)
| VAtom (a : list Z)
| VStruct (fields : list value)
| VPtrBigInt (x : option Z)
| VPtrOther (name : string)
| VSliceByte (b : list Z)
| VSliceOther (name : string)
| VArray (elem : type) (elems : list value)
| VOther (name : string).

Fixpoint typeOf (v : value) : type :=
  match v with
  | VBool _ => TyBool
  | VInt k _ => TyInt k
  | VUint k _ => TyUint k
  | VFloat32 _ => TyFloat32
  | VFloat64 _ => TyFloat64
  | VString _ => TyString
  | VAtom _ => TyAtom
  | VStruct fields => TyStruct (map typeOf fields)
  | VPtrBigInt _ => TyPtrBigInt
  | VPtrOther name => TyPtrOther name
  | VSliceByte _ => TySliceByte
  | VSliceOther name => TySliceOther name
  | VArray elem elems => TyArray (length elems) elem
  | VOther name => TyOther name
  end.

(** The [Value] field of an [OverflowError]. *)
Inductive overflowed : Type :=
| OfInt64 (x : Z)
| OfUint64 (x : Z)
| OfFloat64 (bits : Z)
| OfBytes (b : list Z).

Inductive derror : Type :=
| OverflowError (Value : overflowed) (Type_ : type)
| TypeError (Type_ : type)
| VersionError (Version : Z)
| StructuralError (format : string) (args : list Z)
| SyntaxError (msg : string)
| ParseError (code : Z).

Definition intBits (arch : Arch) (k : IntKind) : Z :=
  match k with
  | Int => intSize arch
  | Int8 => 8
  | Int16 => 16
  | Int32 => 32
  | Int64 => 64
  end.

Definition uintBits (arch : Arch) (k : UintKind) : Z :=
  match k with
  | Uint => intSize arch
  | Uint8 => 8
  | Uint16 => 16
  | Uint32 => 32
  | Uint64 => 64
  end.

(** [reflect.Value.OverflowInt]:
    [trunc := (x << (64 - bitSize)) >> (64 - bitSize); return x != trunc]. *)
Definition OverflowInt (arch : Arch) (k : IntKind) (x : Z) : bool :=
  let bitSize := intBits arch k in
  let trunc := Z.shiftr (int64_of (Z.shiftl x (64 - bitSize))) (64 - bitSize) in
  negb (x =? trunc).

(** [reflect.Value.OverflowUint]. *)
Definition OverflowUint (arch : Arch) (k : UintKind) (x : Z) : bool :=
  let bitSize := uintBits arch k in
  let trunc := Z.shiftr (uint64_of (Z.shiftl x (64 - bitSize))) (64 - bitSize) in
  negb (x =? trunc).

Section Bridge.

Variable arch : Arch.

(** The parsers of parse.go, which is not part of the sources: each returns
    its result, the number of bytes it used and an error. *)
Variable parseBool : list Z -> bool * Z * option derror.
Variable parseInt64 : list Z -> Z * Z * option derror.
Variable parseUint64 : list Z -> Z * Z * option derror.
Variable parseFloat64 : list Z -> Z * Z * option derror.
Variable parseAtom : list Z -> list Z * Z * option derror.
Variable parseString : list Z -> list Z * Z * option derror.
Variable parseBigInt : list Z -> Z * Z * option derror.
Variable parseBinary : list Z -> list Z * Z * option derror.

(** [reflect.Value.OverflowFloat] for a [float32] target, and the conversion
    of [SetFloat] to [float32]. *)
Variable overflowFloat32 : Z -> bool.
Variable toFloat32 : Z -> Z.

(** What a decoding function gives: the size, the error and the value that
    the target holds afterwards. *)
Definition decoded : Type := outcome (Z * option derror * value).

(** decodePtr decodes a specific type of data. *)
Definition decodePtr (b : list Z) (v : value) : decoded :=
  match v with
  | VPtrBigInt _ =>
    match parseBigInt b with
    | (result, size, None) => Done (size, None, VPtrBigInt (Some result))
    | (_, size, Some err) => Done (size, Some err, v)
    end
  | _ => Done (0, Some (TypeError (typeOf v)), v)
  end.

(** decodeSlice decodes a slice. *)
Definition decodeSlice (b : list Z) (v : value) : decoded :=
  match v with
  | VSliceByte _ =>
    match parseBinary b with
    | (result, size, None) => Done (size, None, VSliceByte result)
    | (_, size, Some err) => Done (size, Some err, v)
    end
  | _ => Done (0, Some (TypeError (typeOf v)), v)
  end.

(** decodeArray decodes an array. *)
Definition decodeArray (b : list Z) (v : value) : decoded :=
  match v with
  | VArray (TyUint Uint8) elems =>
    match parseBinary b with
    | (result, size, None) =>
      if (length elems =? length result)%nat then
        Done (size, None, VArray (TyUint Uint8) (map (VUint Uint8) result))
      else
        Done (size, Some (OverflowError (OfBytes result) (typeOf v)), v)
    | (_, size, Some err) => Done (size, Some err, v)
    end
  | _ => Done (0, Some (TypeError (typeOf v)), v)
  end.

(** The loop of [decodeStruct] over the fields, [decode_] being [decode]. *)
Definition decodeField (decode_ : list Z -> value -> decoded)
    (b : list Z) (size : Z) (f : value) : decoded :=
  if size >? Z.of_nat (length b) then Panic
  else
    match decode_ (skipn (Z.to_nat size) b) f with
    | Done (s, err, f') => Done (uint_of arch (size + s), err, f')
    | Panic => Panic
    | OutOfFuel => OutOfFuel
    end.

Fixpoint decode (b : list Z) (v : value) {struct v} : decoded :=
  match v with
  | VBool _ =>
    match parseBool b with
    | (result, size, None) => Done (size, None, VBool result)
    | (_, size, Some err) => Done (size, Some err, v)
    end
  | VInt k _ =>
    match parseInt64 b with
    | (result, size, None) =>
      if OverflowInt arch k result then
        Done (size, Some (OverflowError (OfInt64 result) (typeOf v)), v)
      else
        Done (size, None, VInt k result)
    | (_, size, Some err) => Done (size, Some err, v)
    end
  | VUint k _ =>
    match parseUint64 b with
    | (result, size, None) =>
      if OverflowUint arch k result then
        Done (size, Some (OverflowError (OfUint64 result) (typeOf v)), v)
      else
        Done (size, None, VUint k result)
    | (_, size, Some err) => Done (size, Some err, v)
    end
  | VFloat32 _ =>
    match parseFloat64 b with
    | (result, size, None) =>
      if overflowFloat32 result then
        Done (size, Some (OverflowError (OfFloat64 result) (typeOf v)), v)
      else
        Done (size, None, VFloat32 (toFloat32 result))
    | (_, size, Some err) => Done (size, Some err, v)
    end
  | VFloat64 _ =>
    match parseFloat64 b with
    | (result, size, None) => Done (size, None, VFloat64 result)
    | (_, size, Some err) => Done (size, Some err, v)
    end
  | VAtom _ =>
    match parseAtom b with
    | (result, size, None) => Done (size, None, VAtom result)
    | (_, size, Some err) => Done (size, Some err, v)
    end
  | VString _ =>
    match parseString b with
    | (result, size, None) => Done (size, None, VString result)
    | (_, size, Some err) => Done (size, Some err, v)
    end
  | VStruct fields =>
    (* decodeStruct decodes a structure from tuple. *)
    let decodeFields :=
      fix decodeFields (size : Z) (fs : list value) {struct fs}
          : outcome (Z * option derror * list value) :=
        match fs with
        | [] => Done (size, None, [])
        | f :: fs' =>
          match decodeField decode b size f with
          | Done (size, Some err, f') => Done (size, Some err, f' :: fs')
          | Done (size, None, f') =>
            match decodeFields size fs' with
            | Done (size, err, fs'') => Done (size, err, f' :: fs'')
            | Panic => Panic
            | OutOfFuel => OutOfFuel
            end
          | Panic => Panic
          | OutOfFuel => OutOfFuel
          end
        end in
    let decode_ (arity size : Z) : decoded :=
      if negb (arity =? Z.of_nat (length fields)) then
        Done (size,
              Some (StructuralError
                      "different number of fields (%d, should be %d)"
                      [Z.of_nat (length fields); arity]),
              v)
      else
        match decodeFields size fields with
        | Done (size, err, fields') => Done (size, err, VStruct fields')
        | Panic => Panic
        | OutOfFuel => OutOfFuel
        end in
    match b with
    | [] => Panic
    | tag :: _ =>
      if tag =? erlSmallTuple then
        if (2 <=? length b)%nat then
          decode_ (int_of arch (nth 1 b 0)) 2
        else
          Done (0, Some (StructuralError "invalid tuple length (%d)"
                                         [Z.of_nat (length b)]), v)
      else if tag =? erlLargeTuple then
        if (5 <=? length b)%nat then
          decode_ (int_of arch (be_Uint32 (firstn 4 (skipn 1 b)))) 5
        else
          Done (0, Some (StructuralError "invalid tuple length (%d)"
                                         [Z.of_nat (length b)]), v)
      else
        Done (0, Some (SyntaxError "not a tuple"), v)
    end
  | VPtrBigInt _ | VPtrOther _ => decodePtr b v
  | VSliceByte _ | VSliceOther _ => decodeSlice b v
  | VArray _ _ => decodeArray b v
  | VOther _ => Done (0, Some (TypeError (typeOf v)), v)
  end.

(** Decode unmarshals a value and stores it to a variable pointer by ptr. *)
Definition Decode (b : list Z) (v : value) : decoded :=
  match b with
  | [] => Panic
  | b0 :: b1 =>
    if negb (b0 =? erlFormatVersion) then
      Done (0, Some (VersionError b0), v)
    else
      match decode b1 v with
      | Done (size, err, v') => Done (uint_of arch (size + 1), err, v')
      | Panic => Panic
      | OutOfFuel => OutOfFuel
      end
  end.

End Bridge.

End Typed.

(** ** The words of the specification *)

(** The integer of a little-endian magnitude (section 4.5: the payload of a
    big integer is the magnitude, least significant byte first). *)
Definition leValue (l : list Z) : Z :=
  fold_right (fun b acc => b + 256 * acc) 0 l.

(** Narrowing as the specification words it (section 4.2): the smallest
    integer kind that holds the value, native signed [int] first, then
    64-bit signed, otherwise big integer. *)
Definition narrowest (arch : Arch) (z : Z) : Term :=
  if (- 2 ^ (intSize arch - 1) <=? z) && (z <? 2 ^ (intSize arch - 1)) then
    TInt z
  else if (- 2 ^ 63 <=? z) && (z <? 2 ^ 63) then TInt64 z
  else TBigInt z.

(** The sign byte of a big integer: 0 non-negative, 1 negative. *)
Definition signByte (x : Z) : Z := if x <? 0 then 1 else 0.

(** The integer a term stands for, if it is of an integer kind. *)
Definition integerOf (t : Term) : option Z :=
  match t with
  | TInt x | TInt64 x | TBigInt x => Some x
  | _ => None
  end.

(** ** Concrete surroundings for the examples *)

(** A scanner that scans nothing; the examples do not contain the legacy
    FLOAT tag, the only one for which [Decode] calls [Sscanf]. *)
Definition scanNothing (b : list Z) : Z * Z * option error :=
  (0, 0, Some (ErrScan "unexpected EOF")).

(** A context whose current cache has the atom "ok" in slot 0 and a nil
    pointer in slot 1. *)
Definition cachedOk : Context :=
  {| atomCache := repeat None 2048;
     currentCache := [Some [111; 107]; None] |}.

(** Modelled from the spec: [parseInt64] belongs to parse.go, which is not
    part of the sources.  This stand-in reads the two plain integer terms as
    the reader table of section 4.2 gives them: SMALL_INTEGER (0x61) is
    followed by an unsigned byte, INTEGER (0x62) by a big-endian signed
    32-bit integer; it is used in the examples only. *)
Definition specParseInt64 (b : list Z) : Z * Z * option Typed.derror :=
  match b with
  | 97 :: x :: _ => (x, 2, None)
  | 98 :: b3 :: b2 :: b1 :: b0 :: _ =>
    (int32_of (be_Uint32 [b3; b2; b1; b0]), 5, None)
  | _ => (0, 0, Some (Typed.SyntaxError "not an integer"))
  end.

(** Parsers that accept nothing, for the targets the examples do not
    use. *)
Definition parseNothing {A : Type} (a : A) (b : list Z)
    : A * Z * option Typed.derror :=
  (a, 0, Some (Typed.ParseError 0)).

(** A magnitude of [2 ^ 32] bytes. *)
Definition hugeMagnitude : Z := 2 ^ (8 * 4294967295).

(** [a] is what a computation gives with less fuel than the one giving
    [b]: nothing yet, or the same. *)
Definition approx {A : Type} (a b : outcome A) : Prop :=
  a = OutOfFuel \/ a = b.

(** A call that ends, and leaves no more of the stream [r] than there
    was. *)
Definition shrinks {A : Type} (r : Decoder.Reader)
    (res : outcome (A * Decoder.Reader)) : Prop :=
  match res with
  | Done (_, r') => (length r' <= length r)%nat
  | Panic => True
  | OutOfFuel => False
  end.

(** [r'] is what is left of the stream [r] after some bytes were read. *)
Definition suffix (r' r : Decoder.Reader) : Prop :=
  exists p : list Z, r = p ++ r'.

(** A call that ends, and leaves a suffix of the stream [r]. *)
Definition leaves {A : Type} (r : Decoder.Reader)
    (res : outcome (A * Decoder.Reader)) : Prop :=
  match res with
  | Done (_, r') => suffix r' r
  | Panic => True
  | OutOfFuel => False
  end.

(** The bytes [enc], whatever follows them, are read by [Decode] as the
    term [t], without error, and what follows is left unread. *)
Definition readsBack (arch : Arch)
    (Sscanf_f : list Z -> Z * Z * option error) (c : Context)
    (enc : list Z) (t : Term) : Prop :=
  forall rest : list Z,
    Decoder.Decode arch Sscanf_f c (enc ++ rest) = Done (t, None, rest).

(** The range of the native [int]. *)
Definition is_int (arch : Arch) (x : Z) : Prop :=
  - 2 ^ (intSize arch - 1) <= x < 2 ^ (intSize arch - 1).

Definition is_uint64 (x : Z) : Prop := 0 <= x < 2 ^ 64.

(** The loop of [writeTuple], [writeList] and [writeRecord] over the
    elements, [for _, v := range tuple { if err = e.EncodeTerm(v); err != nil
    { return } }], as a function of its own. *)
Fixpoint encodeEach (w : Encoder.Writer) (l : list Term)
    : outcome (Encoder.Writer * option error) :=
  match l with
  | [] => Done (w, None)
  | v :: l' =>
    Encoder.thenEncode (Encoder.EncodeTerm w v) (fun w => encodeEach w l')
  end.

(** An atom that the writer accepts and that the reader gives back as an
    atom. *)
Definition validNode (a : Atom) : Prop :=
  Z.of_nat (length a) <= 65535 /\ a <> Decoder.bTrue /\ a <> Decoder.bFalse.

(** The terms in the form in which [Decode] produces them and [EncodeTerm]
    accepts them: an integer is of the narrowest of the three kinds, sizes
    are within the caps of the writers, a node is a [validNode], the id of a
    [Pid] has 16 bits; ports, exports and functions, which [EncodeTerm]
    writes as plain tuples, and the nil interface are left out. *)
Fixpoint canonical (arch : Arch) (t : Term) : Prop :=
  match t with
  | TBool _ => True
  | TInt x => is_int arch x
  | TInt64 x => is_int64 x /\ ~ is_int arch x
  | TBigInt v => ~ is_int64 v /\ Z.of_nat (big.size v) <= MaxUint32
  | TFloat64 bits => is_uint64 bits
  | TString s => Z.of_nat (length s) <= 65535
  | TBytes b => Z.of_nat (length b) <= MaxUint32
  | TAtom a => validNode a
  | TPid p =>
    validNode (Pid_Node p) /\ 0 <= Pid_Id p <= 65535 /\
    is_uint32 (Pid_Serial p)
  | TRef r =>
    validNode (Ref_Node r) /\ Z.of_nat (length (Ref_Id r)) <= 65535 /\
    Forall is_uint32 (Ref_Id r)
  | TTuple ts =>
    Z.of_nat (length ts) <= MaxUint32 /\
    (fix all (l : list Term) : Prop :=
       match l with
       | [] => True
       | x :: l' => canonical arch x /\ all l'
       end) ts
  | TList ts =>
    Z.of_nat (length ts) < MaxUint32 /\
    (fix all (l : list Term) : Prop :=
       match l with
       | [] => True
       | x :: l' => canonical arch x /\ all l'
       end) ts
  | TNil | TPort _ | TExport _ | TFunction _ => False
  end.

(** The four big-endian bytes of a 32-bit field. *)
Definition be4 (v : Z) : list Z :=
  [byte_of (Z.shiftr v 24); byte_of (Z.shiftr v 16);
   byte_of (Z.shiftr v 8); byte_of v].

(** The tags that have a case in [Decode], in the order of the cases. *)
Definition decodedTags : list Z :=
  [EtVersion; ettAtom; ettAtomUTF8; ettSmallAtom; ettSmallAtomUTF8;
   ettBinary; ettString; ettFloat; ettNewFloat; ettSmallInteger;
   ettInteger; ettSmallBig; ettLargeBig; ettNil; ettPid; ettNewRef;
   ettRef; ettSmallTuple; ettLargeTuple; ettList; ettBitBinary; ettExport;
   ettNewFun; ettFun; ettPort; ettCacheRef].

(** What holds of every term that [Decode] returns without error: it is
    not the nil interface, and an integer is of the narrowest kind. *)
Definition wellKinded (arch : Arch) (t : Term) : Prop :=
  match t with
  | TNil => False
  | TInt x => is_int arch x
  | TInt64 x => is_int64 x /\ ~ is_int arch x
  | TBigInt v => ~ is_int64 v
  | _ => True
  end.

(** * Properties *)

(** ** Machine integers *)

Lemma byte_of_small (x : Z) : 0 <= x <= 255 -> byte_of x = x.
Proof.
  intros H. unfold byte_of, uwrap. apply Z.mod_small. simpl. lia.
Qed.

Lemma byte_of_range (x : Z) : 0 <= byte_of x <= 255.
Proof.
  unfold byte_of, uwrap.
  assert (H : 0 <= x mod 2 ^ 8 < 2 ^ 8) by (apply Z.mod_pos_bound; reflexivity).
  change (2 ^ 8) with 256 in H. change (2 ^ 8) with 256. lia.
Qed.

Lemma shiftr_div (x n : Z) : 0 <= n -> Z.shiftr x n = x / 2 ^ n.
Proof. intros H. apply Z.shiftr_div_pow2. exact H. Qed.

Lemma swrap_id (w x : Z) :
  0 < w -> - 2 ^ (w - 1) <= x < 2 ^ (w - 1) -> swrap w x = x.
Proof.
  intros Hw Hx. unfold swrap.
  assert (E : 2 ^ w = 2 * 2 ^ (w - 1)).
  { replace w with (Z.succ (w - 1)) at 1 by lia. apply Z.pow_succ_r. lia. }
  rewrite Z.mod_small; lia.
Qed.

Lemma swrap_range (w x : Z) :
  0 < w -> - 2 ^ (w - 1) <= swrap w x < 2 ^ (w - 1).
Proof.
  intros Hw. unfold swrap.
  assert (E : 2 ^ w = 2 * 2 ^ (w - 1)).
  { replace w with (Z.succ (w - 1)) at 1 by lia. apply Z.pow_succ_r. lia. }
  assert (P : 0 < 2 ^ (w - 1)) by (apply Z.pow_pos_nonneg; lia).
  assert (M : 0 <= (x + 2 ^ (w - 1)) mod 2 ^ w < 2 ^ w)
    by (apply Z.mod_pos_bound; lia).
  lia.
Qed.

Lemma uwrap_id (w x : Z) : 0 <= x < 2 ^ w -> uwrap w x = x.
Proof. intros H. unfold uwrap. apply Z.mod_small. exact H. Qed.

(** The four big-endian bytes that the writers emit for a 32-bit field give
    the field back, modulo [2 ^ 32]. *)
Lemma be_Uint32_bytes (x : Z) :
  be_Uint32 [byte_of (Z.shiftr x 24); byte_of (Z.shiftr x 16);
             byte_of (Z.shiftr x 8); byte_of x] = x mod 2 ^ 32.
Proof.
  unfold be_Uint32, byte_of, uwrap. cbn [nth].
  rewrite !shiftr_div by lia.
  change (2 ^ 8) with 256. change (2 ^ 24) with (256 * 256 * 256).
  change (2 ^ 16) with (256 * 256). change (2 ^ 32) with (256 * (256 * (256 * 256))).
  rewrite <- !Z.div_div by lia.
  rewrite (Z.rem_mul_r x 256 (256 * (256 * 256))) by lia.
  rewrite (Z.rem_mul_r (x / 256) 256 (256 * 256)) by lia.
  rewrite (Z.rem_mul_r (x / 256 / 256) 256 256) by lia.
  ring.
Qed.

Lemma be_Uint16_bytes (x : Z) :
  be_Uint16 [byte_of (Z.shiftr x 8); byte_of x] = x mod 2 ^ 16.
Proof.
  unfold be_Uint16, byte_of, uwrap. cbn [nth].
  rewrite !shiftr_div by lia.
  change (2 ^ 8) with 256. change (2 ^ 16) with (256 * 256).
  rewrite (Z.rem_mul_r x 256 256) by lia.
  ring.
Qed.

(** ** Tag selection of the writers *)

Lemma app_tag_inj (w : list Z) (t1 t2 : Z) (l1 l2 : list Z)
    (e1 e2 : option error) :
  (w ++ t1 :: l1, e1) = (w ++ t2 :: l2, e2) -> t1 = t2.
Proof.
  intros H. injection H as H _. apply app_inv_head in H. congruence.
Qed.

Lemma writeAtom_small (w : list Z) (atom : Atom) :
  Z.of_nat (length atom) <= 255 ->
  Encoder.writeAtom w atom
  = (w ++ ettSmallAtom :: Z.of_nat (length atom) :: atom, None).
Proof.
  intros H. unfold Encoder.writeAtom, MaxUint8.
  destruct (Z.leb_spec (Z.of_nat (length atom)) 255); [|lia].
  unfold Encoder.andThen, Encoder.Write, Encoder.WriteString.
  rewrite byte_of_small by lia. rewrite <- app_assoc. reflexivity.
Qed.

Lemma writeAtom_large (w : list Z) (atom : Atom) :
  255 < Z.of_nat (length atom) <= 65535 ->
  Encoder.writeAtom w atom
  = (w ++ ettAtom :: Z.of_nat (length atom) / 256
            :: Z.of_nat (length atom) mod 256 :: atom, None).
Proof.
  intros H. unfold Encoder.writeAtom, MaxUint8, MaxUint16.
  destruct (Z.leb_spec (Z.of_nat (length atom)) 255); [lia|].
  destruct (Z.leb_spec (Z.of_nat (length atom)) 65535); [|lia].
  unfold Encoder.andThen, Encoder.Write, Encoder.WriteString.
  rewrite shiftr_div by lia. change (2 ^ 8) with 256.
  rewrite (byte_of_small (_ / 256)).
  - rewrite <- app_assoc. reflexivity.
  - split; [apply Z.div_pos; lia|].
    assert (Z.of_nat (length atom) / 256 < 256); [|lia].
    apply Z.div_lt_upper_bound; lia.
Qed.

Lemma writeAtom_too_big (w : list Z) (atom : Atom) :
  65535 < Z.of_nat (length atom) ->
  Encoder.writeAtom w atom
  = (w, Some (Errorf "atom is too big (%d bytes)" (Z.of_nat (length atom)))).
Proof.
  intros H. unfold Encoder.writeAtom, MaxUint8, MaxUint16.
  destruct (Z.leb_spec (Z.of_nat (length atom)) 255); [lia|].
  destruct (Z.leb_spec (Z.of_nat (length atom)) 65535); [lia|].
  reflexivity.
Qed.

(** The writer of package [write] makes the same choice, byte for byte. *)
Lemma write_Atom_eq (w : list Z) (atom : list Z) :
  write.Atom w atom = Encoder.writeAtom w atom.
Proof. reflexivity. Qed.

(** C8.  For every atom of byte length [L] given to the writer: it is
    encoded with the SMALL_ATOM tag (one length byte, then the bytes of the
    atom) iff [L <= 255]; with the ATOM tag (two big-endian length bytes,
    then the bytes) iff [255 < L <= 65535]; and the writer fails with an
    error, writing nothing, iff [L > 65535].  [write.Atom] of package
    [write] does the same. *)
Theorem writeAtom_tag_by_length (w : list Z) (atom : Atom) :
  let L := Z.of_nat (length atom) in
  (L <= 255 <->
   Encoder.writeAtom w atom = (w ++ ettSmallAtom :: L :: atom, None)) /\
  (255 < L <= 65535 <->
   Encoder.writeAtom w atom
   = (w ++ ettAtom :: L / 256 :: L mod 256 :: atom, None)) /\
  (65535 < L <-> exists e, Encoder.writeAtom w atom = (w, Some e)) /\
  write.Atom w atom = Encoder.writeAtom w atom.
Proof.
  intros L.
  assert (Cases : L <= 255 \/ 255 < L <= 65535 \/ 65535 < L) by lia.
  split; [| split; [| split; [| apply write_Atom_eq]]]; split; intros H.
  - apply writeAtom_small; assumption.
  - destruct Cases as [C | [C | C]]; [lia | |].
    + rewrite (writeAtom_large w atom C) in H.
      apply app_tag_inj in H. discriminate H.
    + rewrite (writeAtom_too_big w atom C) in H. congruence.
  - apply writeAtom_large; assumption.
  - destruct Cases as [C | [C | C]]; [| lia |].
    + rewrite (writeAtom_small w atom C) in H.
      apply app_tag_inj in H. discriminate H.
    + rewrite (writeAtom_too_big w atom C) in H. congruence.
  - eexists. apply writeAtom_too_big; assumption.
  - destruct H as [e H]. destruct Cases as [C | [C | C]]; [| | lia].
    + rewrite (writeAtom_small w atom C) in H. congruence.
    + rewrite (writeAtom_large w atom C) in H. congruence.
Qed.

(** ** Byte slices *)

Lemma store_length (b : list Z) (i : nat) (v : Z) :
  length (Decoder.store b i v) = length b.
Proof.
  revert i. induction b as [| x b IH]; intros [| i]; simpl; auto.
Qed.

Lemma nth_store_same (b : list Z) (i : nat) (v d : Z) :
  (i < length b)%nat -> nth i (Decoder.store b i v) d = v.
Proof.
  revert i. induction b as [| x b IH]; intros [| i] H; simpl in *;
    try lia; auto.
  apply IH. lia.
Qed.

Lemma nth_store_other (b : list Z) (i k : nat) (v d : Z) :
  k <> i -> nth k (Decoder.store b i v) d = nth k b d.
Proof.
  revert i k. induction b as [| x b IH]; intros [| i] [| k] H; simpl;
    try reflexivity; try congruence.
  apply IH. congruence.
Qed.

(** One exchange [b[i], b[j] = b[j], b[i]]. *)
Lemma nth_exchange (b : list Z) (i j k : nat) :
  (i < length b)%nat -> (j < length b)%nat -> i <> j ->
  nth k (Decoder.store (Decoder.store b i (nth j b 0)) j (nth i b 0)) 0
  = if Nat.eqb k i then nth j b 0
    else if Nat.eqb k j then nth i b 0 else nth k b 0.
Proof.
  intros Hi Hj Hij.
  destruct (Nat.eqb_spec k i) as [-> | Hki].
  - rewrite nth_store_other by assumption. apply nth_store_same. assumption.
  - destruct (Nat.eqb_spec k j) as [-> | Hkj].
    + apply nth_store_same. rewrite store_length. assumption.
    + rewrite !nth_store_other by assumption. reflexivity.
Qed.

Lemma swapLoop_spec (count : nat) :
  forall (i : nat) (b : list Z),
    (2 * (i + count) <= length b)%nat ->
    length (Decoder.swapLoop count i b) = length b /\
    forall k : nat,
      nth k (Decoder.swapLoop count i b) 0
      = if ((i <=? k) && (k <? i + count)
            || (length b - i - count <=? k) && (k <? length b - i))%nat
        then nth (length b - 1 - k) b 0
        else nth k b 0.
Proof.
  induction count as [| count IH]; intros i b H.
  - split; [reflexivity |]. intros k. simpl.
    destruct (i <=? k)%nat eqn:A, (k <? i + 0)%nat eqn:B,
             (length b - i - 0 <=? k)%nat eqn:C, (k <? length b - i)%nat eqn:D;
      try reflexivity;
      apply Nat.leb_le in A || apply Nat.leb_gt in A;
      apply Nat.ltb_lt in B || apply Nat.ltb_ge in B;
      apply Nat.leb_le in C || apply Nat.leb_gt in C;
      apply Nat.ltb_lt in D || apply Nat.ltb_ge in D; lia.
  - cbn [Decoder.swapLoop].
    set (j := (length b - i - 1)%nat).
    set (b' := Decoder.store (Decoder.store b i (nth j b 0)) j (nth i b 0)).
    assert (L : length b' = length b)
      by (unfold b'; rewrite !store_length; reflexivity).
    destruct (IH (S i) b') as [IHlen IHnth]; [rewrite L; lia |].
    split; [congruence |].
    intros k. rewrite IHnth, L.
    assert (N : forall m, nth m b' 0
                = if Nat.eqb m i then nth j b 0
                  else if Nat.eqb m j then nth i b 0 else nth m b 0)
      by (intros m; unfold b'; apply nth_exchange; unfold j; lia).
    rewrite !N. clear IHnth IHlen N IH.
    destruct (S i <=? k)%nat eqn:A, (k <? S i + count)%nat eqn:B,
             (length b - S i - count <=? k)%nat eqn:C,
             (k <? length b - S i)%nat eqn:D,
             (i <=? k)%nat eqn:A', (k <? i + S count)%nat eqn:B',
             (length b - i - S count <=? k)%nat eqn:C',
             (k <? length b - i)%nat eqn:D';
      apply Nat.leb_le in A || apply Nat.leb_gt in A;
      apply Nat.ltb_lt in B || apply Nat.ltb_ge in B;
      apply Nat.leb_le in C || apply Nat.leb_gt in C;
      apply Nat.ltb_lt in D || apply Nat.ltb_ge in D;
      apply Nat.leb_le in A' || apply Nat.leb_gt in A';
      apply Nat.ltb_lt in B' || apply Nat.ltb_ge in B';
      apply Nat.leb_le in C' || apply Nat.leb_gt in C';
      apply Nat.ltb_lt in D' || apply Nat.ltb_ge in D';
      try lia; cbn [andb orb];
      repeat match goal with
             | |- context [Nat.eqb ?a ?c] => destruct (Nat.eqb_spec a c)
             end;
      try reflexivity; try (exfalso; unfold j in *; lia);
      try (f_equal; unfold j in *; lia).
Qed.

(** The exchange loop of [readBigInt] reverses the slice. *)
Lemma swapLoop_rev (b : list Z) :
  Decoder.swapLoop (Nat.div2 (length b)) 0 b = rev b.
Proof.
  pose proof (Nat.div2_odd (length b)) as E.
  assert (O1 : (Nat.b2n (Nat.odd (length b)) <= 1)%nat)
    by (destruct (Nat.odd (length b)); simpl; lia).
  destruct (swapLoop_spec (Nat.div2 (length b)) 0 b) as [Hlen Hnth];
    [lia |].
  apply nth_ext with (d := 0) (d' := 0).
  - rewrite length_rev. exact Hlen.
  - intros k Hk. rewrite Hlen in Hk. rewrite Hnth.
    rewrite rev_nth by assumption.
    destruct (0 <=? k)%nat eqn:A, (k <? 0 + Nat.div2 (length b))%nat eqn:B,
             (length b - 0 - Nat.div2 (length b) <=? k)%nat eqn:C,
             (k <? length b - 0)%nat eqn:D;
      apply Nat.leb_le in A || apply Nat.leb_gt in A;
      apply Nat.ltb_lt in B || apply Nat.ltb_ge in B;
      apply Nat.leb_le in C || apply Nat.leb_gt in C;
      apply Nat.ltb_lt in D || apply Nat.ltb_ge in D;
      cbn [andb orb]; try lia; f_equal; lia.
Qed.

Lemma nth_map_seq (f : nat -> Z) (n k : nat) (d : Z) :
  (k < n)%nat -> nth k (map f (seq 0 n)) d = f k.
Proof.
  intros H.
  rewrite (nth_indep _ d (f 0%nat)) by (rewrite length_map, length_seq; lia).
  rewrite map_nth. rewrite seq_nth by lia. reflexivity.
Qed.

(** The copying loop of package [write] reverses too. *)
Lemma write_reverse_rev (b : list Z) : write.reverse b = rev b.
Proof.
  unfold write.reverse.
  apply nth_ext with (d := 0) (d' := 0).
  - rewrite length_map, length_seq, length_rev. reflexivity.
  - intros k Hk. rewrite length_map, length_seq in Hk.
    rewrite rev_nth by assumption.
    rewrite nth_map_seq by assumption.
    f_equal. lia.
Qed.

(** ** Big integers *)

Lemma digits_length (f : nat) :
  forall z : Z,
    (f = 0%nat \/ 256 ^ (Z.of_nat f - 1) <= z) ->
    length (big.digits f z) = f.
Proof.
  induction f as [| f IH]; intros z H; [reflexivity |].
  destruct H as [H | H]; [discriminate |].
  replace (Z.of_nat (S f) - 1) with (Z.of_nat f) in H by lia.
  assert (P : 0 < 256 ^ Z.of_nat f) by (apply Z.pow_pos_nonneg; lia).
  cbn [big.digits]. destruct (Z.leb_spec z 0); [lia |].
  cbn [length]. f_equal. apply IH.
  destruct f as [| f]; [left; reflexivity | right].
  replace (Z.of_nat (S f) - 1) with (Z.of_nat f) by lia.
  apply Z.div_le_lower_bound; [lia |].
  replace (Z.of_nat (S f)) with (Z.succ (Z.of_nat f)) in H by lia.
  rewrite Z.pow_succ_r in H by lia. exact H.
Qed.

Lemma digits_value (f : nat) :
  forall z : Z, 0 <= z < 256 ^ Z.of_nat f -> leValue (big.digits f z) = z.
Proof.
  induction f as [| f IH]; intros z H.
  - simpl in *. lia.
  - cbn [big.digits]. destruct (Z.leb_spec z 0); [simpl; lia |].
    cbn [leValue fold_right]. fold (leValue (big.digits f (z / 256))).
    rewrite IH.
    + pose proof (Z.div_mod z 256). lia.
    + replace (Z.of_nat (S f)) with (Z.succ (Z.of_nat f)) in H by lia.
      rewrite Z.pow_succ_r in H by lia.
      split; [apply Z.div_pos; lia |].
      apply Z.div_lt_upper_bound; lia.
Qed.

Lemma digits_bytes (f : nat) :
  forall z : Z, Forall is_byte (big.digits f z).
Proof.
  induction f as [| f IH]; intros z; cbn [big.digits]; [constructor |].
  destruct (z <=? 0); constructor; [| apply IH].
  unfold is_byte. pose proof (Z.mod_pos_bound z 256). lia.
Qed.

(** The bounds of a positive integer in base 256. *)
Lemma size_bounds (z : Z) :
  0 < z ->
  256 ^ (Z.log2 z / 8) <= z < 256 ^ (Z.log2 z / 8 + 1).
Proof.
  intros H.
  pose proof (Z.log2_spec z H) as [Lo Hi].
  pose proof (Z.log2_nonneg z) as N.
  assert (D : 0 <= Z.log2 z / 8) by (apply Z.div_pos; lia).
  pose proof (Z.div_mod (Z.log2 z) 8) as E.
  pose proof (Z.mod_pos_bound (Z.log2 z) 8) as M.
  change 256 with (2 ^ 8). rewrite <- !Z.pow_mul_r by lia.
  split.
  - apply Z.le_trans with (2 ^ Z.log2 z); [| exact Lo].
    apply Z.pow_le_mono_r; lia.
  - apply Z.lt_le_trans with (2 ^ Z.succ (Z.log2 z)); [exact Hi |].
    apply Z.pow_le_mono_r; lia.
Qed.

Lemma size_pos (z : Z) :
  z <> 0 -> Z.of_nat (big.size z) = Z.log2 (Z.abs z) / 8 + 1.
Proof.
  intros H. unfold big.size.
  destruct (Z.eqb_spec (Z.abs z) 0); [lia |].
  assert (0 <= Z.log2 (Z.abs z) / 8)
    by (apply Z.div_pos; [apply Z.log2_nonneg | lia]).
  lia.
Qed.

Lemma Bytes_length (z : Z) : length (big.Bytes z) = big.size z.
Proof.
  unfold big.Bytes. rewrite length_rev.
  apply digits_length.
  destruct (Z.eq_dec z 0) as [-> | H]; [left; reflexivity | right].
  rewrite size_pos by assumption.
  replace (Z.log2 (Z.abs z) / 8 + 1 - 1) with (Z.log2 (Z.abs z) / 8) by lia.
  apply size_bounds. lia.
Qed.

Lemma Bytes_value (z : Z) : leValue (rev (big.Bytes z)) = Z.abs z.
Proof.
  unfold big.Bytes. rewrite rev_involutive.
  apply digits_value.
  destruct (Z.eq_dec z 0) as [-> | H]; [simpl; lia |].
  rewrite size_pos by assumption.
  pose proof (size_bounds (Z.abs z)). lia.
Qed.

Lemma Bytes_abs (z : Z) : big.Bytes (Z.abs z) = big.Bytes z.
Proof.
  unfold big.Bytes, big.size. rewrite !Z.abs_idemp. reflexivity.
Qed.

Lemma SetBytes_app (l : list Z) (x : Z) :
  big.SetBytes (l ++ [x]) = big.SetBytes l * 256 + x.
Proof. unfold big.SetBytes. rewrite fold_left_app. reflexivity. Qed.

Lemma SetBytes_rev (l : list Z) : big.SetBytes (rev l) = leValue l.
Proof.
  induction l as [| x l IH]; [reflexivity |].
  cbn [rev]. rewrite SetBytes_app, IH. cbn [leValue fold_right].
  fold (leValue l). ring.
Qed.

(** An integer of [int64] is what [Int64] gives, and only then. *)
Lemma Int64_exact (z : Z) : is_int64 z -> big.Int64 z = z.
Proof.
  unfold is_int64, big.Int64, int64_of, uint64_of. intros H.
  assert (A : 0 <= Z.abs z <= 2 ^ 63) by lia.
  rewrite (uwrap_id 64) by (change (2 ^ 64) with (2 * 2 ^ 63); lia).
  destruct (Z.ltb_spec z 0) as [Neg | Pos].
  - destruct (Z.eq_dec z (- 2 ^ 63)) as [-> | Ne].
    + reflexivity.
    + rewrite (swrap_id 64 (Z.abs z))
        by (change (64 - 1) with 63; lia).
      rewrite swrap_id by (change (64 - 1) with 63; lia). lia.
  - rewrite swrap_id by (change (64 - 1) with 63; lia). lia.
Qed.

Lemma Int64_range (z : Z) : is_int64 (big.Int64 z).
Proof.
  unfold is_int64, big.Int64, int64_of.
  destruct (z <? 0);
    match goal with
    | |- context [swrap 64 ?x] =>
        pose proof (swrap_range 64 x); change (64 - 1) with 63 in *
    end; lia.
Qed.

(** ** The writer of big integers *)

Lemma Sign_neg (x : Z) : (big.Sign x <? 0) = (x <? 0).
Proof.
  unfold big.Sign.
  destruct (Z.ltb_spec x 0), (Z.ltb_spec (Z.sgn x) 0); try reflexivity; lia.
Qed.

Lemma writeBigInt_small (w : list Z) (x : Z) :
  Z.of_nat (big.size x) <= 255 ->
  Encoder.writeBigInt w x
  = (w ++ ettSmallBig :: Z.of_nat (big.size x) :: signByte x
       :: rev (big.Bytes x), None).
Proof.
  intros H. unfold Encoder.writeBigInt, reverse.
  rewrite Sign_neg, Bytes_abs, length_rev, Bytes_length.
  unfold MaxUint8. destruct (Z.leb_spec (Z.of_nat (big.size x)) 255); [| lia].
  unfold Encoder.andThen, Encoder.Write.
  rewrite (byte_of_small (Z.of_nat _)) by lia.
  fold (signByte x).
  rewrite (byte_of_small (signByte x)) by (unfold signByte; destruct (x <? 0); lia).
  rewrite <- app_assoc. reflexivity.
Qed.

Lemma writeBigInt_large (w : list Z) (x : Z) :
  255 < Z.of_nat (big.size x) <= MaxUint32 ->
  Encoder.writeBigInt w x
  = (w ++ ettLargeBig
       :: byte_of (Z.shiftr (Z.of_nat (big.size x)) 24)
       :: byte_of (Z.shiftr (Z.of_nat (big.size x)) 16)
       :: byte_of (Z.shiftr (Z.of_nat (big.size x)) 8)
       :: byte_of (Z.of_nat (big.size x))
       :: signByte x :: rev (big.Bytes x), None).
Proof.
  intros H. unfold Encoder.writeBigInt, reverse.
  rewrite Sign_neg, Bytes_abs, length_rev, Bytes_length.
  unfold MaxUint8. destruct (Z.leb_spec (Z.of_nat (big.size x)) 255); [lia |].
  destruct (Z.leb_spec (Z.of_nat (big.size x)) MaxUint32); [| lia].
  unfold Encoder.andThen, Encoder.Write.
  fold (signByte x).
  rewrite (byte_of_small (signByte x)) by (unfold signByte; destruct (x <? 0); lia).
  rewrite <- app_assoc. reflexivity.
Qed.

Lemma writeBigInt_too_big (w : list Z) (x : Z) :
  MaxUint32 < Z.of_nat (big.size x) ->
  Encoder.writeBigInt w x
  = (w, Some (Errorf "bad big int size (%d)" (Z.of_nat (big.size x)))).
Proof.
  intros H. unfold Encoder.writeBigInt, reverse.
  rewrite Sign_neg, Bytes_abs, length_rev, Bytes_length.
  unfold MaxUint8, MaxUint32 in *.
  destruct (Z.leb_spec (Z.of_nat (big.size x)) 255); [lia |].
  destruct (Z.leb_spec (Z.of_nat (big.size x)) 4294967295); [lia |].
  reflexivity.
Qed.

(** The magnitude of an [int64] has at most eight bytes. *)
Lemma size_int64 (x : Z) : is_int64 x -> Z.of_nat (big.size x) <= 8.
Proof.
  unfold is_int64. intros H.
  destruct (Z.eq_dec x 0) as [-> | Ne]; [simpl; lia |].
  rewrite size_pos by assumption.
  assert (L : Z.log2 (Z.abs x) <= 63).
  { apply Z.lt_succ_r. apply Z.log2_lt_pow2; [lia |].
    change (2 ^ Z.succ 63) with (2 * 2 ^ 63). lia. }
  assert (Z.log2 (Z.abs x) / 8 <= 7); [| lia].
  apply Z.lt_succ_r. apply Z.div_lt_upper_bound; lia.
Qed.

Lemma write_BigInt_small (arch : Arch) (w : list Z) (x : Z) :
  Z.of_nat (big.size x) <= 255 ->
  write.BigInt arch w x = Encoder.writeBigInt w x.
Proof.
  intros H. rewrite writeBigInt_small by assumption.
  unfold write.BigInt. rewrite write_reverse_rev.
  rewrite Sign_neg, Bytes_abs, length_rev, Bytes_length.
  destruct (Z.leb_spec (Z.of_nat (big.size x)) 255); [| lia].
  unfold write.andThen, write.Write.
  rewrite (byte_of_small (Z.of_nat _)) by lia.
  fold (signByte x).
  rewrite (byte_of_small (signByte x)) by (unfold signByte; destruct (x <? 0); lia).
  rewrite <- app_assoc. reflexivity.
Qed.

Lemma int32_of_wrapped (x : Z) :
  - 2 ^ 31 <= x < 2 ^ 31 -> int32_of (x mod 2 ^ 32) = x.
Proof.
  intros H. unfold int32_of, swrap.
  rewrite Zplus_mod_idemp_l.
  change (32 - 1) with 31. change (2 ^ 32) with (2 * 2 ^ 31).
  rewrite Z.mod_small; lia.
Qed.

(** C4.  For every signed integer [x] (an [int64]) given to the writer: if
    [0 <= x <= 255] the term is the SMALL_INTEGER tag and one byte (two
    bytes); else if [x] fits in signed 32 bits it is the INTEGER tag and the
    four big-endian bytes of [x] (five bytes); otherwise it is emitted as a
    big integer, which for an [int64] is the SMALL_BIG form.  [write.Int64]
    of package [write] writes the same bytes. *)
Theorem writeInt_tag_by_range (w : list Z) (x : Z) (Hx : is_int64 x) :
  (0 <= x <= 255 ->
   Encoder.writeInt w x = (w ++ [ettSmallInteger; x], None)) /\
  (~ 0 <= x <= 255 -> - 2 ^ 31 <= x < 2 ^ 31 ->
   let payload := [byte_of (Z.shiftr x 24); byte_of (Z.shiftr x 16);
                   byte_of (Z.shiftr x 8); byte_of x] in
   Encoder.writeInt w x = (w ++ ettInteger :: payload, None) /\
   int32_of (be_Uint32 payload) = x) /\
  (~ - 2 ^ 31 <= x < 2 ^ 31 ->
   Encoder.writeInt w x = Encoder.writeBigInt w x /\
   exists (tag : Z) (rest : list Z),
     Encoder.writeInt w x = (w ++ tag :: rest, None) /\
     (tag = ettSmallBig \/ tag = ettLargeBig) /\
     tag = ettSmallBig) /\
  (forall arch : Arch, write.Int64 arch w x = Encoder.writeInt w x).
Proof.
  pose proof (size_int64 x Hx) as Sz.
  assert (R : - 2 ^ 31 <= x < 2 ^ 31 -> int64_of (int32_of x) = x).
  { intros R. unfold int32_of. rewrite swrap_id by (change (32 - 1) with 31; lia).
    unfold int64_of. apply swrap_id; [lia |].
    change (64 - 1) with 63. unfold is_int64 in Hx. lia. }
  assert (R' : int64_of (int32_of x) = x -> - 2 ^ 31 <= x < 2 ^ 31).
  { intros E. pose proof (swrap_range 32 x) as B. change (32 - 1) with 31 in B.
    fold (int32_of x) in B.
    unfold int64_of in E.
    rewrite swrap_id in E by (change (64 - 1) with 63; lia). lia. }
  unfold Encoder.writeInt, write.Int64, MaxUint8, MinInt32, MaxInt32.
  change (-2147483648) with (- 2 ^ 31). change 2147483647 with (2 ^ 31 - 1).
  destruct (Z.geb_spec x 0), (Z.leb_spec x 255),
           (Z.geb_spec x (- 2 ^ 31)), (Z.leb_spec x (2 ^ 31 - 1));
    cbn [andb]; (split; [| split; [| split]]);
    try (intros; lia); intros.
  all: try (rewrite byte_of_small by lia; reflexivity).
  all: try (cbv zeta; unfold int32_of;
            rewrite swrap_id by (change (32 - 1) with 31; lia);
            split; [reflexivity | rewrite be_Uint32_bytes;
                                  apply int32_of_wrapped; lia]).
  all: try (split; [reflexivity |];
            rewrite writeBigInt_small by lia;
            eexists; eexists; split; [reflexivity | split; [left |]; reflexivity]).
  all: try (destruct (Z.eqb_spec (int64_of (int32_of x)) x) as [E | E];
            [ try (apply R' in E; lia);
              unfold int32_of; rewrite swrap_id by (change (32 - 1) with 31; lia);
              reflexivity
            | try (exfalso; apply E, R; lia);
              apply write_BigInt_small; lia ]).
Qed.

Lemma writeInt_tag_by_range_witness :
  is_int64 300 /\
  Encoder.writeInt [] 300 = ([ettInteger; 0; 0; 1; 44], None) /\
  Encoder.writeInt [] 4294967296 = Encoder.writeBigInt [] 4294967296.
Proof.
  assert (H1 : is_int64 300) by (unfold is_int64; lia).
  assert (H2 : is_int64 4294967296) by (unfold is_int64; lia).
  split; [exact H1 |]. split.
  - destruct (writeInt_tag_by_range [] 300 H1) as (_ & T & _).
    destruct T as [T _]; [lia | lia |]. exact T.
  - destruct (writeInt_tag_by_range [] 4294967296 H2) as (_ & _ & T & _).
    destruct T as [T _]; [lia |]. exact T.
Defined.

(** ** The reading helpers *)

Lemma make_length (n : Z) : length (Decoder.make n) = Z.to_nat n.
Proof. unfold Decoder.make. apply repeat_length. Qed.

Lemma ReadByte_shrinks (r r' : list Z) (x : Z) (e : option error) :
  Decoder.ReadByte r = (x, e, r') -> (length r' <= length r)%nat.
Proof.
  destruct r; simpl; intros H; injection H as _ _ <-; simpl; lia.
Qed.

Lemma ReadFull_shrinks (r b b' r' : list Z) (e : option error) :
  Decoder.ReadFull r b = (b', e, r') -> (length r' <= length r)%nat.
Proof.
  unfold Decoder.ReadFull. intros H. injection H as _ _ <-.
  rewrite length_skipn. lia.
Qed.

Lemma ruint8_shrinks (r r' : list Z) (x : Z) (e : option error) :
  Decoder.ruint8 r = (x, e, r') -> (length r' <= length r)%nat.
Proof. apply ReadByte_shrinks. Qed.

Lemma ruint16_shrinks (r r' : list Z) (x : Z) (e : option error) :
  Decoder.ruint16 r = (x, e, r') -> (length r' <= length r)%nat.
Proof.
  unfold Decoder.ruint16.
  destruct (Decoder.ReadFull r (Decoder.make 2)) as [[b e0] r0] eqn:E.
  intros H. injection H as _ _ <-. eapply ReadFull_shrinks; eassumption.
Qed.

Lemma ruint32_shrinks (r r' : list Z) (x : Z) (e : option error) :
  Decoder.ruint32 r = (x, e, r') -> (length r' <= length r)%nat.
Proof.
  unfold Decoder.ruint32.
  destruct (Decoder.ReadFull r (Decoder.make 4)) as [[b e0] r0] eqn:E.
  intros H. injection H as _ _ <-. eapply ReadFull_shrinks; eassumption.
Qed.

Lemma buint8_shrinks (r r' b : list Z) (e : option error) :
  Decoder.buint8 r = (b, e, r') -> (length r' <= length r)%nat.
Proof.
  unfold Decoder.buint8.
  destruct (Decoder.ruint8 r) as [[x e0] r0] eqn:E.
  intros H. injection H as _ _ <-. eapply ruint8_shrinks; eassumption.
Qed.

Lemma buint16_shrinks (r r' b : list Z) (e : option error) :
  Decoder.buint16 r = (b, e, r') -> (length r' <= length r)%nat.
Proof.
  unfold Decoder.buint16.
  destruct (Decoder.ruint16 r) as [[x e0] r0] eqn:E.
  intros H. injection H as _ _ <-. eapply ruint16_shrinks; eassumption.
Qed.

Lemma buint32_shrinks (r r' b : list Z) (e : option error) :
  Decoder.buint32 r = (b, e, r') -> (length r' <= length r)%nat.
Proof.
  unfold Decoder.buint32.
  destruct (Decoder.ruint32 r) as [[x e0] r0] eqn:E.
  intros H. injection H as _ _ <-. eapply ruint32_shrinks; eassumption.
Qed.

Lemma readIds_shrinks (n : nat) :
  forall (r r' ids : list Z) (e : option error),
    Decoder.readIds n r = (ids, e, r') -> (length r' <= length r)%nat.
Proof.
  induction n as [| n IH]; intros r r' ids e; cbn [Decoder.readIds].
  - intros H. injection H as _ _ <-. lia.
  - destruct (Decoder.ruint32 r) as [[x [e0 |]] r0] eqn:E.
    + intros H. injection H as _ _ <-. eapply ruint32_shrinks; eassumption.
    + destruct (Decoder.readIds n r0) as [[ids0 e1] r1] eqn:E1.
      intros H. injection H as _ _ <-.
      apply ruint32_shrinks in E. apply IH in E1. lia.
Qed.

Lemma readBigInt_shrinks (arch : Arch) (r r' b : list Z) (sign : Z)
    (t : Term) (e : option error) :
  Decoder.readBigInt arch r b sign = (t, e, r') ->
  (length r' <= length r)%nat.
Proof.
  unfold Decoder.readBigInt.
  destruct (Decoder.ReadFull r b) as [[b0 [e0 |]] r0] eqn:E;
    apply ReadFull_shrinks in E.
  - intros H. injection H as _ _ <-. exact E.
  - repeat match goal with
           | |- context [if ?x then _ else _] => destruct x
           end; intros H; injection H as _ _ <-; exact E.
Qed.

(** ** The fuel of [Decode] *)

Section Fuel.

Variable arch : Arch.
Variable Sscanf_f : list Z -> Z * Z * option error.
Variable c : Context.

Local Abbreviation DecodeBody := (Decoder.DecodeBody arch Sscanf_f c).
Local Abbreviation DecodeFuel := (Decoder.DecodeFuel arch Sscanf_f c).
Local Abbreviation Decode := (Decoder.Decode arch Sscanf_f c).

Lemma approx_refl (A : Type) (a : outcome A) : approx a a.
Proof. right. reflexivity. Qed.

(** The head of a nest of case analyses. *)
Ltac scrutinee t :=
  lazymatch t with
  | match ?x with _ => _ end => scrutinee x
  | _ => t
  end.

Section Mono.

Variables rec1 rec2 : Decoder.Reader -> Decoder.result.
Hypothesis Hrec : forall r, approx (rec1 r) (rec2 r).

Lemma decodeEach_mono (n : nat) :
  forall r, approx (Decoder.decodeEach rec1 n r) (Decoder.decodeEach rec2 n r).
Proof.
  induction n as [| n IH]; intros r; cbn [Decoder.decodeEach].
  - apply approx_refl.
  - destruct (Hrec r) as [E | E]; rewrite E; [left; reflexivity |].
    destruct (rec2 r) as [[[t [e |]] r'] | |]; try apply approx_refl.
    destruct (IH r') as [E' | E']; rewrite E'; [left; reflexivity |].
    apply approx_refl.
Qed.

Lemma finishFun_mono (arity : Z) (unique : list Z) (index free : Z)
    (m oldi oldu pid : Term) (r : Decoder.Reader) :
  approx (Decoder.finishFun rec1 arity unique index free m oldi oldu pid r)
         (Decoder.finishFun rec2 arity unique index free m oldi oldu pid r).
Proof.
  unfold Decoder.finishFun.
  destruct (decodeEach_mono (Z.to_nat free) r) as [E | E]; rewrite E;
    [left; reflexivity | apply approx_refl].
Qed.

Ltac mono_step :=
  match goal with
  | |- approx ?a ?a => apply approx_refl
  | |- approx (rec1 ?r) (rec2 ?r) => apply Hrec
  | |- approx (Decoder.finishFun rec1 _ _ _ _ _ _ _ _ _) _ =>
      apply finishFun_mono
  | |- approx ?lhs _ =>
      let x := scrutinee lhs in
      lazymatch x with
      | rec1 ?r =>
          let E := fresh "E" in
          destruct (Hrec r) as [E | E]; rewrite E;
          [left; reflexivity | destruct (rec2 r) as [[[? [? |]] ?] | |]]
      | Decoder.decodeEach rec1 ?n ?r =>
          let E := fresh "E" in
          destruct (decodeEach_mono n r) as [E | E]; rewrite E;
          [left; reflexivity
          | destruct (Decoder.decodeEach rec2 n r) as [[[? [? |]] ?] | |]]
      | _ => destruct x
      end
  end.

Lemma DecodeBody_mono (r : Decoder.Reader) :
  approx (DecodeBody rec1 r) (DecodeBody rec2 r).
Proof.
  unfold Decoder.DecodeBody.
  destruct (Decoder.ruint8 r) as [[etype [e |]] r1]; [apply approx_refl |].
  repeat mono_step.
Qed.

End Mono.

Lemma DecodeFuel_mono (fuel : nat) :
  forall r, approx (DecodeFuel fuel r) (DecodeFuel (S fuel) r).
Proof.
  induction fuel as [| fuel IH]; intros r.
  - left. reflexivity.
  - cbn [Decoder.DecodeFuel]. apply DecodeBody_mono. exact IH.
Qed.

Lemma DecodeFuel_mono_le (fuel fuel' : nat) (r : Decoder.Reader) :
  (fuel <= fuel')%nat -> approx (DecodeFuel fuel r) (DecodeFuel fuel' r).
Proof.
  induction 1 as [| fuel' _ IH]; [apply approx_refl |].
  destruct IH as [E | E]; [left; exact E |].
  rewrite E. apply DecodeFuel_mono.
Qed.

Lemma shrinks_weaken (A : Type) (r r0 : Decoder.Reader)
    (res : outcome (A * Decoder.Reader)) :
  (length r <= length r0)%nat -> shrinks r res -> shrinks r0 res.
Proof.
  destruct res as [[a r'] | |]; simpl; [lia | trivial | trivial].
Qed.

Section Shrink.

Variable rec : Decoder.Reader -> Decoder.result.
Variable n : nat.
Hypothesis Hrec : forall r, (length r < n)%nat -> shrinks r (rec r).

Lemma decodeEach_shrinks (k : nat) :
  forall r, (length r < n)%nat -> shrinks r (Decoder.decodeEach rec k r).
Proof.
  induction k as [| k IH]; intros r Hr; cbn [Decoder.decodeEach].
  - simpl. lia.
  - pose proof (Hrec r Hr) as F.
    destruct (rec r) as [[[t [e |]] r'] | |]; simpl in F;
      [simpl; lia | | exact I | contradiction].
    assert (Hr' : (length r' < n)%nat) by lia.
    pose proof (IH r' Hr') as F'.
    destruct (Decoder.decodeEach rec k r') as [[[ts e'] r''] | |];
      simpl in F'; [simpl; lia | exact I | contradiction].
Qed.

Lemma finishFun_shrinks (arity : Z) (unique : list Z) (index free : Z)
    (m oldi oldu pid : Term) (r : Decoder.Reader) :
  (length r < n)%nat ->
  shrinks r (Decoder.finishFun rec arity unique index free m oldi oldu pid r).
Proof.
  intros Hr. unfold Decoder.finishFun.
  pose proof (decodeEach_shrinks (Z.to_nat free) r Hr) as F.
  destruct (Decoder.decodeEach rec (Z.to_nat free) r) as [[[ts e] r'] | |];
    simpl in F; [| exact I | contradiction].
  destruct m, oldi, oldu, pid; try exact I. simpl. lia.
Qed.

Ltac shrink_read x lemma :=
  let E := fresh "E" in
  destruct x as [[? [? |]] ?] eqn:E; apply lemma in E.

Ltac shrink_step :=
  cbn [length] in *;
  lazymatch goal with
  | |- shrinks _ Panic => exact I
  | |- shrinks _ (Done (Decoder.readBigInt ?a ?r ?b ?s)) =>
      let E := fresh "E" in
      destruct (Decoder.readBigInt a r b s) as [[? ?] ?] eqn:E;
      apply readBigInt_shrinks in E
  | |- shrinks _ (Done (_, _)) => cbn [shrinks length]; lia
  | |- shrinks _ (rec ?r) =>
      apply (shrinks_weaken _ r); [cbn [length]; lia | apply Hrec; lia]
  | |- shrinks _ (Decoder.finishFun rec _ _ _ _ _ _ _ _ ?r) =>
      apply (shrinks_weaken _ r); [cbn [length]; lia | apply finishFun_shrinks; lia]
  | |- shrinks _ ?res =>
      let x := scrutinee res in
      lazymatch x with
      | rec ?r =>
          let F := fresh "F" in
          assert (F : shrinks r (rec r)) by (apply Hrec; lia);
          destruct (rec r) as [[[? [? |]] ?] | |]; cbn [shrinks] in F;
          [ | | | contradiction]
      | Decoder.decodeEach rec ?k ?r =>
          let F := fresh "F" in
          assert (F : shrinks r (Decoder.decodeEach rec k r))
            by (apply decodeEach_shrinks; lia);
          destruct (Decoder.decodeEach rec k r) as [[[? [? |]] ?] | |];
          cbn [shrinks] in F; [ | | | contradiction]
      | Decoder.ReadFull _ _ => shrink_read x ReadFull_shrinks
      | Decoder.ruint8 _ => shrink_read x ruint8_shrinks
      | Decoder.ruint16 _ => shrink_read x ruint16_shrinks
      | Decoder.ruint32 _ => shrink_read x ruint32_shrinks
      | Decoder.buint8 _ => shrink_read x buint8_shrinks
      | Decoder.buint16 _ => shrink_read x buint16_shrinks
      | Decoder.buint32 _ => shrink_read x buint32_shrinks
      | Decoder.readIds _ _ => shrink_read x readIds_shrinks
      | _ => destruct x
      end
  end.

Lemma DecodeBody_shrinks (r : Decoder.Reader) :
  (length r <= n)%nat -> shrinks r (DecodeBody rec r).
Proof.
  intros Hr. unfold Decoder.DecodeBody.
  destruct r as [| etype r1]; cbn [Decoder.ruint8 Decoder.ReadByte];
    [simpl; lia |].
  repeat shrink_step.
Qed.

End Shrink.

Lemma DecodeFuel_shrinks (fuel : nat) :
  forall r, (length r < fuel)%nat -> shrinks r (DecodeFuel fuel r).
Proof.
  induction fuel as [| fuel IH]; intros r Hr; [lia |].
  cbn [Decoder.DecodeFuel].
  apply DecodeBody_shrinks with (n := fuel); [exact IH | lia].
Qed.

(** [Decode] always ends: with the fuel it is given it never runs out, and
    more fuel gives the same outcome. *)
Lemma Decode_shrinks (r : Decoder.Reader) : shrinks r (Decode r).
Proof. apply DecodeFuel_shrinks. lia. Qed.

Lemma Decode_ends (r : Decoder.Reader) : Decode r <> OutOfFuel.
Proof.
  pose proof (Decode_shrinks r) as F. intros E. rewrite E in F. exact F.
Qed.

Lemma DecodeFuel_enough (fuel : nat) (r : Decoder.Reader) :
  (length r < fuel)%nat -> DecodeFuel fuel r = Decode r.
Proof.
  intros H.
  destruct (DecodeFuel_mono_le (S (length r)) fuel r) as [E | E]; [lia | |].
  - exfalso. exact (Decode_ends r E).
  - symmetry. exact E.
Qed.


Lemma DecodeFuel_mono_le_or_enough (fuel : nat) (r : Decoder.Reader) :
  approx (DecodeFuel fuel r) (Decode r).
Proof.
  destruct (Nat.le_gt_cases fuel (S (length r))) as [L | G].
  - apply DecodeFuel_mono_le. exact L.
  - right. apply DecodeFuel_enough. lia.
Qed.

(** The equation of [Decode]: the recursive calls are calls of [Decode]
    itself on what is left of the stream. *)
Lemma Decode_eq (r : Decoder.Reader) : Decode r = DecodeBody Decode r.
Proof.
  assert (H : forall r', approx (DecodeFuel (length r) r') (Decode r')).
  { intros r'. apply DecodeFuel_mono_le_or_enough. }
  destruct (DecodeBody_mono (DecodeFuel (length r)) Decode H r) as [E | E].
  - exfalso. exact (Decode_ends r E).
  - exact E.
Qed.

End Fuel.

(** ** Booleans *)

Section Booleans.

Variable arch : Arch.
Variable Sscanf_f : list Z -> Z * Z * option error.
Variable c : Context.

Local Abbreviation Decode := (Decoder.Decode arch Sscanf_f c).

Lemma newAtom_true : Decoder.newAtom Decoder.bTrue = TBool true.
Proof. reflexivity. Qed.

Lemma newAtom_false : Decoder.newAtom Decoder.bFalse = TBool false.
Proof. reflexivity. Qed.

Lemma bytes_eqb_eq (a b : list Z) : Decoder.bytes_eqb a b = true <-> a = b.
Proof.
  revert b. induction a as [| x a IH]; intros [| y b]; simpl;
    try (split; [discriminate | discriminate]); [tauto |].
  rewrite andb_true_iff, Z.eqb_eq, IH. split.
  - intros [-> ->]. reflexivity.
  - intros H. injection H as -> ->. split; reflexivity.
Qed.

(** [newAtom] gives an atom only for a text that is neither of the two. *)
Lemma newAtom_atom (b a : list Z) :
  Decoder.newAtom b = TAtom a ->
  a = b /\ b <> Decoder.bTrue /\ b <> Decoder.bFalse.
Proof.
  unfold Decoder.newAtom.
  destruct (Decoder.bytes_eqb b Decoder.bTrue) eqn:T; [discriminate |].
  destruct (Decoder.bytes_eqb b Decoder.bFalse) eqn:F; [discriminate |].
  intros H. injection H as <-. repeat split.
  - intros E. apply bytes_eqb_eq in E. congruence.
  - intros E. apply bytes_eqb_eq in E. congruence.
Qed.

Lemma newAtom_other (b : list Z) :
  b <> Decoder.bTrue -> b <> Decoder.bFalse -> Decoder.newAtom b = TAtom b.
Proof.
  intros T F. unfold Decoder.newAtom.
  destruct (Decoder.bytes_eqb b Decoder.bTrue) eqn:ET;
    [apply bytes_eqb_eq in ET; contradiction |].
  destruct (Decoder.bytes_eqb b Decoder.bFalse) eqn:EF;
    [apply bytes_eqb_eq in EF; contradiction |].
  reflexivity.
Qed.

(** C9.  For every boolean [b], decoding the encoding of [b] yields [b]
    again; [Encode(true)] emits exactly the bytes 83 73 04 74 72 75 65
    (hexadecimal) and decoding them yields the boolean true; under each of
    the four atom tags the texts "true" and "false" decode to the boolean
    variant, and a decoded atom never carries one of these two texts. *)
Theorem bool_round_trip :
  (forall b : bool,
     exists out : list Z,
       Encoder.Encode [] (TBool b) = Done (out, None) /\
       Decode out = Done (TBool b, None, [])) /\
  Encoder.Encode [] (TBool true)
  = Done ([131; 115; 4; 116; 114; 117; 101], None) /\
  Decode [131; 115; 4; 116; 114; 117; 101] = Done (TBool true, None, []) /\
  (forall (tag : Z) (rest : list Z),
     tag = ettSmallAtom \/ tag = ettSmallAtomUTF8 ->
     Decode (tag :: 4 :: Decoder.bTrue ++ rest) = Done (TBool true, None, rest) /\
     Decode (tag :: 5 :: Decoder.bFalse ++ rest)
     = Done (TBool false, None, rest)) /\
  (forall (tag : Z) (rest : list Z),
     tag = ettAtom \/ tag = ettAtomUTF8 ->
     Decode (tag :: 0 :: 4 :: Decoder.bTrue ++ rest)
     = Done (TBool true, None, rest) /\
     Decode (tag :: 0 :: 5 :: Decoder.bFalse ++ rest)
     = Done (TBool false, None, rest)) /\
  (forall b : list Z,
     Decoder.newAtom b <> TAtom Decoder.bTrue /\
     Decoder.newAtom b <> TAtom Decoder.bFalse).
Proof.
  repeat split.
  - intros [|]; eexists; split; reflexivity.
  - destruct H as [-> | ->]; reflexivity.
  - destruct H as [-> | ->]; reflexivity.
  - destruct H as [-> | ->]; reflexivity.
  - destruct H as [-> | ->]; reflexivity.
  - intros E. apply newAtom_atom in E. destruct E as (-> & E & _).
    apply E. reflexivity.
  - intros E. apply newAtom_atom in E. destruct E as (-> & _ & E).
    apply E. reflexivity.
Qed.

End Booleans.

(** ** Decoding, tag by tag *)

Section Decoding.

Variable arch : Arch.
Variable Sscanf_f : list Z -> Z * Z * option error.
Variable c : Context.

Local Abbreviation Decode := (Decoder.Decode arch Sscanf_f c).

Lemma Decode_version (r : Decoder.Reader) :
  Decode (EtVersion :: r) = Decode r.
Proof. rewrite Decode_eq. reflexivity. Qed.

Lemma Decode_empty : Decode [] = Done (TNil, Some EOF, []).
Proof. reflexivity. Qed.

Lemma Decode_nil (r : Decoder.Reader) :
  Decode (ettNil :: r) = Done (TList [], None, r).
Proof. rewrite Decode_eq. reflexivity. Qed.

Lemma Decode_cacheRef (idx : Z) (r : Decoder.Reader) :
  Decode (ettCacheRef :: idx :: r)
  = match nth_error (currentCache c) (Z.to_nat idx) with
    | Some (Some text) => Done (TAtom text, None, r)
    | Some None => Panic
    | None => Panic
    end.
Proof. rewrite Decode_eq. reflexivity. Qed.

Lemma Decode_pid (r : Decoder.Reader) :
  Decode (ettPid :: r)
  = match Decode r with
    | Done (_, Some err, r) => Done (TNil, Some err, r)
    | Done (node, None, r) =>
      match Decoder.ReadFull r (Decoder.make 9) with
      | (_, Some err, r) => Done (TNil, Some err, r)
      | (b, None, r) =>
        match node with
        | TAtom node =>
          Done (TPid {| Pid_Node := node;
                        Pid_Id := be_Uint32 (firstn 4 b);
                        Pid_Serial := be_Uint32 (firstn 4 (skipn 4 b));
                        Pid_Creation := nth 8 b 0 |},
                None, r)
        | _ => Panic
        end
      end
    | Panic => Panic
    | OutOfFuel => OutOfFuel
    end.
Proof. rewrite Decode_eq. reflexivity. Qed.

Lemma Decode_smallTuple (arity : Z) (r : Decoder.Reader) :
  Decode (ettSmallTuple :: arity :: r)
  = match Decoder.decodeEach Decode (Z.to_nat arity) r with
    | Done (ts, err, r) =>
      Done (TTuple (Decoder.filled (Z.to_nat arity) ts), err, r)
    | Panic => Panic
    | OutOfFuel => OutOfFuel
    end.
Proof. rewrite Decode_eq. reflexivity. Qed.

Lemma Decode_list (b3 b2 b1 b0 : Z) (r : Decoder.Reader) :
  Decode (ettList :: b3 :: b2 :: b1 :: b0 :: r)
  = let n := be_Uint32 [b3; b2; b1; b0] in
    match Decoder.decodeEach Decode (Z.to_nat (uint32_of (n + 1))) r with
    | Done (_, Some err, r) => Done (TNil, Some err, r)
    | Done (list, None, r) =>
      match nth_error list (Z.to_nat n) with
      | Some (TList _) => Done (TList (firstn (Z.to_nat n) list), None, r)
      | Some _ => Done (TList list, None, r)
      | None => Panic
      end
    | Panic => Panic
    | OutOfFuel => OutOfFuel
    end.
Proof. rewrite Decode_eq. reflexivity. Qed.

(** *** The atom cache *)

(** C5, as the code has it.  For every ATOM_CACHE_REF-tagged input whose
    index byte designates an occupied slot of the current cache, [Decode]
    returns the cached atom at that index; for an unoccupied slot (a nil
    pointer, or an index beyond the end of the slice) it does not return an
    error: it panics.  An error is returned only when the index byte itself
    is missing. *)
Theorem cacheRef_lookup (idx : Z) (rest : Decoder.Reader) :
  (forall text : list Z,
     nth_error (currentCache c) (Z.to_nat idx) = Some (Some text) ->
     Decode (ettCacheRef :: idx :: rest) = Done (TAtom text, None, rest)) /\
  (nth_error (currentCache c) (Z.to_nat idx) = Some None \/
   nth_error (currentCache c) (Z.to_nat idx) = None ->
   Decode (ettCacheRef :: idx :: rest) = Panic) /\
  Decode [ettCacheRef] = Done (TNil, Some EOF, []).
Proof.
  rewrite Decode_cacheRef. split; [| split].
  - intros text H. rewrite H. reflexivity.
  - intros [H | H]; rewrite H; reflexivity.
  - reflexivity.
Qed.

(** *** Process identifiers *)

(** C6, as the code has it.  For every input in which the node slot of a
    PID-tagged term decodes, without error, to a term that is not an atom,
    [Decode] panics (the type assertion [node.(Atom)] is unchecked) as soon
    as the nine bytes of id, serial and creation are there; when fewer than
    nine bytes follow the node it returns the end-of-stream error of the
    read.  No error is returned for the mismatch itself. *)
Theorem pid_node_not_atom (r r' : Decoder.Reader) (node : Term) :
  Decode r = Done (node, None, r') ->
  (forall a : Atom, node <> TAtom a) ->
  ((9 <= length r')%nat -> Decode (ettPid :: r) = Panic) /\
  ((length r' < 9)%nat ->
   exists e : error,
     (e = EOF \/ e = ErrUnexpectedEOF) /\
     Decode (ettPid :: r) = Done (TNil, Some e, [])).
Proof.
  intros Hnode Hna. rewrite Decode_pid, Hnode.
  unfold Decoder.ReadFull. rewrite make_length.
  change (Z.to_nat 9) with 9%nat.
  split; intros Hlen.
  - rewrite length_firstn.
    replace (Nat.min 9 (length r')) with 9%nat by lia.
    cbn [Nat.ltb Nat.leb].
    destruct node; try reflexivity. exfalso. eapply Hna. reflexivity.
  - rewrite length_firstn.
    replace (Nat.min 9 (length r')) with (length r') by lia.
    destruct (Nat.ltb_spec (length r') 9) as [_ | G]; [| lia].
    rewrite skipn_all2 by lia.
    eexists. split; [| reflexivity].
    destruct (firstn 9 r'); [left | right]; reflexivity.
Qed.

(** *** Lists *)

(** What [Decode] does with the elements of a LIST term that all decode:
    the tail is left out whenever it is of the dynamic type [List], and kept
    otherwise. *)
Lemma Decode_list_elements (b3 b2 b1 b0 : Z) (r r' : Decoder.Reader)
    (ts : list Term) (tail : Term) :
  let n := be_Uint32 [b3; b2; b1; b0] in
  0 <= n < MaxUint32 ->
  length ts = Z.to_nat n ->
  Decoder.decodeEach Decode (S (length ts)) r = Done (ts ++ [tail], None, r') ->
  Decode (ettList :: b3 :: b2 :: b1 :: b0 :: r)
  = Done (TList (match tail with TList _ => ts | _ => ts ++ [tail] end),
          None, r').
Proof.
  intros n Hn Hlen Hdec. rewrite Decode_list. fold n. cbv zeta.
  unfold uint32_of. rewrite uwrap_id by (unfold MaxUint32 in Hn; lia).
  replace (Z.to_nat (n + 1)) with (S (length ts)) by lia.
  rewrite Hdec, <- Hlen.
  rewrite nth_error_app2 by lia. rewrite Nat.sub_diag. cbn [nth_error].
  rewrite firstn_app, Nat.sub_diag, firstn_all, firstn_O, app_nil_r.
  destruct tail; reflexivity.
Qed.

(** The nil marker as tail: the proper list of the elements. *)
Lemma Decode_list_proper (b3 b2 b1 b0 : Z) (r r' : Decoder.Reader)
    (ts : list Term) :
  let n := be_Uint32 [b3; b2; b1; b0] in
  0 <= n < MaxUint32 ->
  length ts = Z.to_nat n ->
  Decoder.decodeEach Decode (S (length ts)) r
  = Done (ts ++ [TList []], None, r') ->
  Decode (ettList :: b3 :: b2 :: b1 :: b0 :: r) = Done (TList ts, None, r').
Proof.
  intros n Hn Hlen Hdec.
  exact (Decode_list_elements b3 b2 b1 b0 r r' ts (TList []) Hn Hlen Hdec).
Qed.

(** A length of [2 ^ 32 - 1]: [n + 1] wraps to 0, nothing is read and the
    index [list[n]] is out of range. *)
Lemma Decode_list_wraps (r : Decoder.Reader) :
  Decode (ettList :: 255 :: 255 :: 255 :: 255 :: r) = Panic.
Proof.
  rewrite Decode_list. cbv zeta.
  change (be_Uint32 [255; 255; 255; 255]) with 4294967295.
  change (uint32_of (4294967295 + 1)) with 0.
  change (Z.to_nat 0) with 0%nat. cbn [Decoder.decodeEach].
  destruct (Z.to_nat 4294967295); reflexivity.
Qed.

(** C1, at the input on which the code goes wrong: the LIST term of length 1
    with the element 1 and, as its tail, the LIST term [2] (bytes
    6C 00000001 61 01 6C 00000001 61 02 6A).  The tail is not the nil marker
    (alone it decodes to the one-element list [2]), yet it is not kept: the
    result is the list [1], as for a proper list. *)
Theorem list_tail_of_type_list_is_dropped :
  Decode [108; 0; 0; 0; 1; 97; 1; 108; 0; 0; 0; 1; 97; 2; 106]
  = Done (TList [TInt 1], None, []) /\
  Decode [108; 0; 0; 0; 1; 97; 2; 106] = Done (TList [TInt 2], None, []) /\
  Decode [108; 0; 0; 0; 1; 97; 1; 106] = Done (TList [TInt 1], None, []) /\
  Decode [108; 0; 0; 0; 1; 97; 1; 97; 2]
  = Done (TList [TInt 1; TInt 2], None, []).
Proof. repeat split; reflexivity. Qed.

(** *** Errors of the children *)

(** A tuple whose elements do not all decode: [Decode] returns the error
    of the child together with the tuple as far as it was filled. *)
Lemma Decode_smallTuple_error (arity : Z) (r r' : Decoder.Reader)
    (ts : list Term) (e : error) :
  Decoder.decodeEach Decode (Z.to_nat arity) r = Done (ts, Some e, r') ->
  Decode (ettSmallTuple :: arity :: r)
  = Done (TTuple (Decoder.filled (Z.to_nat arity) ts), Some e, r').
Proof. intros H. rewrite Decode_smallTuple, H. reflexivity. Qed.

(** C2, at the inputs on which the code goes wrong.  A SMALL_TUPLE of arity
    2 whose second element is missing (bytes 68 02 61 01): the error of the
    child comes back unchanged, but with it the partly filled tuple
    [{1, nil}].  The LIST case, next to it, returns no value with the
    error.  A NEW_FUN term cut after its tag (byte 70) does not return the
    error of its children at all: it panics; cut before its one free
    variable it returns the error with the function term built so far. *)
Theorem child_error_exposes_partial_value :
  Decode [104; 2; 97; 1] = Done (TTuple [TInt 1; TNil], Some EOF, []) /\
  Decode [108; 0; 0; 0; 1; 97; 1] = Done (TNil, Some EOF, []) /\
  Decode [112] = Panic /\
  Decode [112; 0; 0; 0; 0; 0;
          0; 0; 0; 0; 0; 0; 0; 0; 0; 0; 0; 0; 0; 0; 0; 0;
          0; 0; 0; 0; 0; 0; 0; 1;
          115; 1; 97; 97; 0; 97; 0;
          103; 115; 1; 97; 0; 0; 0; 0; 0; 0; 0; 0; 0]
  = Done (TFunction
            {| Arity := 0; Unique := repeat 0 16; Index := 0; Free := 1;
               Module_ := [97]; OldIndex := 0; OldUnique := 0;
               Pid_ := {| Pid_Node := [97]; Pid_Id := 0; Pid_Serial := 0;
                          Pid_Creation := 0 |};
               FreeVars := [TNil] |},
          Some EOF, []).
Proof. repeat split; reflexivity. Qed.

(** *** Atoms and process identifiers, there and back *)

Lemma ReadFull_exact (p rest b : list Z) :
  length b = length p ->
  Decoder.ReadFull (p ++ rest) b = (p, None, rest).
Proof.
  intros H. unfold Decoder.ReadFull. rewrite H.
  rewrite firstn_app, Nat.sub_diag, firstn_O, app_nil_r, firstn_all.
  rewrite Nat.ltb_irrefl.
  rewrite skipn_all2 by lia. rewrite app_nil_r.
  rewrite skipn_app, Nat.sub_diag, skipn_all. reflexivity.
Qed.

Lemma ReadFull_make (p rest : list Z) :
  Decoder.ReadFull (p ++ rest) (Decoder.make (Z.of_nat (length p)))
  = (p, None, rest).
Proof. apply ReadFull_exact. rewrite make_length. lia. Qed.

Lemma ReadFull_all (p : list Z) (n : Z) :
  Z.to_nat n = length p ->
  Decoder.ReadFull p (Decoder.make n) = (p, None, []).
Proof.
  intros H. rewrite <- (app_nil_r p) at 1.
  apply ReadFull_exact. rewrite make_length. exact H.
Qed.

Lemma Decode_smallAtom (tag size : Z) (r : Decoder.Reader) :
  tag = ettSmallAtom \/ tag = ettSmallAtomUTF8 ->
  Decode (tag :: size :: r)
  = let '(b, err, r) := Decoder.ReadFull r (Decoder.make size) in
    Done (Decoder.newAtom b, err, r).
Proof. intros [-> | ->]; rewrite Decode_eq; reflexivity. Qed.

Lemma Decode_atom (tag hi lo : Z) (r : Decoder.Reader) :
  tag = ettAtom \/ tag = ettAtomUTF8 ->
  Decode (tag :: hi :: lo :: r)
  = let '(b, err, r) :=
      Decoder.ReadFull r (Decoder.make (be_Uint16 [hi; lo])) in
    Done (Decoder.newAtom b, err, r).
Proof. intros [-> | ->]; rewrite Decode_eq; reflexivity. Qed.

(** What [writeAtom] writes decodes to [newAtom] of the text. *)
Lemma Decode_writeAtom (w : list Z) (atom : Atom) :
  Z.of_nat (length atom) <= 65535 ->
  exists enc : list Z,
    Encoder.writeAtom w atom = (w ++ enc, None) /\
    forall rest, Decode (enc ++ rest) = Done (Decoder.newAtom atom, None, rest).
Proof.
  intros H.
  destruct (Z.le_gt_cases (Z.of_nat (length atom)) 255) as [S | L].
  - exists (ettSmallAtom :: Z.of_nat (length atom) :: atom).
    split; [apply writeAtom_small; assumption |].
    intros rest. cbn [app].
    rewrite Decode_smallAtom by (left; reflexivity).
    rewrite ReadFull_make. reflexivity.
  - exists (ettAtom :: Z.of_nat (length atom) / 256
              :: Z.of_nat (length atom) mod 256 :: atom).
    split; [apply writeAtom_large; lia |].
    intros rest. cbn [app].
    rewrite Decode_atom by (left; reflexivity).
    assert (E : be_Uint16 [Z.of_nat (length atom) / 256;
                           Z.of_nat (length atom) mod 256]
                = Z.of_nat (length atom)).
    { unfold be_Uint16. cbn [nth].
      pose proof (Z.div_mod (Z.of_nat (length atom)) 256). lia. }
    rewrite E, ReadFull_make. reflexivity.
Qed.

Lemma be_Uint32_low16 (x : Z) :
  be_Uint32 [0; 0; byte_of (Z.shiftr x 8); byte_of x] = x mod 2 ^ 16.
Proof.
  rewrite <- be_Uint16_bytes. unfold be_Uint32, be_Uint16. cbn [nth]. ring.
Qed.

(** C10, as the code has it.  For every Pid [p] whose node is an atom that
    the writer accepts (at most 65535 bytes) and that decodes to an atom
    (neither "true" nor "false"), and whose serial is a [uint32]: decoding
    what [writePid] writes yields a Pid with the node, serial and creation
    of [p] and with the id [p.Id mod 2 ^ 16]; in particular such a Pid with
    an id of at most 65535 comes back as it was. *)
Theorem pid_round_trip (p : Pid) :
  Z.of_nat (length (Pid_Node p)) <= 65535 ->
  Pid_Node p <> Decoder.bTrue ->
  Pid_Node p <> Decoder.bFalse ->
  is_uint32 (Pid_Serial p) ->
  exists out : list Z,
    Encoder.writePid [] p = (out, None) /\
    Decode out
    = Done (TPid {| Pid_Node := Pid_Node p;
                    Pid_Id := Pid_Id p mod 2 ^ 16;
                    Pid_Serial := Pid_Serial p;
                    Pid_Creation := Pid_Creation p |}, None, []) /\
    (0 <= Pid_Id p <= 65535 -> Decode out = Done (TPid p, None, [])).
Proof.
  intros Hlen Ht Hf Hs.
  destruct (Decode_writeAtom [ettPid] (Pid_Node p) Hlen) as (enc & Hw & Hd).
  unfold Encoder.writePid. cbn [Encoder.Write app]. rewrite Hw.
  eexists. split; [reflexivity |].
  assert (D : Decode
                (([ettPid] ++ enc) ++
                 [0; 0; byte_of (Z.shiftr (Pid_Id p) 8); byte_of (Pid_Id p);
                  byte_of (Z.shiftr (Pid_Serial p) 24);
                  byte_of (Z.shiftr (Pid_Serial p) 16);
                  byte_of (Z.shiftr (Pid_Serial p) 8);
                  byte_of (Pid_Serial p); Pid_Creation p])
              = Done (TPid {| Pid_Node := Pid_Node p;
                              Pid_Id := Pid_Id p mod 2 ^ 16;
                              Pid_Serial := Pid_Serial p;
                              Pid_Creation := Pid_Creation p |}, None, [])).
  { rewrite <- app_assoc. cbn [app]. rewrite Decode_pid, Hd.
    rewrite newAtom_other by assumption.
    rewrite ReadFull_all by reflexivity.
    cbn [firstn skipn nth].
    rewrite be_Uint32_low16, be_Uint32_bytes.
    rewrite (Z.mod_small (Pid_Serial p))
      by (unfold is_uint32, MaxUint32 in Hs;
          change (2 ^ 32) with 4294967296; lia).
    reflexivity. }
  split; [exact D |].
  intros Hid. rewrite D.
  rewrite (Z.mod_small (Pid_Id p)) by (change (2 ^ 16) with 65536; lia).
  destruct p; reflexivity.
Qed.

(** *** Big integers, there and back *)

(** The narrowing of [readBigInt] is the one of the specification. *)
Lemma narrowing_exact (v : Z) :
  (let v64 := big.Int64 v in
   let x := int_of arch v64 in
   if v =? int64_of x then TInt x
   else if v =? v64 then TInt64 v64
   else TBigInt v)
  = narrowest arch v.
Proof.
  cbv zeta. unfold narrowest, int_of, int64_of.
  pose proof (Int64_range v) as R64. unfold is_int64 in R64.
  assert (W : 0 < intSize arch <= 64) by (destruct arch; simpl; lia).
  pose proof (swrap_range (intSize arch) (big.Int64 v) (proj1 W)) as Rx.
  assert (N : 2 ^ (intSize arch - 1) <= 2 ^ 63)
    by (apply Z.pow_le_mono_r; lia).
  set (x := swrap (intSize arch) (big.Int64 v)) in *.
  assert (X64 : swrap 64 x = x)
    by (apply swrap_id; [lia | change (64 - 1) with 63; lia]).
  rewrite X64.
  destruct (Z.leb_spec (- 2 ^ (intSize arch - 1)) v) as [Lo | Lo];
    destruct (Z.ltb_spec v (2 ^ (intSize arch - 1))) as [Hi | Hi];
    cbn [andb].
  1: { assert (E : big.Int64 v = v)
         by (apply Int64_exact; unfold is_int64; lia).
       assert (Ex : x = v)
         by (unfold x; rewrite E; apply swrap_id; lia).
       rewrite Ex, Z.eqb_refl. reflexivity. }
  all: destruct (Z.leb_spec (- 2 ^ 63) v) as [Lo' | Lo'];
    destruct (Z.ltb_spec v (2 ^ 63)) as [Hi' | Hi']; cbn [andb];
    try (assert (E : big.Int64 v = v)
           by (apply Int64_exact; unfold is_int64; lia);
         destruct (Z.eqb_spec v x) as [Ex | _]; [lia |];
         rewrite E, Z.eqb_refl; reflexivity);
    try (destruct (Z.eqb_spec v x) as [Ex | _]; [lia |];
         destruct (Z.eqb_spec v (big.Int64 v)) as [E | _]; [lia |];
         reflexivity).
Qed.

Lemma readBigInt_exact (payload rest : list Z) (z : Z) :
  leValue payload = Z.abs z ->
  Decoder.readBigInt arch (payload ++ rest)
    (Decoder.make (Z.of_nat (length payload))) (signByte z)
  = (narrowest arch z, None, rest).
Proof.
  intros H. unfold Decoder.readBigInt. rewrite ReadFull_make.
  cbv zeta. rewrite swapLoop_rev, SetBytes_rev, H.
  assert (E : (if negb (signByte z =? 0) then - Z.abs z else Z.abs z) = z).
  { unfold signByte. destruct (Z.ltb_spec z 0); simpl; lia. }
  rewrite E.
  pose proof (narrowing_exact z) as N. cbv zeta in N. rewrite <- N.
  destruct (z =? int64_of (int_of arch (big.Int64 z)));
    [reflexivity |].
  destruct (z =? big.Int64 z); reflexivity.
Qed.

Lemma Decode_smallBig (n sign : Z) (r : Decoder.Reader) :
  Decode (ettSmallBig :: n :: sign :: r)
  = Done (Decoder.readBigInt arch r (Decoder.make n) sign).
Proof. rewrite Decode_eq. reflexivity. Qed.

Lemma Decode_largeBig (b3 b2 b1 b0 sign : Z) (r : Decoder.Reader) :
  Decode (ettLargeBig :: b3 :: b2 :: b1 :: b0 :: sign :: r)
  = Done (Decoder.readBigInt arch r
            (Decoder.make (be_Uint32 [b3; b2; b1; b0])) sign).
Proof. rewrite Decode_eq. reflexivity. Qed.

Lemma integerOf_narrowest (z : Z) : integerOf (narrowest arch z) = Some z.
Proof.
  unfold narrowest.
  repeat match goal with
         | |- context [if ?b then _ else _] => destruct b
         end; reflexivity.
Qed.

(** C3, as the code has it.  For every big integer [z] whose magnitude has
    at most [2 ^ 32 - 1] bytes, the writer emits a tag and the length, the
    sign byte (0 non-negative, 1 negative) and the magnitude of [z], least
    significant byte first and without a superfluous byte; decoding these
    bytes yields [z] again, as a native [int] when [z] fits it, else as an
    [int64] when [z] fits that, else as a big integer.  For a longer
    magnitude the writer returns an error and writes nothing. *)
Theorem bigint_round_trip (z : Z) :
  (Z.of_nat (big.size z) <= MaxUint32 ->
   exists header payload : list Z,
     Encoder.writeBigInt [] z = (header ++ signByte z :: payload, None) /\
     (header = [ettSmallBig; Z.of_nat (length payload)] \/
      exists b3 b2 b1 b0 : Z,
        header = [ettLargeBig; b3; b2; b1; b0] /\
        be_Uint32 [b3; b2; b1; b0] = Z.of_nat (length payload)) /\
     leValue payload = Z.abs z /\
     Forall is_byte payload /\
     (z <> 0 -> 256 ^ (Z.of_nat (length payload) - 1) <= Z.abs z) /\
     Decode (header ++ signByte z :: payload)
     = Done (narrowest arch z, None, []) /\
     integerOf (narrowest arch z) = Some z) /\
  (MaxUint32 < Z.of_nat (big.size z) ->
   exists e : error, Encoder.writeBigInt [] z = ([], Some e)).
Proof.
  split.
  - intros Hsize.
    assert (Hlen : length (rev (big.Bytes z)) = big.size z)
      by (rewrite length_rev; apply Bytes_length).
    assert (Hval : leValue (rev (big.Bytes z)) = Z.abs z)
      by apply Bytes_value.
    assert (Hbytes : Forall is_byte (rev (big.Bytes z)))
      by (unfold big.Bytes; rewrite rev_involutive; apply digits_bytes).
    assert (Hmin : z <> 0 ->
                   256 ^ (Z.of_nat (length (rev (big.Bytes z))) - 1)
                   <= Z.abs z).
    { intros Hz. rewrite Hlen, size_pos by assumption.
      replace (Z.log2 (Z.abs z) / 8 + 1 - 1) with (Z.log2 (Z.abs z) / 8)
        by lia.
      apply size_bounds. lia. }
    destruct (Z.le_gt_cases (Z.of_nat (big.size z)) 255) as [Small | Large].
    + exists [ettSmallBig; Z.of_nat (length (rev (big.Bytes z)))].
      exists (rev (big.Bytes z)).
      split; [rewrite writeBigInt_small, Hlen by assumption; reflexivity |].
      split; [left; reflexivity |].
      repeat (split; [assumption |]).
      split; [| apply integerOf_narrowest].
      cbn [app]. rewrite Decode_smallBig.
      rewrite <- (app_nil_r (rev (big.Bytes z))) at 1.
      rewrite readBigInt_exact by assumption. reflexivity.
    + exists [ettLargeBig;
              byte_of (Z.shiftr (Z.of_nat (big.size z)) 24);
              byte_of (Z.shiftr (Z.of_nat (big.size z)) 16);
              byte_of (Z.shiftr (Z.of_nat (big.size z)) 8);
              byte_of (Z.of_nat (big.size z))].
      exists (rev (big.Bytes z)).
      assert (E : be_Uint32
                    [byte_of (Z.shiftr (Z.of_nat (big.size z)) 24);
                     byte_of (Z.shiftr (Z.of_nat (big.size z)) 16);
                     byte_of (Z.shiftr (Z.of_nat (big.size z)) 8);
                     byte_of (Z.of_nat (big.size z))]
                  = Z.of_nat (length (rev (big.Bytes z)))).
      { rewrite be_Uint32_bytes, Hlen. apply Z.mod_small.
        unfold MaxUint32 in Hsize. change (2 ^ 32) with 4294967296. lia. }
      split; [rewrite writeBigInt_large by lia; reflexivity |].
      split; [right; do 4 eexists; split; [reflexivity | exact E] |].
      repeat (split; [assumption |]).
      split; [| apply integerOf_narrowest].
      cbn [app]. rewrite Decode_largeBig, E.
      rewrite <- (app_nil_r (rev (big.Bytes z))) at 1.
      rewrite readBigInt_exact by assumption. reflexivity.
  - intros Hsize. eexists. apply writeBigInt_too_big. exact Hsize.
Qed.

End Decoding.

(** ** The typed decode bridge *)

Lemma trunc_swrap (b x : Z) :
  0 < b <= 64 ->
  Z.shiftr (swrap 64 (Z.shiftl x (64 - b))) (64 - b) = swrap b x.
Proof.
  intros Hb. rewrite Z.shiftl_mul_pow2, Z.shiftr_div_pow2 by lia.
  unfold swrap.
  assert (P : 0 < 2 ^ (64 - b)) by (apply Z.pow_pos_nonneg; lia).
  assert (E63 : 2 ^ (64 - 1) = 2 ^ (64 - b) * 2 ^ (b - 1)).
  { rewrite <- Z.pow_add_r by lia. f_equal. lia. }
  assert (E64 : 2 ^ 64 = 2 ^ (64 - b) * 2 ^ b).
  { rewrite <- Z.pow_add_r by lia. f_equal. lia. }
  replace (x * 2 ^ (64 - b) + 2 ^ (64 - 1))
    with (2 ^ (64 - b) * (x + 2 ^ (b - 1))) by (rewrite E63; ring).
  rewrite E64, Z.mul_mod_distr_l by (try apply Z.pow_nonzero; lia).
  rewrite E63.
  replace (2 ^ (64 - b) * ((x + 2 ^ (b - 1)) mod 2 ^ b)
           - 2 ^ (64 - b) * 2 ^ (b - 1))
    with (((x + 2 ^ (b - 1)) mod 2 ^ b - 2 ^ (b - 1)) * 2 ^ (64 - b))
    by ring.
  apply Z.div_mul. lia.
Qed.

Lemma trunc_uwrap (b x : Z) :
  0 < b <= 64 ->
  Z.shiftr (uwrap 64 (Z.shiftl x (64 - b))) (64 - b) = uwrap b x.
Proof.
  intros Hb. rewrite Z.shiftl_mul_pow2, Z.shiftr_div_pow2 by lia.
  unfold uwrap.
  assert (P : 0 < 2 ^ (64 - b)) by (apply Z.pow_pos_nonneg; lia).
  assert (E64 : 2 ^ 64 = 2 ^ (64 - b) * 2 ^ b).
  { rewrite <- Z.pow_add_r by lia. f_equal. lia. }
  rewrite E64, (Z.mul_comm x), Z.mul_mod_distr_l
    by (try apply Z.pow_nonzero; lia).
  rewrite Z.mul_comm. apply Z.div_mul. lia.
Qed.

Lemma intBits_range (arch : Arch) (k : Typed.IntKind) :
  0 < Typed.intBits arch k <= 64.
Proof. destruct arch, k; simpl; lia. Qed.

Lemma uintBits_range (arch : Arch) (k : Typed.UintKind) :
  0 < Typed.uintBits arch k <= 64.
Proof. destruct arch, k; simpl; lia. Qed.

(** [OverflowInt] says whether the value is outside the range of the
    kind. *)
Lemma OverflowInt_spec (arch : Arch) (k : Typed.IntKind) (x : Z) :
  Typed.OverflowInt arch k x = true <->
  ~ - 2 ^ (Typed.intBits arch k - 1) <= x < 2 ^ (Typed.intBits arch k - 1).
Proof.
  unfold Typed.OverflowInt, int64_of. cbv zeta.
  pose proof (intBits_range arch k) as Hb.
  rewrite trunc_swrap by assumption.
  pose proof (swrap_range (Typed.intBits arch k) x (proj1 Hb)) as R.
  rewrite negb_true_iff, Z.eqb_neq. split.
  - intros Ne In. apply Ne. symmetry. apply swrap_id; lia.
  - intros Out E. apply Out. rewrite E. exact R.
Qed.

Lemma OverflowUint_spec (arch : Arch) (k : Typed.UintKind) (x : Z) :
  0 <= x ->
  (Typed.OverflowUint arch k x = true <-> 2 ^ Typed.uintBits arch k <= x).
Proof.
  intros Hx. unfold Typed.OverflowUint, uint64_of. cbv zeta.
  pose proof (uintBits_range arch k) as Hb.
  rewrite trunc_uwrap by assumption.
  assert (P : 0 < 2 ^ Typed.uintBits arch k)
    by (apply Z.pow_pos_nonneg; lia).
  pose proof (Z.mod_pos_bound x (2 ^ Typed.uintBits arch k) P) as R.
  rewrite negb_true_iff, Z.eqb_neq. unfold uwrap. split.
  - intros Ne. destruct (Z.lt_ge_cases x (2 ^ Typed.uintBits arch k)) as [L | G];
      [| exact G].
    exfalso. apply Ne. symmetry. apply Z.mod_small. lia.
  - intros G E. rewrite E in G. lia.
Qed.

Section TypedBridge.

Variable arch : Arch.
Variable parseBool : list Z -> bool * Z * option Typed.derror.
Variable parseInt64 : list Z -> Z * Z * option Typed.derror.
Variable parseUint64 : list Z -> Z * Z * option Typed.derror.
Variable parseFloat64 : list Z -> Z * Z * option Typed.derror.
Variable parseAtom : list Z -> list Z * Z * option Typed.derror.
Variable parseString : list Z -> list Z * Z * option Typed.derror.
Variable parseBigInt : list Z -> Z * Z * option Typed.derror.
Variable parseBinary : list Z -> list Z * Z * option Typed.derror.
Variable overflowFloat32 : Z -> bool.
Variable toFloat32 : Z -> Z.

Local Abbreviation decode :=
  (Typed.decode arch parseBool parseInt64 parseUint64 parseFloat64 parseAtom
     parseString parseBigInt parseBinary overflowFloat32 toFloat32).
Local Abbreviation Decode :=
  (Typed.Decode arch parseBool parseInt64 parseUint64 parseFloat64 parseAtom
     parseString parseBigInt parseBinary overflowFloat32 toFloat32).

(** An integer that the target holds is stored. *)
Lemma Decode_integer_fits (k : Typed.IntKind) (old : Z) (b : list Z)
    (result size : Z) :
  parseInt64 b = (result, size, None) ->
  - 2 ^ (Typed.intBits arch k - 1) <= result
    < 2 ^ (Typed.intBits arch k - 1) ->
  Decode (Typed.erlFormatVersion :: b) (Typed.VInt k old)
  = Done (uint_of arch (size + 1), None, Typed.VInt k result).
Proof.
  intros Hp Hin. unfold Typed.Decode. cbn [Typed.decode Z.eqb negb].
  change (Typed.erlFormatVersion =? Typed.erlFormatVersion) with true.
  cbn [negb]. rewrite Hp.
  destruct (Typed.OverflowInt arch k result) eqn:O; [| reflexivity].
  apply OverflowInt_spec in O. contradiction.
Qed.

(** C7.  For every framed input (first byte 0x83) whose decoded integer
    cannot be represented by the integer target, signed or unsigned, of the
    typed decode bridge, [Decode] fails with an [OverflowError] that carries
    the decoded value and the type of the target; the target keeps its
    value. *)
Theorem Decode_integer_overflow (b : list Z) (result size old : Z) :
  (forall k : Typed.IntKind,
     parseInt64 b = (result, size, None) ->
     ~ - 2 ^ (Typed.intBits arch k - 1) <= result
       < 2 ^ (Typed.intBits arch k - 1) ->
     Decode (Typed.erlFormatVersion :: b) (Typed.VInt k old)
     = Done (uint_of arch (size + 1),
             Some (Typed.OverflowError (Typed.OfInt64 result)
                                       (Typed.TyInt k)),
             Typed.VInt k old)) /\
  (forall k : Typed.UintKind,
     parseUint64 b = (result, size, None) ->
     2 ^ Typed.uintBits arch k <= result ->
     Decode (Typed.erlFormatVersion :: b) (Typed.VUint k old)
     = Done (uint_of arch (size + 1),
             Some (Typed.OverflowError (Typed.OfUint64 result)
                                       (Typed.TyUint k)),
             Typed.VUint k old)).
Proof.
  split; intros k Hp Hout; unfold Typed.Decode;
    change (Typed.erlFormatVersion =? Typed.erlFormatVersion) with true;
    cbn [negb Typed.decode]; rewrite Hp.
  - apply OverflowInt_spec in Hout. rewrite Hout. reflexivity.
  - assert (P : 0 < 2 ^ Typed.uintBits arch k).
    { pose proof (uintBits_range arch k). apply Z.pow_pos_nonneg; lia. }
    apply OverflowUint_spec in Hout; [| lia]. rewrite Hout. reflexivity.
Qed.

End TypedBridge.

(** * The theorems at concrete inputs *)

(** ** Big integers *)

Lemma size_pow2 (k : Z) :
  0 <= k -> Z.of_nat (big.size (2 ^ k)) = k / 8 + 1.
Proof.
  intros H.
  assert (P : 0 < 2 ^ k) by (apply Z.pow_pos_nonneg; lia).
  rewrite size_pos by lia.
  rewrite Z.abs_eq by lia. rewrite Z.log2_pow2 by assumption. reflexivity.
Qed.

Lemma size_hugeMagnitude : Z.of_nat (big.size hugeMagnitude) = 4294967296.
Proof.
  unfold hugeMagnitude. rewrite size_pow2 by lia.
  rewrite Z.mul_comm, Z.div_mul by lia. reflexivity.
Qed.

(** The magnitude of [hugeMagnitude] has [2 ^ 32] bytes, one more than the
    length field of LARGE_BIG can hold: the writer refuses it, so that there
    is no encoding to decode. *)
Lemma bigint_too_long_is_rejected :
  Encoder.writeBigInt [] hugeMagnitude
  = ([], Some (Errorf "bad big int size (%d)" 4294967296)).
Proof.
  rewrite writeBigInt_too_big; rewrite size_hugeMagnitude; reflexivity.
Qed.

Lemma bigint_round_trip_witness :
  Z.of_nat (big.size (-300)) <= MaxUint32 /\
  exists header payload : list Z,
    Encoder.writeBigInt [] (-300) = (header ++ 1 :: payload, None) /\
    leValue payload = 300 /\
    Decoder.Decode Arch64 scanNothing newContext (header ++ 1 :: payload)
    = Done (TInt (-300), None, []).
Proof.
  assert (H : Z.of_nat (big.size (-300)) <= MaxUint32)
    by (unfold MaxUint32; simpl; lia).
  split; [exact H |].
  destruct (bigint_round_trip Arch64 scanNothing newContext (-300))
    as [T _].
  destruct (T H) as (header & payload & Hw & _ & Hv & _ & _ & Hd & _).
  exists header, payload.
  split; [exact Hw | split; [exact Hv | exact Hd]].
Defined.

(** ** The atom cache *)

(** Slot 1 of [cachedOk] holds a nil pointer and a new context has no slot
    at all: a reference to either is no returned error, the call panics. *)
Lemma cacheRef_unoccupied_slot_panics :
  nth_error (currentCache cachedOk) 1 = Some None /\
  Decoder.Decode Arch64 scanNothing cachedOk [82; 1] = Panic /\
  nth_error (currentCache newContext) 0 = None /\
  Decoder.Decode Arch64 scanNothing newContext [82; 0] = Panic.
Proof. repeat split; reflexivity. Qed.

Lemma cacheRef_lookup_witness :
  Decoder.Decode Arch64 scanNothing cachedOk [82; 0; 106]
  = Done (TAtom [111; 107], None, [106]) /\
  Decoder.Decode Arch64 scanNothing cachedOk [82; 1; 106] = Panic /\
  Decoder.Decode Arch64 scanNothing cachedOk [82; 2; 106] = Panic.
Proof.
  split; [| split].
  - apply (proj1 (cacheRef_lookup Arch64 scanNothing cachedOk 0 [106])).
    reflexivity.
  - apply (proj1 (proj2 (cacheRef_lookup Arch64 scanNothing cachedOk 1 [106]))).
    left. reflexivity.
  - apply (proj1 (proj2 (cacheRef_lookup Arch64 scanNothing cachedOk 2 [106]))).
    right. reflexivity.
Defined.

(** ** Process identifiers *)

(** A PID term whose node slot holds the integer 1, and one whose node slot
    holds the atom "true" (which decodes to a boolean): no error is
    returned, the call panics. *)
Lemma pid_with_other_node_panics :
  Decoder.Decode Arch64 scanNothing newContext
    [97; 1; 0; 0; 0; 38; 0; 0; 0; 0; 3]
  = Done (TInt 1, None, [0; 0; 0; 38; 0; 0; 0; 0; 3]) /\
  Decoder.Decode Arch64 scanNothing newContext
    [103; 97; 1; 0; 0; 0; 38; 0; 0; 0; 0; 3]
  = Panic /\
  Decoder.Decode Arch64 scanNothing newContext
    [103; 115; 4; 116; 114; 117; 101; 0; 0; 0; 38; 0; 0; 0; 0; 3]
  = Panic.
Proof. repeat split; reflexivity. Qed.

Lemma pid_node_not_atom_witness :
  Decoder.Decode Arch64 scanNothing newContext
    [103; 97; 1; 0; 0; 0; 38; 0; 0; 0; 0; 3]
  = Panic /\
  exists e : error,
    (e = EOF \/ e = ErrUnexpectedEOF) /\
    Decoder.Decode Arch64 scanNothing newContext [103; 97; 1; 0; 0]
    = Done (TNil, Some e, []).
Proof.
  split.
  - apply (proj1 (pid_node_not_atom Arch64 scanNothing newContext
                    [97; 1; 0; 0; 0; 38; 0; 0; 0; 0; 3]
                    [0; 0; 0; 38; 0; 0; 0; 0; 3] (TInt 1)
                    eq_refl
                    (fun a H => eq_ind (TInt 1)
                       (fun t => match t with TInt _ => True | _ => False end)
                       I (TAtom a) H))).
    simpl. lia.
  - apply (proj2 (pid_node_not_atom Arch64 scanNothing newContext
                    [97; 1; 0; 0] [0; 0] (TInt 1)
                    eq_refl
                    (fun a H => eq_ind (TInt 1)
                       (fun t => match t with TInt _ => True | _ => False end)
                       I (TAtom a) H))).
    simpl. lia.
Defined.

(** The process identifier of a node called "true": the writer accepts it,
    the reader panics on what was written.  A node of 65536 bytes: the
    writer itself fails, after the tag. *)
Lemma pid_of_node_true_does_not_round_trip :
  Encoder.writePid []
    {| Pid_Node := Decoder.bTrue; Pid_Id := 38; Pid_Serial := 0;
       Pid_Creation := 3 |}
  = ([103; 115; 4; 116; 114; 117; 101; 0; 0; 0; 38; 0; 0; 0; 0; 3], None) /\
  Decoder.Decode Arch64 scanNothing newContext
    [103; 115; 4; 116; 114; 117; 101; 0; 0; 0; 38; 0; 0; 0; 0; 3]
  = Panic /\
  Encoder.writePid []
    {| Pid_Node := repeat 97 (Z.to_nat 65536); Pid_Id := 38; Pid_Serial := 0;
       Pid_Creation := 3 |}
  = ([103], Some (Errorf "atom is too big (%d bytes)" 65536)).
Proof. repeat split; vm_compute; reflexivity. Qed.

Lemma pid_round_trip_witness :
  exists out : list Z,
    Encoder.writePid []
      {| Pid_Node := [111; 107]; Pid_Id := 70000; Pid_Serial := 5;
         Pid_Creation := 3 |}
    = (out, None) /\
    Decoder.Decode Arch64 scanNothing newContext out
    = Done (TPid {| Pid_Node := [111; 107]; Pid_Id := 4464;
                    Pid_Serial := 5; Pid_Creation := 3 |}, None, []).
Proof.
  destruct (pid_round_trip Arch64 scanNothing newContext
              {| Pid_Node := [111; 107]; Pid_Id := 70000; Pid_Serial := 5;
                 Pid_Creation := 3 |})
    as (out & Hw & Hd & _).
  - simpl. lia.
  - discriminate.
  - discriminate.
  - unfold is_uint32, MaxUint32. simpl. lia.
  - exists out. split; [exact Hw | exact Hd].
Defined.

(** ** The typed decode bridge *)

Lemma Decode_integer_overflow_witness :
  specParseInt64 [98; 128; 0; 0; 0] = (-2147483648, 5, None) /\
  Typed.Decode Arch64 (parseNothing false) specParseInt64 specParseInt64
    (parseNothing 0) (parseNothing []) (parseNothing []) (parseNothing 0)
    (parseNothing []) (fun _ => false) (fun bits => bits)
    [131; 98; 128; 0; 0; 0] (Typed.VInt Typed.Int8 0)
  = Done (6,
          Some (Typed.OverflowError (Typed.OfInt64 (-2147483648))
                                    (Typed.TyInt Typed.Int8)),
          Typed.VInt Typed.Int8 0) /\
  Typed.Decode Arch64 (parseNothing false) specParseInt64 specParseInt64
    (parseNothing 0) (parseNothing []) (parseNothing []) (parseNothing 0)
    (parseNothing []) (fun _ => false) (fun bits => bits)
    [131; 98; 0; 0; 1; 44] (Typed.VUint Typed.Uint8 7)
  = Done (6,
          Some (Typed.OverflowError (Typed.OfUint64 300)
                                    (Typed.TyUint Typed.Uint8)),
          Typed.VUint Typed.Uint8 7).
Proof.
  split; [reflexivity |]. split.
  - apply (proj1 (Decode_integer_overflow Arch64 (parseNothing false)
                    specParseInt64 specParseInt64
                    (parseNothing 0) (parseNothing []) (parseNothing [])
                    (parseNothing 0) (parseNothing []) (fun _ => false)
                    (fun bits => bits)
                    [98; 128; 0; 0; 0] (-2147483648) 5 0) Typed.Int8).
    + reflexivity.
    + simpl. lia.
  - apply (proj2 (Decode_integer_overflow Arch64 (parseNothing false)
                    specParseInt64 specParseInt64
                    (parseNothing 0) (parseNothing []) (parseNothing [])
                    (parseNothing 0) (parseNothing []) (fun _ => false)
                    (fun bits => bits)
                    [98; 0; 0; 1; 44] 300 5 7) Typed.Uint8).
    + reflexivity.
    + simpl. lia.
Defined.

(** * Further properties of the codec *)

(** ** What [Decode] reads *)

Lemma suffix_refl (r : list Z) : suffix r r.
Proof. exists []. reflexivity. Qed.

Lemma suffix_trans (a b c : list Z) : suffix a b -> suffix b c -> suffix a c.
Proof.
  intros [p ->] [q ->]. exists (q ++ p). rewrite app_assoc. reflexivity.
Qed.

Lemma suffix_cons (x : Z) (a b : list Z) : suffix a b -> suffix a (x :: b).
Proof. intros [p ->]. exists (x :: p). reflexivity. Qed.

Lemma suffix_skipn (n : nat) (r : list Z) : suffix (skipn n r) r.
Proof. exists (firstn n r). symmetry. apply firstn_skipn. Qed.

Lemma suffix_length (a b : list Z) :
  suffix a b -> (length a <= length b)%nat.
Proof. intros [p ->]. rewrite length_app. lia. Qed.

Lemma ReadByte_suffix (r r' : list Z) (x : Z) (e : option error) :
  Decoder.ReadByte r = (x, e, r') -> suffix r' r.
Proof.
  destruct r; simpl; intros H; injection H as _ _ <-.
  - apply suffix_refl.
  - apply suffix_cons, suffix_refl.
Qed.

Lemma ReadFull_suffix (r b b' r' : list Z) (e : option error) :
  Decoder.ReadFull r b = (b', e, r') -> suffix r' r.
Proof.
  unfold Decoder.ReadFull. intros H. injection H as _ _ <-.
  apply suffix_skipn.
Qed.

Lemma ruint16_suffix (r r' : list Z) (x : Z) (e : option error) :
  Decoder.ruint16 r = (x, e, r') -> suffix r' r.
Proof.
  unfold Decoder.ruint16.
  destruct (Decoder.ReadFull r (Decoder.make 2)) as [[b e0] r0] eqn:E.
  intros H. injection H as _ _ <-. eapply ReadFull_suffix; eassumption.
Qed.

Lemma ruint32_suffix (r r' : list Z) (x : Z) (e : option error) :
  Decoder.ruint32 r = (x, e, r') -> suffix r' r.
Proof.
  unfold Decoder.ruint32.
  destruct (Decoder.ReadFull r (Decoder.make 4)) as [[b e0] r0] eqn:E.
  intros H. injection H as _ _ <-. eapply ReadFull_suffix; eassumption.
Qed.

Lemma buint8_suffix (r r' b : list Z) (e : option error) :
  Decoder.buint8 r = (b, e, r') -> suffix r' r.
Proof.
  unfold Decoder.buint8, Decoder.ruint8.
  destruct (Decoder.ReadByte r) as [[x e0] r0] eqn:E.
  intros H. injection H as _ _ <-. eapply ReadByte_suffix; eassumption.
Qed.

Lemma buint16_suffix (r r' b : list Z) (e : option error) :
  Decoder.buint16 r = (b, e, r') -> suffix r' r.
Proof.
  unfold Decoder.buint16.
  destruct (Decoder.ruint16 r) as [[x e0] r0] eqn:E.
  intros H. injection H as _ _ <-. eapply ruint16_suffix; eassumption.
Qed.

Lemma buint32_suffix (r r' b : list Z) (e : option error) :
  Decoder.buint32 r = (b, e, r') -> suffix r' r.
Proof.
  unfold Decoder.buint32.
  destruct (Decoder.ruint32 r) as [[x e0] r0] eqn:E.
  intros H. injection H as _ _ <-. eapply ruint32_suffix; eassumption.
Qed.

Lemma readIds_suffix (n : nat) :
  forall (r r' ids : list Z) (e : option error),
    Decoder.readIds n r = (ids, e, r') -> suffix r' r.
Proof.
  induction n as [| n IH]; intros r r' ids e; cbn [Decoder.readIds].
  - intros H. injection H as _ _ <-. apply suffix_refl.
  - destruct (Decoder.ruint32 r) as [[x [e0 |]] r0] eqn:E.
    + intros H. injection H as _ _ <-. eapply ruint32_suffix; eassumption.
    + destruct (Decoder.readIds n r0) as [[ids0 e1] r1] eqn:E1.
      intros H. injection H as _ _ <-.
      apply ruint32_suffix in E. apply IH in E1.
      eapply suffix_trans; eassumption.
Qed.

Lemma readBigInt_suffix (arch : Arch) (r r' b : list Z) (sign : Z)
    (t : Term) (e : option error) :
  Decoder.readBigInt arch r b sign = (t, e, r') -> suffix r' r.
Proof.
  unfold Decoder.readBigInt.
  destruct (Decoder.ReadFull r b) as [[b0 [e0 |]] r0] eqn:E;
    apply ReadFull_suffix in E.
  - intros H. injection H as _ _ <-. exact E.
  - repeat match goal with
           | |- context [if ?x then _ else _] => destruct x
           end; intros H; injection H as _ _ <-; exact E.
Qed.

Lemma leaves_weaken (A : Type) (r r0 : Decoder.Reader)
    (res : outcome (A * Decoder.Reader)) :
  suffix r r0 -> leaves r res -> leaves r0 res.
Proof.
  destruct res as [[a r'] | |]; simpl; [| trivial | trivial].
  intros H1 H2. eapply suffix_trans; eassumption.
Qed.

Section Consumption.

Variable arch : Arch.
Variable Sscanf_f : list Z -> Z * Z * option error.
Variable c : Context.

Local Abbreviation DecodeBody := (Decoder.DecodeBody arch Sscanf_f c).
Local Abbreviation Decode := (Decoder.Decode arch Sscanf_f c).

Ltac head_of t :=
  lazymatch t with
  | match ?x with _ => _ end => head_of x
  | _ => t
  end.

(** [suffix a c] along the chain of the reads made so far. *)
Ltac chain :=
  solve [ apply suffix_refl
        | eassumption
        | match goal with
          | H : suffix ?a ?b |- suffix ?a ?c =>
              apply (suffix_trans a b c H); chain
          end ].

Section Body.

Variable rec : Decoder.Reader -> Decoder.result.
Variable r1 : Decoder.Reader.
Hypothesis Hrec : forall r, suffix r r1 -> leaves r (rec r).

Lemma decodeEach_leaves (k : nat) :
  forall r, suffix r r1 -> leaves r (Decoder.decodeEach rec k r).
Proof.
  induction k as [| k IH]; intros r Hr; cbn [Decoder.decodeEach].
  - simpl. apply suffix_refl.
  - pose proof (Hrec r Hr) as F.
    destruct (rec r) as [[[t [e |]] r'] | |]; simpl in F;
      [exact F | | exact I | contradiction].
    assert (Hr' : suffix r' r1) by (eapply suffix_trans; eassumption).
    pose proof (IH r' Hr') as F'.
    destruct (Decoder.decodeEach rec k r') as [[[ts e'] r''] | |];
      simpl in F'; [| exact I | contradiction].
    simpl. eapply suffix_trans; eassumption.
Qed.

Lemma finishFun_leaves (arity : Z) (unique : list Z) (index free : Z)
    (m oldi oldu pid : Term) (r : Decoder.Reader) :
  suffix r r1 ->
  leaves r (Decoder.finishFun rec arity unique index free m oldi oldu pid r).
Proof.
  intros Hr. unfold Decoder.finishFun.
  pose proof (decodeEach_leaves (Z.to_nat free) r Hr) as F.
  destruct (Decoder.decodeEach rec (Z.to_nat free) r) as [[[ts e] r'] | |];
    simpl in F; [| exact I | contradiction].
  destruct m, oldi, oldu, pid; try exact I. exact F.
Qed.

Ltac leave_read x lemma :=
  let E := fresh "E" in
  destruct x as [[? [? |]] ?] eqn:E; apply lemma in E.

Ltac leave_step :=
  lazymatch goal with
  | |- leaves _ Panic => exact I
  | |- leaves _ (Done (Decoder.readBigInt ?a ?r ?b ?s)) =>
      let E := fresh "E" in
      destruct (Decoder.readBigInt a r b s) as [[? ?] ?] eqn:E;
      apply readBigInt_suffix in E
  | |- leaves _ (Done (_, _)) => cbn [leaves]; chain
  | |- leaves _ (rec ?r) =>
      apply (leaves_weaken _ r); [chain | apply Hrec; chain]
  | |- leaves _ (Decoder.finishFun rec _ _ _ _ _ _ _ _ ?r) =>
      apply (leaves_weaken _ r); [chain | apply finishFun_leaves; chain]
  | |- leaves _ ?res =>
      let x := head_of res in
      lazymatch x with
      | rec ?r =>
          let F := fresh "F" in
          assert (F : leaves r (rec r)) by (apply Hrec; chain);
          destruct (rec r) as [[[? [? |]] ?] | |]; cbn [leaves] in F;
          [ | | | contradiction]
      | Decoder.decodeEach rec ?k ?r =>
          let F := fresh "F" in
          assert (F : leaves r (Decoder.decodeEach rec k r))
            by (apply decodeEach_leaves; chain);
          destruct (Decoder.decodeEach rec k r) as [[[? [? |]] ?] | |];
          cbn [leaves] in F; [ | | | contradiction]
      | Decoder.ReadFull _ _ => leave_read x ReadFull_suffix
      | Decoder.ruint8 _ => leave_read x ReadByte_suffix
      | Decoder.ruint16 _ => leave_read x ruint16_suffix
      | Decoder.ruint32 _ => leave_read x ruint32_suffix
      | Decoder.buint8 _ => leave_read x buint8_suffix
      | Decoder.buint16 _ => leave_read x buint16_suffix
      | Decoder.buint32 _ => leave_read x buint32_suffix
      | Decoder.readIds _ _ => leave_read x readIds_suffix
      | _ => destruct x
      end
  end.

(** Once the tag is read, the body leaves a suffix of the rest. *)
Lemma DecodeBody_leaves (etype : Z) :
  leaves r1 (DecodeBody rec (etype :: r1)).
Proof.
  unfold Decoder.DecodeBody. cbn [Decoder.ruint8 Decoder.ReadByte].
  repeat leave_step.
Qed.

End Body.

Lemma Decode_leaves_bounded (n : nat) :
  forall r, (length r <= n)%nat ->
    match r with
    | [] => Decode r = Done (TNil, Some EOF, [])
    | _ :: r1 => leaves r1 (Decode r)
    end.
Proof.
  induction n as [| n IH]; intros [| x r1] Hr; try reflexivity.
  - simpl in Hr. lia.
  - rewrite Decode_eq. apply DecodeBody_leaves.
    intros r Hs. pose proof (suffix_length r r1 Hs) as L.
    simpl in Hr. specialize (IH r ltac:(lia)).
    destruct r as [| y r2].
    + rewrite IH. simpl. apply suffix_refl.
    + eapply leaves_weaken; [| exact IH]. apply suffix_cons, suffix_refl.
Qed.

(** X1.  [Decode] always ends, by a return or by a panic.  When it
    returns, with or without an error, what it leaves unread is a suffix of
    the stream it was given: it never reads a byte twice and never puts one
    back; and unless the stream was empty it has read at least the tag
    byte.  On the empty stream it returns the error [EOF] and no term. *)
Theorem Decode_reads_a_prefix (r : Decoder.Reader) :
  Decode r <> OutOfFuel /\
  (forall (t : Term) (e : option error) (r' : Decoder.Reader),
     Decode r = Done (t, e, r') ->
     (exists p : list Z, r = p ++ r') /\
     (r <> [] -> (length r' < length r)%nat)) /\
  Decode [] = Done (TNil, Some EOF, []).
Proof.
  split; [apply Decode_ends |]. split; [| reflexivity].
  intros t e r' H.
  pose proof (Decode_leaves_bounded (length r) r (Nat.le_refl _)) as L.
  destruct r as [| x r1].
  - rewrite L in H. injection H as _ _ <-.
    split; [exists []; reflexivity | congruence].
  - rewrite H in L. simpl in L.
    split.
    + apply suffix_cons with (x := x) in L. exact L.
    + intros _. apply suffix_length in L. simpl. lia.
Qed.

End Consumption.

(** ** Scalars, there and back *)

Section Scalars.

Variable arch : Arch.
Variable Sscanf_f : list Z -> Z * Z * option error.
Variable c : Context.

Local Abbreviation Decode := (Decoder.Decode arch Sscanf_f c).
Local Abbreviation readsBack := (readsBack arch Sscanf_f c).

Lemma Decode_string (hi lo : Z) (r : Decoder.Reader) :
  Decode (ettString :: hi :: lo :: r)
  = let '(b, err, r) :=
      Decoder.ReadFull r (Decoder.make (be_Uint16 [hi; lo])) in
    Done (TString b, err, r).
Proof. rewrite Decode_eq. reflexivity. Qed.

Lemma Decode_binary (b3 b2 b1 b0 : Z) (r : Decoder.Reader) :
  Decode (ettBinary :: b3 :: b2 :: b1 :: b0 :: r)
  = let '(b, err, r) :=
      Decoder.ReadFull r (Decoder.make (be_Uint32 [b3; b2; b1; b0])) in
    Done (TBytes b, err, r).
Proof. rewrite Decode_eq. reflexivity. Qed.

Lemma Decode_newFloat (b7 b6 b5 b4 b3 b2 b1 b0 : Z) (r : Decoder.Reader) :
  Decode (ettNewFloat :: b7 :: b6 :: b5 :: b4 :: b3 :: b2 :: b1 :: b0 :: r)
  = Done (TFloat64 (be_Uint64 [b7; b6; b5; b4; b3; b2; b1; b0]), None, r).
Proof. rewrite Decode_eq. reflexivity. Qed.

Lemma Decode_smallInteger (x : Z) (r : Decoder.Reader) :
  Decode (ettSmallInteger :: x :: r) = Done (TInt x, None, r).
Proof. rewrite Decode_eq. reflexivity. Qed.

Lemma Decode_integer (b3 b2 b1 b0 : Z) (r : Decoder.Reader) :
  Decode (ettInteger :: b3 :: b2 :: b1 :: b0 :: r)
  = Done (TInt (int32_of (be_Uint32 [b3; b2; b1; b0])), None, r).
Proof. rewrite Decode_eq. reflexivity. Qed.

Lemma be_Uint16_split (n : Z) :
  0 <= n <= 65535 -> be_Uint16 [byte_of (Z.shiftr n 8); byte_of n] = n.
Proof.
  intros H. rewrite be_Uint16_bytes. apply Z.mod_small.
  change (2 ^ 16) with 65536. lia.
Qed.

Lemma be_Uint32_split (n : Z) :
  0 <= n <= MaxUint32 ->
  be_Uint32 [byte_of (Z.shiftr n 24); byte_of (Z.shiftr n 16);
             byte_of (Z.shiftr n 8); byte_of n] = n.
Proof.
  intros H. rewrite be_Uint32_bytes. apply Z.mod_small.
  unfold MaxUint32 in H. change (2 ^ 32) with 4294967296. lia.
Qed.

Lemma be_Uint64_bytes (x : Z) :
  be_Uint64 [byte_of (Z.shiftr x 56); byte_of (Z.shiftr x 48);
             byte_of (Z.shiftr x 40); byte_of (Z.shiftr x 32);
             byte_of (Z.shiftr x 24); byte_of (Z.shiftr x 16);
             byte_of (Z.shiftr x 8); byte_of x] = x mod 2 ^ 64.
Proof.
  unfold be_Uint64. cbn [firstn skipn].
  replace (Z.shiftr x 56) with (Z.shiftr (Z.shiftr x 32) 24)
    by (rewrite Z.shiftr_shiftr by lia; reflexivity).
  replace (Z.shiftr x 48) with (Z.shiftr (Z.shiftr x 32) 16)
    by (rewrite Z.shiftr_shiftr by lia; reflexivity).
  replace (Z.shiftr x 40) with (Z.shiftr (Z.shiftr x 32) 8)
    by (rewrite Z.shiftr_shiftr by lia; reflexivity).
  rewrite !be_Uint32_bytes. rewrite shiftr_div by lia.
  change (2 ^ 64) with (2 ^ 32 * 2 ^ 32).
  rewrite (Z.rem_mul_r x (2 ^ 32) (2 ^ 32)) by lia. ring.
Qed.

(** *** Strings and binaries *)

Lemma writeString_readsBack (w s : list Z) :
  Z.of_nat (length s) <= 65535 ->
  exists enc : list Z,
    Encoder.writeString w s = (w ++ enc, None) /\ readsBack enc (TString s).
Proof.
  intros H.
  exists (ettString :: byte_of (Z.shiftr (Z.of_nat (length s)) 8)
            :: byte_of (Z.of_nat (length s)) :: s).
  split.
  - unfold Encoder.writeString, MaxUint16.
    destruct (Z.leb_spec (Z.of_nat (length s)) 65535); [| lia].
    unfold Encoder.andThen, Encoder.Write. rewrite <- app_assoc. reflexivity.
  - intros rest. cbn [app]. rewrite Decode_string.
    rewrite be_Uint16_split by lia. rewrite ReadFull_make. reflexivity.
Qed.

Lemma writeBinary_readsBack (w b : list Z) :
  Z.of_nat (length b) <= MaxUint32 ->
  exists enc : list Z,
    Encoder.writeBinary w b = (w ++ enc, None) /\ readsBack enc (TBytes b).
Proof.
  intros H.
  exists (ettBinary :: byte_of (Z.shiftr (Z.of_nat (length b)) 24)
            :: byte_of (Z.shiftr (Z.of_nat (length b)) 16)
            :: byte_of (Z.shiftr (Z.of_nat (length b)) 8)
            :: byte_of (Z.of_nat (length b)) :: b).
  split.
  - unfold Encoder.writeBinary.
    destruct (Z.leb_spec (Z.of_nat (length b)) MaxUint32); [| lia].
    unfold Encoder.andThen, Encoder.Write. rewrite <- app_assoc. reflexivity.
  - intros rest. cbn [app]. rewrite Decode_binary.
    rewrite be_Uint32_split by lia. rewrite ReadFull_make. reflexivity.
Qed.

(** X2.  [writeString] accepts a string iff it has at most 65535 bytes;
    what it then writes (whatever the sink held) is read back by [Decode]
    as the same string, with what follows left unread; a longer string
    gives an error and the sink is left as it was. *)
Theorem string_round_trip (w s : list Z) :
  (Z.of_nat (length s) <= 65535 ->
   exists enc : list Z,
     Encoder.writeString w s = (w ++ enc, None) /\
     forall rest, Decode (enc ++ rest) = Done (TString s, None, rest)) /\
  (65535 < Z.of_nat (length s) ->
   Encoder.writeString w s
   = (w, Some (Errorf "string is too big (%d bytes)"
                      (Z.of_nat (length s))))).
Proof.
  split.
  - apply writeString_readsBack.
  - intros H. unfold Encoder.writeString, MaxUint16.
    destruct (Z.leb_spec (Z.of_nat (length s)) 65535); [lia | reflexivity].
Qed.

(** X3.  [writeBinary] accepts a byte slice iff its length fits 32 bits;
    what it then writes is read back by [Decode] as the same bytes, with
    what follows left unread; a longer slice gives an error and the sink
    is left as it was. *)
Theorem binary_round_trip (w b : list Z) :
  (Z.of_nat (length b) <= MaxUint32 ->
   exists enc : list Z,
     Encoder.writeBinary w b = (w ++ enc, None) /\
     forall rest, Decode (enc ++ rest) = Done (TBytes b, None, rest)) /\
  (MaxUint32 < Z.of_nat (length b) ->
   Encoder.writeBinary w b
   = (w, Some (Errorf "bad binary size (%d)" (Z.of_nat (length b))))).
Proof.
  split.
  - apply writeBinary_readsBack.
  - intros H. unfold Encoder.writeBinary.
    destruct (Z.leb_spec (Z.of_nat (length b)) MaxUint32);
      [lia | reflexivity].
Qed.

(** *** Floats *)

Lemma writeFloat_readsBack (w : list Z) (fb : Z) :
  is_uint64 fb ->
  exists enc : list Z,
    Encoder.writeFloat w fb = (w ++ enc, None) /\ readsBack enc (TFloat64 fb).
Proof.
  intros H. eexists. split.
  - unfold Encoder.writeFloat, Encoder.andThen, Encoder.Write.
    rewrite <- app_assoc. reflexivity.
  - intros rest. cbn [app]. rewrite Decode_newFloat, be_Uint64_bytes.
    rewrite Z.mod_small by exact H. reflexivity.
Qed.

(** X4.  For every [float64], given by its 64 bits, what [writeFloat]
    writes is the NEW_FLOAT tag and the bits, big-endian, and [Decode]
    reads it back as the float with the same bits: the round trip is exact
    for every bit pattern, those of NaN included. *)
Theorem float_round_trip (w : list Z) (fb : Z) :
  is_uint64 fb ->
  exists payload : list Z,
    Encoder.writeFloat w fb = (w ++ ettNewFloat :: payload, None) /\
    length payload = 8%nat /\
    be_Uint64 payload = fb /\
    forall rest,
      Decode (ettNewFloat :: payload ++ rest) = Done (TFloat64 fb, None, rest).
Proof.
  intros H. eexists. split; [| split; [| split]].
  - unfold Encoder.writeFloat, Encoder.andThen, Encoder.Write.
    rewrite <- app_assoc. reflexivity.
  - reflexivity.
  - rewrite be_Uint64_bytes. apply Z.mod_small. exact H.
  - intros rest. cbn [app]. rewrite Decode_newFloat, be_Uint64_bytes.
    rewrite Z.mod_small by exact H. reflexivity.
Qed.

End Scalars.

Lemma float_round_trip_witness :
  is_uint64 4607182418800017408 /\
  Encoder.writeFloat [131] 4607182418800017408
  = ([131; 70; 63; 240; 0; 0; 0; 0; 0; 0], None) /\
  Decoder.Decode Arch64 scanNothing newContext
    [70; 63; 240; 0; 0; 0; 0; 0; 0]
  = Done (TFloat64 4607182418800017408, None, []).
Proof.
  assert (H : is_uint64 4607182418800017408) by (unfold is_uint64; lia).
  split; [exact H |].
  destruct (float_round_trip Arch64 scanNothing newContext [131]
              4607182418800017408 H) as (payload & Hw & _ & _ & Hd).
  split; [reflexivity |].
  assert (E : payload = [63; 240; 0; 0; 0; 0; 0; 0]).
  { assert (Hw' : Encoder.writeFloat [131] 4607182418800017408
                  = ([131; 70; 63; 240; 0; 0; 0; 0; 0; 0], None))
      by reflexivity.
    rewrite Hw in Hw'. injection Hw' as Hw'. exact Hw'. }
  specialize (Hd []). rewrite E in Hd. exact Hd.
Defined.

(** ** Integers, there and back *)

Section Integers.

Variable arch : Arch.
Variable Sscanf_f : list Z -> Z * Z * option error.
Variable c : Context.

Local Abbreviation Decode := (Decoder.Decode arch Sscanf_f c).
Local Abbreviation readsBack := (readsBack arch Sscanf_f c).



Lemma writeBigInt_readsBack (w : list Z) (z : Z) :
  Z.of_nat (big.size z) <= MaxUint32 ->
  exists enc : list Z,
    Encoder.writeBigInt w z = (w ++ enc, None) /\
    readsBack enc (narrowest arch z).
Proof.
  intros Hsize.
  assert (Hlen : length (rev (big.Bytes z)) = big.size z)
    by (rewrite length_rev; apply Bytes_length).
  assert (Hval : leValue (rev (big.Bytes z)) = Z.abs z)
    by apply Bytes_value.
  destruct (Z.le_gt_cases (Z.of_nat (big.size z)) 255) as [Small | Large].
  - eexists. split; [apply writeBigInt_small; assumption |].
    intros rest. cbn [app]. rewrite Decode_smallBig, <- Hlen.
    rewrite readBigInt_exact by assumption. reflexivity.
  - eexists. split; [apply writeBigInt_large; lia |].
    intros rest. cbn [app]. rewrite Decode_largeBig.
    rewrite be_Uint32_split, <- Hlen by lia.
    rewrite readBigInt_exact by assumption. reflexivity.
Qed.

Lemma narrowest_int32 (x : Z) :
  - 2 ^ 31 <= x < 2 ^ 31 -> narrowest arch x = TInt x.
Proof.
  intros H. unfold narrowest.
  assert (N : 2 ^ 31 <= 2 ^ (intSize arch - 1))
    by (destruct arch; simpl; lia).
  destruct (Z.leb_spec (- 2 ^ (intSize arch - 1)) x); [| lia].
  destruct (Z.ltb_spec x (2 ^ (intSize arch - 1))); [| lia].
  reflexivity.
Qed.

Lemma size_uint64 (x : Z) : is_uint64 x -> Z.of_nat (big.size x) <= 8.
Proof.
  unfold is_uint64. intros H.
  destruct (Z.eq_dec x 0) as [-> | Ne]; [simpl; lia |].
  rewrite size_pos by assumption.
  assert (L : Z.log2 (Z.abs x) <= 63).
  { apply Z.lt_succ_r. apply Z.log2_lt_pow2; [lia |].
    change (2 ^ Z.succ 63) with (2 ^ 64). lia. }
  assert (Z.log2 (Z.abs x) / 8 <= 7); [| lia].
  apply Z.lt_succ_r. apply Z.div_lt_upper_bound; lia.
Qed.

Lemma writeInt_readsBack (w : list Z) (x : Z) :
  is_int64 x ->
  exists enc : list Z,
    Encoder.writeInt w x = (w ++ enc, None) /\
    readsBack enc (narrowest arch x).
Proof.
  intros Hx. unfold Encoder.writeInt, MaxUint8, MinInt32, MaxInt32.
  change (-2147483648) with (- 2 ^ 31). change 2147483647 with (2 ^ 31 - 1).
  destruct (Z.geb_spec x 0) as [G0 | G0], (Z.leb_spec x 255) as [L255 | L255];
    cbn [andb];
    try (eexists; split; [reflexivity |];
         intros rest; cbn [app]; rewrite byte_of_small by lia;
         rewrite Decode_smallInteger, narrowest_int32 by lia; reflexivity);
    destruct (Z.geb_spec x (- 2 ^ 31)) as [G | G],
             (Z.leb_spec x (2 ^ 31 - 1)) as [L | L];
    cbn [andb];
    try (pose proof (size_int64 x Hx); apply writeBigInt_readsBack;
         unfold MaxUint32; lia);
    (eexists; split; [reflexivity |];
     intros rest; cbn [app]; unfold int32_of at 1 2 3 4;
     rewrite swrap_id by (change (32 - 1) with 31; lia);
     rewrite Decode_integer, be_Uint32_bytes, int32_of_wrapped by lia;
     rewrite narrowest_int32 by lia; reflexivity).
Qed.

Lemma writeUint_readsBack (w : list Z) (x : Z) :
  is_uint64 x ->
  exists enc : list Z,
    Encoder.writeUint w x = (w ++ enc, None) /\
    readsBack enc (narrowest arch x).
Proof.
  intros Hx. unfold is_uint64 in Hx.
  unfold Encoder.writeUint, MaxUint8, MaxInt32.
  change 2147483647 with (2 ^ 31 - 1).
  destruct (Z.leb_spec x 255) as [L255 | L255].
  - eexists; split; [reflexivity |].
    intros rest; cbn [app]; rewrite byte_of_small by lia.
    rewrite Decode_smallInteger, narrowest_int32 by lia; reflexivity.
  - destruct (Z.leb_spec x (2 ^ 31 - 1)) as [L | L].
    + eexists; split; [reflexivity |].
      intros rest; cbn [app].
      rewrite Decode_integer, be_Uint32_bytes, int32_of_wrapped by lia.
      rewrite narrowest_int32 by lia; reflexivity.
    + pose proof (size_uint64 x Hx). apply writeBigInt_readsBack.
      unfold MaxUint32; lia.
Qed.

(** X6.  For every [int64] [x], what [writeInt] writes is read back by
    [Decode] as an integer term of value [x]: a native [int] when [x] fits
    one (always, where [int] has 64 bits), else an [int64]; what follows
    the term is left unread. *)
Theorem int_round_trip (w : list Z) (x : Z) :
  is_int64 x ->
  exists enc : list Z,
    Encoder.writeInt w x = (w ++ enc, None) /\
    (forall rest,
       Decode (enc ++ rest) = Done (narrowest arch x, None, rest)) /\
    (is_int arch x -> narrowest arch x = TInt x) /\
    (~ is_int arch x -> narrowest arch x = TInt64 x).
Proof.
  intros Hx. destruct (writeInt_readsBack w x Hx) as (enc & Hw & Hd).
  exists enc. split; [exact Hw |]. split; [exact Hd |].
  unfold is_int, is_int64, narrowest in *.
  split; intros H.
  - destruct (Z.leb_spec (- 2 ^ (intSize arch - 1)) x); [| lia].
    destruct (Z.ltb_spec x (2 ^ (intSize arch - 1))); [| lia].
    reflexivity.
  - destruct (Z.leb_spec (- 2 ^ (intSize arch - 1)) x);
      destruct (Z.ltb_spec x (2 ^ (intSize arch - 1)));
      cbn [andb]; try lia;
      destruct (Z.leb_spec (- 2 ^ 63) x); try lia;
      destruct (Z.ltb_spec x (2 ^ 63)); try lia; reflexivity.
Qed.

(** X7.  For every [uint64] [x], what [writeUint] writes is read back by
    [Decode] as an integer term of value [x]: a native [int] when [x] fits
    one, else an [int64] when [x] is below [2 ^ 63], else a big integer;
    what follows the term is left unread. *)
Theorem uint_round_trip (w : list Z) (x : Z) :
  is_uint64 x ->
  exists enc : list Z,
    Encoder.writeUint w x = (w ++ enc, None) /\
    (forall rest,
       Decode (enc ++ rest) = Done (narrowest arch x, None, rest)) /\
    integerOf (narrowest arch x) = Some x /\
    (2 ^ 63 <= x -> narrowest arch x = TBigInt x).
Proof.
  intros Hx. destruct (writeUint_readsBack w x Hx) as (enc & Hw & Hd).
  exists enc. split; [exact Hw |]. split; [exact Hd |].
  split; [apply integerOf_narrowest |].
  intros H. unfold narrowest.
  assert (N : 2 ^ (intSize arch - 1) <= 2 ^ 63)
    by (destruct arch; simpl; lia).
  destruct (Z.ltb_spec x (2 ^ (intSize arch - 1))); [lia |].
  rewrite andb_false_r.
  destruct (Z.ltb_spec x (2 ^ 63)); [lia |].
  rewrite andb_false_r. reflexivity.
Qed.

(** X8.  For every atom of at most 65535 bytes, what [writeAtom] writes
    is read back by [Decode] as [newAtom] of the text, with what follows
    left unread: as the same atom, unless the text is "true" or "false",
    which come back as the booleans. *)
Theorem atom_round_trip (w : list Z) (atom : Atom) :
  Z.of_nat (length atom) <= 65535 ->
  exists enc : list Z,
    Encoder.writeAtom w atom = (w ++ enc, None) /\
    (forall rest,
       Decode (enc ++ rest) = Done (Decoder.newAtom atom, None, rest)) /\
    (atom <> Decoder.bTrue -> atom <> Decoder.bFalse ->
     Decoder.newAtom atom = TAtom atom) /\
    (atom = Decoder.bTrue -> Decoder.newAtom atom = TBool true) /\
    (atom = Decoder.bFalse -> Decoder.newAtom atom = TBool false).
Proof.
  intros H.
  destruct (Decode_writeAtom arch Sscanf_f c w atom H) as (enc & Hw & Hd).
  exists enc. split; [exact Hw |]. split; [exact Hd |].
  split; [apply newAtom_other |].
  split; intros ->; reflexivity.
Qed.

End Integers.

(** ** Structured terms, there and back *)

Lemma EncodeTerm_tuple (w : list Z) (ts : list Term) :
  Encoder.EncodeTerm w (TTuple ts)
  = Encoder.thenEncode
      (Done (Encoder.writeTupleHeader w (Z.of_nat (length ts))))
      (fun w => encodeEach w ts).
Proof. reflexivity. Qed.

Lemma EncodeTerm_list (w : list Z) (ts : list Term) :
  Encoder.EncodeTerm w (TList ts)
  = Encoder.thenEncode
      (Done (Encoder.writeListHeader w (Z.of_nat (length ts))))
      (fun w => Encoder.thenEncode (encodeEach w ts)
      (fun w => Done (Encoder.Write w [ettNil]))).
Proof. reflexivity. Qed.

(** An induction principle for terms that reaches the elements of tuples
    and of lists. *)
Lemma Term_ind_elements (P : Term -> Prop) :
  (forall ts : list Term, Forall P ts -> P (TTuple ts)) ->
  (forall ts : list Term, Forall P ts -> P (TList ts)) ->
  (forall t : Term,
     match t with TTuple _ | TList _ => False | _ => True end -> P t) ->
  forall t : Term, P t.
Proof.
  intros Htuple Hlist Hother.
  exact (fix go (t : Term) : P t :=
           match t with
           | TTuple ts =>
             Htuple ts
               ((fix all (l : list Term) : Forall P l :=
                   match l with
                   | [] => Forall_nil P
                   | x :: l' => Forall_cons x (go x) (all l')
                   end) ts)
           | TList ts =>
             Hlist ts
               ((fix all (l : list Term) : Forall P l :=
                   match l with
                   | [] => Forall_nil P
                   | x :: l' => Forall_cons x (go x) (all l')
                   end) ts)
           | TNil => Hother TNil I
           | TBool b => Hother (TBool b) I
           | TInt x => Hother (TInt x) I
           | TInt64 x => Hother (TInt64 x) I
           | TBigInt v => Hother (TBigInt v) I
           | TFloat64 b => Hother (TFloat64 b) I
           | TString s => Hother (TString s) I
           | TBytes b => Hother (TBytes b) I
           | TAtom a => Hother (TAtom a) I
           | TPid p => Hother (TPid p) I
           | TPort p => Hother (TPort p) I
           | TRef r => Hother (TRef r) I
           | TExport e => Hother (TExport e) I
           | TFunction f => Hother (TFunction f) I
           end).
Qed.

Section Structured.

Variable arch : Arch.
Variable Sscanf_f : list Z -> Z * Z * option error.
Variable c : Context.

Local Abbreviation Decode := (Decoder.Decode arch Sscanf_f c).
Local Abbreviation readsBack := (readsBack arch Sscanf_f c).

(** [EncodeTerm] appends to the sink [w] an encoding that [Decode] reads
    back as [t]. *)
Local Abbreviation comesBack t :=
  (forall w : list Z,
     exists enc : list Z,
       Encoder.EncodeTerm w t = Done (w ++ enc, None) /\ readsBack enc t).

Lemma Decode_largeTuple (b3 b2 b1 b0 : Z) (r : Decoder.Reader) :
  Decode (ettLargeTuple :: b3 :: b2 :: b1 :: b0 :: r)
  = match Decoder.decodeEach Decode
            (Z.to_nat (be_Uint32 [b3; b2; b1; b0])) r with
    | Done (ts, err, r) =>
      Done (TTuple (Decoder.filled
                      (Z.to_nat (be_Uint32 [b3; b2; b1; b0])) ts), err, r)
    | Panic => Panic
    | OutOfFuel => OutOfFuel
    end.
Proof. rewrite Decode_eq. reflexivity. Qed.

Lemma Decode_newRef (hi lo : Z) (r : Decoder.Reader) :
  Decode (ettNewRef :: hi :: lo :: r)
  = match Decode r with
    | Done (_, Some err, r) => Done (TNil, Some err, r)
    | Done (node, None, r) =>
      match Decoder.ruint8 r with
      | (_, Some err, r) => Done (TNil, Some err, r)
      | (creation, None, r) =>
        match node with
        | TAtom node =>
          match Decoder.readIds (Z.to_nat (be_Uint16 [hi; lo])) r with
          | (_, Some err, r) => Done (TNil, Some err, r)
          | (ids, None, r) =>
            Done (TRef {| Ref_Node := node; Ref_Creation := creation;
                          Ref_Id := ids |}, None, r)
          end
        | _ => Panic
        end
      end
    | Panic => Panic
    | OutOfFuel => OutOfFuel
    end.
Proof. rewrite Decode_eq. reflexivity. Qed.

Lemma filled_all (ts : list Term) : Decoder.filled (length ts) ts = ts.
Proof.
  unfold Decoder.filled. rewrite Nat.sub_diag. apply app_nil_r.
Qed.

(** *** Process identifiers and references *)

Lemma writePid_readsBack (w : list Z) (p : Pid) :
  validNode (Pid_Node p) ->
  0 <= Pid_Id p <= 65535 ->
  is_uint32 (Pid_Serial p) ->
  exists enc : list Z,
    Encoder.writePid w p = (w ++ enc, None) /\ readsBack enc (TPid p).
Proof.
  intros (Hlen & Ht & Hf) Hid Hs.
  destruct (Decode_writeAtom arch Sscanf_f c (w ++ [ettPid]) (Pid_Node p) Hlen)
    as (enc & Hw & Hd).
  set (nine := [0; 0; byte_of (Z.shiftr (Pid_Id p) 8); byte_of (Pid_Id p);
                byte_of (Z.shiftr (Pid_Serial p) 24);
                byte_of (Z.shiftr (Pid_Serial p) 16);
                byte_of (Z.shiftr (Pid_Serial p) 8);
                byte_of (Pid_Serial p); Pid_Creation p]).
  exists (ettPid :: enc ++ nine). split.
  - unfold Encoder.writePid. cbn [Encoder.Write]. rewrite Hw.
    unfold Encoder.Write. fold nine.
    f_equal. rewrite <- !app_assoc. reflexivity.
  - intros rest. cbn [app]. rewrite <- app_assoc.
    rewrite Decode_pid, Hd, newAtom_other by assumption.
    rewrite (ReadFull_exact nine rest) by reflexivity.
    unfold nine. cbn [firstn skipn nth].
    rewrite be_Uint32_low16, be_Uint32_bytes.
    rewrite (Z.mod_small (Pid_Serial p))
      by (unfold is_uint32, MaxUint32 in Hs;
          change (2 ^ 32) with 4294967296; lia).
    rewrite (Z.mod_small (Pid_Id p)) by (change (2 ^ 16) with 65536; lia).
    destruct p; reflexivity.
Qed.

Lemma writeEach_ids (ids : list Z) :
  forall w : list Z,
    Encoder.writeEach
      (fun w v =>
         Encoder.Write w [byte_of (Z.shiftr v 24); byte_of (Z.shiftr v 16);
                          byte_of (Z.shiftr v 8); byte_of v])
      w ids
    = (w ++ flat_map be4 ids, None).
Proof.
  induction ids as [| v ids IH]; intros w; cbn [Encoder.writeEach flat_map].
  - rewrite app_nil_r. reflexivity.
  - unfold Encoder.Write at 1. rewrite IH, <- app_assoc. reflexivity.
Qed.

Lemma ruint32_be4 (v : Z) (r : list Z) :
  Decoder.ruint32 (be4 v ++ r) = (v mod 2 ^ 32, None, r).
Proof.
  unfold Decoder.ruint32.
  rewrite (ReadFull_exact (be4 v) r) by reflexivity.
  unfold be4. rewrite be_Uint32_bytes. reflexivity.
Qed.

Lemma readIds_written (ids : list Z) :
  Forall is_uint32 ids ->
  forall rest : list Z,
    Decoder.readIds (length ids) (flat_map be4 ids ++ rest)
    = (ids, None, rest).
Proof.
  induction 1 as [| v ids Hv _ IH]; intros rest; [reflexivity |].
  cbn [length flat_map Decoder.readIds]. rewrite <- app_assoc.
  rewrite ruint32_be4, IH.
  rewrite Z.mod_small
    by (unfold is_uint32, MaxUint32 in Hv;
        change (2 ^ 32) with 4294967296; lia).
  reflexivity.
Qed.

Lemma writeRef_readsBack (w : list Z) (ref : Ref) :
  validNode (Ref_Node ref) ->
  Z.of_nat (length (Ref_Id ref)) <= 65535 ->
  Forall is_uint32 (Ref_Id ref) ->
  exists enc : list Z,
    Encoder.writeRef w ref = (w ++ ettNewRef :: enc, None) /\
    readsBack (ettNewRef :: enc) (TRef ref).
Proof.
  intros (Hlen & Ht & Hf) Hn Hids.
  set (n := Z.of_nat (length (Ref_Id ref))) in *.
  destruct (Decode_writeAtom arch Sscanf_f c
              (w ++ [ettNewRef; byte_of (Z.shiftr n 8); byte_of n])
              (Ref_Node ref) Hlen)
    as (enc & Hw & Hd).
  exists (byte_of (Z.shiftr n 8) :: byte_of n
            :: enc ++ Ref_Creation ref :: flat_map be4 (Ref_Id ref)).
  split.
  - unfold Encoder.writeRef. fold n. cbn [Encoder.Write]. rewrite Hw.
    rewrite writeEach_ids. f_equal. rewrite <- !app_assoc. reflexivity.
  - intros rest. cbn [app]. rewrite <- app_assoc.
    rewrite Decode_newRef, Hd, newAtom_other by assumption.
    cbn [app Decoder.ruint8 Decoder.ReadByte].
    rewrite be_Uint16_split by (unfold n; lia).
    unfold n. rewrite Nat2Z.id, readIds_written by assumption.
    destruct ref; reflexivity.
Qed.

(** X9.  For every reference whose node is an atom that comes back as an
    atom (at most 65535 bytes, neither "true" nor "false"), with at most
    65535 ids, each a [uint32]: what [writeRef] writes, a NEW_REFERENCE
    term, is read back by [Decode] as the same reference, with what
    follows left unread. *)
Theorem ref_round_trip (w : list Z) (ref : Ref) :
  validNode (Ref_Node ref) ->
  Z.of_nat (length (Ref_Id ref)) <= 65535 ->
  Forall is_uint32 (Ref_Id ref) ->
  exists enc : list Z,
    Encoder.writeRef w ref = (w ++ ettNewRef :: enc, None) /\
    forall rest,
      Decode (ettNewRef :: enc ++ rest) = Done (TRef ref, None, rest).
Proof.
  intros Hnode Hn Hids.
  destruct (writeRef_readsBack w ref Hnode Hn Hids) as (enc & Hw & Hd).
  exists enc. split; [exact Hw |]. intros rest. apply (Hd rest).
Qed.

(** *** Tuples and lists *)

Lemma decodeEach_plus (rec : Decoder.Reader -> Decoder.result) (n k : nat) :
  forall (r r' : Decoder.Reader) (ts : list Term),
    Decoder.decodeEach rec n r = Done (ts, None, r') ->
    Decoder.decodeEach rec (n + k) r
    = match Decoder.decodeEach rec k r' with
      | Done (ts', e, r'') => Done (ts ++ ts', e, r'')
      | Panic => Panic
      | OutOfFuel => OutOfFuel
      end.
Proof.
  induction n as [| n IH]; intros r r' ts H; cbn [Decoder.decodeEach] in H.
  - injection H as <- <-. cbn [Nat.add app].
    destruct (Decoder.decodeEach rec k r) as [[[ts' e] r''] | |];
      reflexivity.
  - cbn [Nat.add Decoder.decodeEach].
    destruct (rec r) as [[[t [e |]] r0] | |]; try discriminate H.
    destruct (Decoder.decodeEach rec n r0) as [[[ts0 e0] r1] | |] eqn:E;
      try discriminate H.
    injection H as <- -> <-.
    rewrite (IH r0 r1 ts0 E).
    destruct (Decoder.decodeEach rec k r1) as [[[ts' e] r''] | |];
      reflexivity.
Qed.

(** The elements one after the other: written by the loop of the writer,
    read by the loop of the reader. *)
Lemma encodeEach_comesBack (ts : list Term) :
  Forall (fun t => comesBack t) ts ->
  forall w : list Z,
    exists enc : list Z,
      encodeEach w ts = Done (w ++ enc, None) /\
      forall rest,
        Decoder.decodeEach Decode (length ts) (enc ++ rest)
        = Done (ts, None, rest).
Proof.
  induction 1 as [| t ts Ht _ IH]; intros w.
  - exists []. split; [rewrite app_nil_r; reflexivity | reflexivity].
  - destruct (Ht w) as (e1 & Hw1 & Hd1).
    destruct (IH (w ++ e1)) as (e2 & Hw2 & Hd2).
    exists (e1 ++ e2). split.
    + cbn [encodeEach]. rewrite Hw1. cbn [Encoder.thenEncode].
      rewrite Hw2, app_assoc. reflexivity.
    + intros rest. cbn [length Decoder.decodeEach].
      rewrite <- app_assoc, Hd1, Hd2. reflexivity.
Qed.

Lemma tuple_comesBack (ts : list Term) :
  Z.of_nat (length ts) <= MaxUint32 ->
  Forall (fun t => comesBack t) ts ->
  comesBack (TTuple ts).
Proof.
  intros Hn Hts w. rewrite EncodeTerm_tuple.
  unfold Encoder.writeTupleHeader, MaxUint8.
  destruct (Z.leb_spec (Z.of_nat (length ts)) 255) as [S | L];
    cbn [Encoder.Write Encoder.thenEncode].
  - destruct (encodeEach_comesBack ts Hts
                (w ++ [ettSmallTuple; byte_of (Z.of_nat (length ts))]))
      as (enc & Hw & Hd).
    eexists. split; [rewrite Hw, <- app_assoc; reflexivity |].
    intros rest. cbn [app]. rewrite byte_of_small by lia.
    rewrite Decode_smallTuple, Nat2Z.id, Hd, filled_all. reflexivity.
  - destruct (encodeEach_comesBack ts Hts
                (w ++ ettLargeTuple :: be4 (Z.of_nat (length ts))))
      as (enc & Hw & Hd).
    eexists. split; [unfold be4 in Hw; rewrite Hw, <- app_assoc; reflexivity |].
    intros rest. cbn [app]. rewrite Decode_largeTuple.
    fold (be4 (Z.of_nat (length ts))). unfold be4 at 1 2.
    rewrite be_Uint32_split by lia.
    rewrite Nat2Z.id, Hd, filled_all. reflexivity.
Qed.

Lemma list_comesBack (ts : list Term) :
  Z.of_nat (length ts) < MaxUint32 ->
  Forall (fun t => comesBack t) ts ->
  comesBack (TList ts).
Proof.
  intros Hn Hts w. rewrite EncodeTerm_list.
  unfold Encoder.writeListHeader. cbn [Encoder.Write Encoder.thenEncode].
  destruct (encodeEach_comesBack ts Hts
              (w ++ ettList :: be4 (Z.of_nat (length ts))))
    as (enc & Hw & Hd).
  unfold be4 in Hw. rewrite Hw. cbn [Encoder.thenEncode].
  exists (ettList :: be4 (Z.of_nat (length ts)) ++ enc ++ [ettNil]).
  split; [unfold Encoder.Write, be4; do 2 f_equal;
          rewrite <- !app_assoc; reflexivity |].
  intros rest. unfold be4. cbn [app]. rewrite <- app_assoc.
  assert (E : be_Uint32
                [byte_of (Z.shiftr (Z.of_nat (length ts)) 24);
                 byte_of (Z.shiftr (Z.of_nat (length ts)) 16);
                 byte_of (Z.shiftr (Z.of_nat (length ts)) 8);
                 byte_of (Z.of_nat (length ts))]
              = Z.of_nat (length ts))
    by (apply be_Uint32_split; lia).
  apply (Decode_list_proper arch Sscanf_f c).
  - rewrite E. lia.
  - rewrite E, Nat2Z.id. reflexivity.
  - replace (S (length ts)) with (length ts + 1)%nat by lia.
    rewrite (decodeEach_plus Decode (length ts) 1 _ _ _ (Hd _)).
    cbn [Decoder.decodeEach app]. rewrite Decode_nil. reflexivity.
Qed.

End Structured.

(** ** Terms, there and back *)

Section Terms.

Variable arch : Arch.
Variable Sscanf_f : list Z -> Z * Z * option error.
Variable c : Context.

Local Abbreviation Decode := (Decoder.Decode arch Sscanf_f c).
Local Abbreviation readsBack := (readsBack arch Sscanf_f c).
Local Abbreviation comesBack t :=
  (forall w : list Z,
     exists enc : list Z,
       Encoder.EncodeTerm w t = Done (w ++ enc, None) /\ readsBack enc t).

Lemma is_int_is_int64 (x : Z) : is_int arch x -> is_int64 x.
Proof.
  unfold is_int, is_int64.
  assert (N : 2 ^ (intSize arch - 1) <= 2 ^ 63)
    by (destruct arch; simpl; lia).
  lia.
Qed.

Lemma narrowest_int (x : Z) : is_int arch x -> narrowest arch x = TInt x.
Proof.
  unfold is_int, narrowest. intros H.
  destruct (Z.leb_spec (- 2 ^ (intSize arch - 1)) x); [| lia].
  destruct (Z.ltb_spec x (2 ^ (intSize arch - 1))); [| lia].
  reflexivity.
Qed.

Lemma narrowest_int64 (x : Z) :
  is_int64 x -> ~ is_int arch x -> narrowest arch x = TInt64 x.
Proof.
  unfold is_int, is_int64, narrowest. intros H N.
  destruct (Z.leb_spec (- 2 ^ (intSize arch - 1)) x);
    destruct (Z.ltb_spec x (2 ^ (intSize arch - 1)));
    cbn [andb]; try lia;
    destruct (Z.leb_spec (- 2 ^ 63) x); try lia;
    destruct (Z.ltb_spec x (2 ^ 63)); try lia; reflexivity.
Qed.

Lemma narrowest_big (x : Z) : ~ is_int64 x -> narrowest arch x = TBigInt x.
Proof.
  unfold is_int64, narrowest. intros N.
  assert (M : 2 ^ (intSize arch - 1) <= 2 ^ 63)
    by (destruct arch; simpl; lia).
  destruct (Z.leb_spec (- 2 ^ (intSize arch - 1)) x);
    destruct (Z.ltb_spec x (2 ^ (intSize arch - 1)));
    cbn [andb]; try lia;
    destruct (Z.leb_spec (- 2 ^ 63) x);
    destruct (Z.ltb_spec x (2 ^ 63)); cbn [andb]; try lia; reflexivity.
Qed.

Lemma canonical_elements (ts : list Term) :
  (fix all (l : list Term) : Prop :=
     match l with
     | [] => True
     | x :: l' => canonical arch x /\ all l'
     end) ts ->
  Forall (canonical arch) ts.
Proof.
  induction ts as [| t ts IH]; intros H; constructor.
  - exact (proj1 H).
  - apply IH. exact (proj2 H).
Qed.

Lemma Forall_modus (A : Type) (P Q : A -> Prop) (l : list A) :
  Forall (fun x => P x -> Q x) l -> Forall P l -> Forall Q l.
Proof.
  induction 1 as [| x l Hx _ IH]; intros H; constructor;
    inversion H; subst; auto.
Qed.

Lemma canonical_comesBack (t : Term) : canonical arch t -> comesBack t.
Proof.
  induction t as [ts IH | ts IH | t Ht] using Term_ind_elements.
  - intros [Hn Hall].
    apply (tuple_comesBack arch Sscanf_f c); [exact Hn |].
    apply (Forall_modus _ _ _ _ IH). apply canonical_elements. exact Hall.
  - intros [Hn Hall].
    apply (list_comesBack arch Sscanf_f c); [exact Hn |].
    apply (Forall_modus _ _ _ _ IH). apply canonical_elements. exact Hall.
  - destruct t; try contradiction; cbn [canonical]; intros H w;
      cbn [Encoder.EncodeTerm].
    + (* bool *)
      destruct b; eexists; (split; [reflexivity |]); intros rest;
        cbn [app];
        rewrite (Decode_smallAtom arch Sscanf_f c) by (left; reflexivity);
        [ rewrite (ReadFull_exact Decoder.bTrue rest) by reflexivity
        | rewrite (ReadFull_exact Decoder.bFalse rest) by reflexivity ];
        reflexivity.
    + (* int *)
      destruct (writeInt_readsBack arch Sscanf_f c w x (is_int_is_int64 x H))
        as (enc & Hw & Hd).
      exists enc. rewrite Hw. split; [reflexivity |].
      rewrite (narrowest_int x H) in Hd. exact Hd.
    + (* int64 *)
      destruct H as [H64 Hn].
      destruct (writeInt_readsBack arch Sscanf_f c w x H64)
        as (enc & Hw & Hd).
      exists enc. rewrite Hw. split; [reflexivity |].
      rewrite (narrowest_int64 x H64 Hn) in Hd. exact Hd.
    + (* big integer *)
      destruct H as [Hn Hsize].
      destruct (writeBigInt_readsBack arch Sscanf_f c w v Hsize)
        as (enc & Hw & Hd).
      exists enc. rewrite Hw. split; [reflexivity |].
      rewrite (narrowest_big v Hn) in Hd. exact Hd.
    + (* float *)
      destruct (writeFloat_readsBack arch Sscanf_f c w bits H)
        as (enc & Hw & Hd).
      exists enc. rewrite Hw. split; [reflexivity | exact Hd].
    + (* string *)
      destruct (writeString_readsBack arch Sscanf_f c w s H)
        as (enc & Hw & Hd).
      exists enc. rewrite Hw. split; [reflexivity | exact Hd].
    + (* binary *)
      destruct (writeBinary_readsBack arch Sscanf_f c w b H)
        as (enc & Hw & Hd).
      exists enc. rewrite Hw. split; [reflexivity | exact Hd].
    + (* atom *)
      destruct H as (Hlen & Ht' & Hf).
      destruct (Decode_writeAtom arch Sscanf_f c w a Hlen)
        as (enc & Hw & Hd).
      exists enc. rewrite Hw. split; [reflexivity |].
      intros rest. rewrite Hd, newAtom_other by assumption. reflexivity.
    + (* pid *)
      destruct H as (Hnode & Hid & Hs).
      destruct (writePid_readsBack arch Sscanf_f c w p Hnode Hid Hs)
        as (enc & Hw & Hd).
      exists enc. rewrite Hw. split; [reflexivity | exact Hd].
    + (* ref *)
      destruct H as (Hnode & Hn & Hids).
      destruct (writeRef_readsBack arch Sscanf_f c w r Hnode Hn Hids)
        as (enc & Hw & Hd).
      eexists. rewrite Hw. split; [reflexivity | exact Hd].
Qed.

(** X10.  Tuples compose: when each element of a tuple, written by
    [EncodeTerm] to any sink, is read back by [Decode] as itself, then so is
    the tuple, as long as its arity fits 32 bits; up to 255 elements it is a
    SMALL_TUPLE, beyond that a LARGE_TUPLE. *)
Theorem tuple_round_trip (ts : list Term) (w : list Z) :
  Z.of_nat (length ts) <= MaxUint32 ->
  Forall (fun t => comesBack t) ts ->
  exists (tag : Z) (enc : list Z),
    Encoder.EncodeTerm w (TTuple ts) = Done (w ++ tag :: enc, None) /\
    (Z.of_nat (length ts) <= 255 -> tag = ettSmallTuple) /\
    (255 < Z.of_nat (length ts) -> tag = ettLargeTuple) /\
    forall rest,
      Decode (tag :: enc ++ rest) = Done (TTuple ts, None, rest).
Proof.
  intros Hn Hts.
  destruct (tuple_comesBack arch Sscanf_f c ts Hn Hts w) as (enc & Hw & Hd).
  rewrite EncodeTerm_tuple in Hw. unfold Encoder.writeTupleHeader in Hw.
  unfold MaxUint8 in Hw.
  destruct (encodeEach_comesBack arch Sscanf_f c ts Hts
              (w ++ [ettSmallTuple; byte_of (Z.of_nat (length ts))]))
    as (e1 & Hw1 & _).
  destruct (encodeEach_comesBack arch Sscanf_f c ts Hts
              (w ++ ettLargeTuple :: be4 (Z.of_nat (length ts))))
    as (e2 & Hw2 & _).
  destruct (Z.leb_spec (Z.of_nat (length ts)) 255) as [S | L];
    cbn [Encoder.Write Encoder.thenEncode] in Hw.
  - rewrite Hw1 in Hw. injection Hw as Hw. rewrite <- app_assoc in Hw.
    apply app_inv_head in Hw. subst enc.
    exists ettSmallTuple. eexists. rewrite EncodeTerm_tuple.
    unfold Encoder.writeTupleHeader, MaxUint8.
    destruct (Z.leb_spec (Z.of_nat (length ts)) 255); [| lia].
    cbn [Encoder.Write Encoder.thenEncode]. rewrite Hw1.
    split; [rewrite <- app_assoc; reflexivity |].
    split; [reflexivity |]. split; [lia |].
    intros rest. apply (Hd rest).
  - unfold be4 in Hw2. rewrite Hw2 in Hw. injection Hw as Hw.
    rewrite <- app_assoc in Hw. apply app_inv_head in Hw. subst enc.
    exists ettLargeTuple. eexists. rewrite EncodeTerm_tuple.
    unfold Encoder.writeTupleHeader, MaxUint8.
    destruct (Z.leb_spec (Z.of_nat (length ts)) 255); [lia |].
    cbn [Encoder.Write Encoder.thenEncode]. rewrite Hw2.
    split; [rewrite <- app_assoc; reflexivity |].
    split; [lia |]. split; [reflexivity |].
    intros rest. apply (Hd rest).
Qed.

(** X11.  Lists compose: when each element of a list, written by
    [EncodeTerm] to any sink, is read back by [Decode] as itself, then what
    [EncodeTerm] writes for the list, a LIST term of the elements closed by
    the nil marker, is read back as the list of the same elements, as long
    as there are fewer than [2 ^ 32 - 1] of them; the empty list included. *)
Theorem list_round_trip (ts : list Term) (w : list Z) :
  Z.of_nat (length ts) < MaxUint32 ->
  Forall (fun t => comesBack t) ts ->
  exists enc : list Z,
    Encoder.EncodeTerm w (TList ts) = Done (w ++ enc, None) /\
    last enc 0 = ettNil /\
    forall rest, Decode (enc ++ rest) = Done (TList ts, None, rest).
Proof.
  intros Hn Hts.
  destruct (encodeEach_comesBack arch Sscanf_f c ts Hts
              (w ++ ettList :: be4 (Z.of_nat (length ts))))
    as (e & Hw & _).
  destruct (list_comesBack arch Sscanf_f c ts Hn Hts w) as (enc & Hw' & Hd).
  exists enc. split; [exact Hw' |]. split; [| exact Hd].
  rewrite EncodeTerm_list in Hw'. unfold Encoder.writeListHeader in Hw'.
  cbn [Encoder.Write Encoder.thenEncode] in Hw'.
  unfold be4 in Hw. rewrite Hw in Hw'.
  cbn [Encoder.Write Encoder.thenEncode] in Hw'.
  injection Hw' as Hw'. rewrite <- !app_assoc in Hw'.
  apply app_inv_head in Hw'. subst enc.
  cbn [app]. rewrite !app_comm_cons. apply last_last.
Qed.

(** X12.  For every term in canonical form (see [canonical]), built from
    booleans, integers, floats, strings, binaries, atoms, pids, references,
    tuples and lists: [Encode] succeeds and writes the version byte and an
    encoding that [Decode] reads back as the same term, leaving unread what
    follows it. *)
Theorem canonical_term_round_trip (t : Term) :
  canonical arch t ->
  exists enc : list Z,
    Encoder.Encode [] t = Done (EtVersion :: enc, None) /\
    forall rest, Decode (EtVersion :: enc ++ rest) = Done (t, None, rest).
Proof.
  intros H.
  destruct (canonical_comesBack t H [EtVersion]) as (enc & Hw & Hd).
  exists enc. unfold Encoder.Encode. cbn [Encoder.Write app].
  split; [exact Hw |].
  intros rest. rewrite (Decode_version arch Sscanf_f c). apply Hd.
Qed.

End Terms.

(** ** Edges of the reader *)

Section Edges.

Variable arch : Arch.
Variable Sscanf_f : list Z -> Z * Z * option error.
Variable c : Context.

Local Abbreviation Decode := (Decoder.Decode arch Sscanf_f c).
Local Abbreviation readsBack := (readsBack arch Sscanf_f c).

(** X13.  The version byte is skipped wherever a term is expected and any
    number of times: a stream that starts with version bytes is decoded as
    the stream without them; so the element of a tuple may carry a version
    byte of its own. *)
Theorem version_bytes_are_skipped (n : nat) (r : Decoder.Reader) :
  Decode (repeat EtVersion n ++ r) = Decode r /\
  Decode (ettSmallTuple :: 1 :: repeat EtVersion n ++ r)
  = Decode (ettSmallTuple :: 1 :: r).
Proof.
  assert (E : Decode (repeat EtVersion n ++ r) = Decode r).
  { induction n as [| n IH]; [reflexivity |].
    cbn [repeat app]. rewrite (Decode_version arch Sscanf_f c). exact IH. }
  split; [exact E |].
  rewrite !(Decode_smallTuple arch Sscanf_f c).
  change (Z.to_nat 1) with 1%nat. cbn [Decoder.decodeEach].
  rewrite E. reflexivity.
Qed.

(** X14.  A tag byte that has no case in [Decode] gives the error
    [ErrUnknownTerm] with that byte and no term, and only the tag is read.
    The tags NEW_CACHE 'N' and CACHED_ATOM 'C', which the tag table of the
    package names, are among them. *)
Theorem unknown_tag_is_an_error (tag : Z) (r : Decoder.Reader) :
  (~ In tag decodedTags ->
   Decode (tag :: r) = Done (TNil, Some (ErrUnknownTerm tag), r)) /\
  Decode (ettNewCache :: r) = Done (TNil, Some (ErrUnknownTerm 78), r) /\
  Decode (ettCachedAtom :: r) = Done (TNil, Some (ErrUnknownTerm 67), r).
Proof.
  split; [| split; rewrite Decode_eq; reflexivity].
  intros H. rewrite Decode_eq. unfold Decoder.DecodeBody.
  cbn [Decoder.ruint8 Decoder.ReadByte].
  repeat match goal with
         | |- context [tag =? ?k] =>
             replace (tag =? k) with false
               by (symmetry; apply Z.eqb_neq; intros ->; apply H;
                   unfold decodedTags; simpl; tauto)
         end.
  reflexivity.
Qed.

Lemma Decode_ref (r : Decoder.Reader) :
  Decode (ettRef :: r)
  = match Decode r with
    | Done (_, Some err, r) => Done (TNil, Some err, r)
    | Done (node, None, r) =>
      match node with
      | TAtom node =>
        match Decoder.ruint32 r with
        | (_, Some err, r) => Done (TNil, Some err, r)
        | (id, None, r) =>
          match Decoder.ReadFull r [] with
          | (_, Some err, r) => Done (TNil, Some err, r)
          | (b, None, r) =>
            match nth_error b 0 with
            | Some creation =>
              Done (TRef {| Ref_Node := node; Ref_Creation := creation;
                            Ref_Id := [id] |}, None, r)
            | None => Panic
            end
          end
        end
      | _ => Panic
      end
    | Panic => Panic
    | OutOfFuel => OutOfFuel
    end.
Proof. rewrite Decode_eq. reflexivity. Qed.

(** X15.  The legacy REFERENCE tag never gives a term: whatever follows
    the tag, [Decode] either panics or returns an error and no term.  With
    a well-formed term after the tag (an atom as node and the four bytes of
    the id) it panics, because the creation byte is read into a slice of
    length zero and then indexed. *)
Theorem legacy_reference_never_decodes (r : Decoder.Reader) :
  (Decode (ettRef :: r) = Panic \/
   exists (e : error) (r' : Decoder.Reader),
     Decode (ettRef :: r) = Done (TNil, Some e, r')) /\
  (forall (node : Atom) (b3 b2 b1 b0 : Z) (rest : Decoder.Reader),
     Decode r = Done (TAtom node, None, b3 :: b2 :: b1 :: b0 :: rest) ->
     Decode (ettRef :: r) = Panic).
Proof.
  split.
  - rewrite Decode_ref.
    pose proof (Decode_ends arch Sscanf_f c r) as T.
    destruct (Decode r) as [[[node [e |]] r1] | |];
      [right; eauto | | left; reflexivity | contradiction].
    destruct node; try (left; reflexivity).
    destruct (Decoder.ruint32 r1) as [[id [e |]] r2];
      [right; eauto | left; reflexivity].
  - intros node b3 b2 b1 b0 rest H. rewrite Decode_ref, H. reflexivity.
Qed.





(** *** Structs that are no terms of their own *)

Lemma decodeEach_encodings (pairs : list (list Z * Term)) :
  Forall (fun p => readsBack (fst p) (snd p)) pairs ->
  forall rest : list Z,
    Decoder.decodeEach Decode (length pairs) (flat_map fst pairs ++ rest)
    = Done (map snd pairs, None, rest).
Proof.
  induction 1 as [| [enc t] pairs Hp _ IH]; intros rest; [reflexivity |].
  cbn [length flat_map map fst snd Decoder.decodeEach].
  rewrite <- app_assoc. cbn [fst snd] in Hp. rewrite Hp, IH. reflexivity.
Qed.

(** X18.  A [Port] and an [Export] have no case in [EncodeTerm]: they
    are written as structs, that is as the tuple of their fields, and no
    tag says what they were.  So a port with a sound node, a 32-bit id and
    a creation byte is read back by [Decode] as the 3-tuple of an atom and
    two integers, not as a port; and an export as the 3-tuple of two atoms
    and an integer. *)
Theorem port_and_export_come_back_as_tuples (w : list Z) (p : Port)
    (x : Export) :
  (validNode (Port_Node p) -> is_uint32 (Port_Id p) ->
   is_byte (Port_Creation p) ->
   exists enc : list Z,
     Encoder.EncodeTerm w (TPort p) = Done (w ++ enc, None) /\
     forall rest,
       Decode (enc ++ rest)
       = Done (TTuple [TAtom (Port_Node p); narrowest arch (Port_Id p);
                       TInt (Port_Creation p)], None, rest)) /\
  (validNode (Export_Module x) -> validNode (Export_Function x) ->
   is_byte (Export_Arity x) ->
   exists enc : list Z,
     Encoder.EncodeTerm w (TExport x) = Done (w ++ enc, None) /\
     forall rest,
       Decode (enc ++ rest)
       = Done (TTuple [TAtom (Export_Module x); TAtom (Export_Function x);
                       TInt (Export_Arity x)], None, rest)).
Proof.
  split.
  - intros (Hlen & Ht & Hf) Hid Hc.
    destruct (Decode_writeAtom arch Sscanf_f c (w ++ [ettSmallTuple; 3])
                (Port_Node p) Hlen) as (e1 & Hw1 & Hd1).
    assert (Hid64 : is_uint64 (Port_Id p))
      by (unfold is_uint32, MaxUint32, is_uint64 in *; lia).
    assert (Hc64 : is_uint64 (Port_Creation p))
      by (unfold is_byte, is_uint64 in *; lia).
    destruct (writeUint_readsBack arch Sscanf_f c
                ((w ++ [ettSmallTuple; 3]) ++ e1) (Port_Id p) Hid64)
      as (e2 & Hw2 & Hd2).
    destruct (writeUint_readsBack arch Sscanf_f c
                (((w ++ [ettSmallTuple; 3]) ++ e1) ++ e2)
                (Port_Creation p) Hc64)
      as (e3 & Hw3 & Hd3).
    rewrite narrowest_int32 in Hd3 by (unfold is_byte in Hc; lia).
    exists (ettSmallTuple :: 3 :: e1 ++ e2 ++ e3). split.
    + cbn [Encoder.EncodeTerm]. unfold Encoder.writeTupleHeader, MaxUint8.
      cbn [Z.leb Z.compare Pos.compare Pos.compare_cont Encoder.Write
           Encoder.thenEncode].
      change (byte_of 3) with 3.
      rewrite Hw1. cbn [Encoder.thenEncode]. rewrite Hw2.
      cbn [Encoder.thenEncode]. rewrite Hw3.
      do 2 f_equal. rewrite <- !app_assoc. reflexivity.
    + intros rest. cbn [app]. rewrite (Decode_smallTuple arch Sscanf_f c).
      change (Z.to_nat 3) with 3%nat.
      assert (D := decodeEach_encodings
                     [(e1, Decoder.newAtom (Port_Node p));
                      (e2, narrowest arch (Port_Id p));
                      (e3, TInt (Port_Creation p))]
                     ltac:(repeat constructor; assumption) rest).
      cbn [length flat_map map fst snd] in D.
      rewrite app_nil_r in D. repeat rewrite <- app_assoc in D.
      repeat rewrite <- app_assoc. rewrite D.
      rewrite newAtom_other by assumption. reflexivity.
  - intros (Hlen1 & Ht1 & Hf1) (Hlen2 & Ht2 & Hf2) Ha.
    destruct (Decode_writeAtom arch Sscanf_f c (w ++ [ettSmallTuple; 3])
                (Export_Module x) Hlen1) as (e1 & Hw1 & Hd1).
    destruct (Decode_writeAtom arch Sscanf_f c
                ((w ++ [ettSmallTuple; 3]) ++ e1)
                (Export_Function x) Hlen2) as (e2 & Hw2 & Hd2).
    assert (Ha64 : is_uint64 (Export_Arity x))
      by (unfold is_byte, is_uint64 in *; lia).
    destruct (writeUint_readsBack arch Sscanf_f c
                (((w ++ [ettSmallTuple; 3]) ++ e1) ++ e2)
                (Export_Arity x) Ha64)
      as (e3 & Hw3 & Hd3).
    rewrite narrowest_int32 in Hd3 by (unfold is_byte in Ha; lia).
    exists (ettSmallTuple :: 3 :: e1 ++ e2 ++ e3). split.
    + cbn [Encoder.EncodeTerm]. unfold Encoder.writeTupleHeader, MaxUint8.
      cbn [Z.leb Z.compare Pos.compare Pos.compare_cont Encoder.Write
           Encoder.thenEncode].
      change (byte_of 3) with 3.
      rewrite Hw1. cbn [Encoder.thenEncode]. rewrite Hw2.
      cbn [Encoder.thenEncode]. rewrite Hw3.
      do 2 f_equal. rewrite <- !app_assoc. reflexivity.
    + intros rest. cbn [app]. rewrite (Decode_smallTuple arch Sscanf_f c).
      change (Z.to_nat 3) with 3%nat.
      assert (D := decodeEach_encodings
                     [(e1, Decoder.newAtom (Export_Module x));
                      (e2, Decoder.newAtom (Export_Function x));
                      (e3, TInt (Export_Arity x))]
                     ltac:(repeat constructor; assumption) rest).
      cbn [length flat_map map fst snd] in D.
      rewrite app_nil_r in D. repeat rewrite <- app_assoc in D.
      repeat rewrite <- app_assoc. rewrite D.
      rewrite !newAtom_other by assumption. reflexivity.
Qed.

End Edges.

(** ** More of the typed decode bridge *)

Section TypedErrors.

Variable arch : Arch.
Variable parseBool : list Z -> bool * Z * option Typed.derror.
Variable parseInt64 : list Z -> Z * Z * option Typed.derror.
Variable parseUint64 : list Z -> Z * Z * option Typed.derror.
Variable parseFloat64 : list Z -> Z * Z * option Typed.derror.
Variable parseAtom : list Z -> list Z * Z * option Typed.derror.
Variable parseString : list Z -> list Z * Z * option Typed.derror.
Variable parseBigInt : list Z -> Z * Z * option Typed.derror.
Variable parseBinary : list Z -> list Z * Z * option Typed.derror.
Variable overflowFloat32 : Z -> bool.
Variable toFloat32 : Z -> Z.

Local Abbreviation decode :=
  (Typed.decode arch parseBool parseInt64 parseUint64 parseFloat64 parseAtom
     parseString parseBigInt parseBinary overflowFloat32 toFloat32).
Local Abbreviation Decode :=
  (Typed.Decode arch parseBool parseInt64 parseUint64 parseFloat64 parseAtom
     parseString parseBigInt parseBinary overflowFloat32 toFloat32).

Lemma decode_scalar_unchanged (b : list Z) (v v' : Typed.value)
    (size : Z) (e : Typed.derror) :
  match v with Typed.VStruct _ => False | _ => True end ->
  decode b v = Done (size, Some e, v') -> v' = v.
Proof.
  intros Hv. destruct v; try contradiction; cbn [Typed.decode];
    unfold Typed.decodePtr, Typed.decodeSlice, Typed.decodeArray;
    repeat match goal with
           | |- context [match ?x with _ => _ end] => destruct x
           end;
    intros H; try discriminate H; injection H as _ _ <-; reflexivity.
Qed.

(** X19.  A target that is not a struct is written only on success: when
    the typed [Decode] returns an error, whether of the version byte, of a
    parser, an overflow or an unsupported type, the target holds the value
    it held before. *)
Theorem typed_scalar_is_unchanged_on_error (b : list Z)
    (v v' : Typed.value) (size : Z) (e : Typed.derror) :
  match v with Typed.VStruct _ => False | _ => True end ->
  Decode b v = Done (size, Some e, v') ->
  v' = v.
Proof.
  intros Hv. unfold Typed.Decode. destruct b as [| b0 b1]; [discriminate |].
  destruct (negb (b0 =? Typed.erlFormatVersion)).
  - intros H. injection H as _ _ <-. reflexivity.
  - destruct (decode b1 v) as [[[s [e0 |]] v0] | |] eqn:E;
      intros H; try discriminate H.
    injection H as _ _ <-.
    apply (decode_scalar_unchanged b1 v v0 s e0 Hv E).
Qed.

(** X20.  A struct target against the wrong input.  An input without the
    version byte 0x83 in front gives a [VersionError] with that byte and
    the size 0.  After the version byte, a term that is no tuple gives the
    [SyntaxError] "not a tuple"; a SMALL_TUPLE whose arity is not the
    number of fields gives a [StructuralError] after the two bytes of the
    header.  In all three the struct keeps its fields.  The empty input
    makes [Decode] panic. *)
Theorem typed_struct_errors (fields : list Typed.value) (b : list Z)
    (tag arity : Z) :
  (tag <> Typed.erlFormatVersion ->
   Decode (tag :: b) (Typed.VStruct fields)
   = Done (0, Some (Typed.VersionError tag), Typed.VStruct fields)) /\
  (tag <> Typed.erlSmallTuple -> tag <> Typed.erlLargeTuple ->
   Decode (Typed.erlFormatVersion :: tag :: b) (Typed.VStruct fields)
   = Done (uint_of arch 1, Some (Typed.SyntaxError "not a tuple"),
           Typed.VStruct fields)) /\
  (int_of arch arity <> Z.of_nat (length fields) ->
   Decode (Typed.erlFormatVersion :: Typed.erlSmallTuple :: arity :: b)
     (Typed.VStruct fields)
   = Done (uint_of arch 3,
           Some (Typed.StructuralError
                   "different number of fields (%d, should be %d)"
                   [Z.of_nat (length fields); int_of arch arity]),
           Typed.VStruct fields)) /\
  Decode [] (Typed.VStruct fields) = Panic.
Proof.
  split; [| split; [| split; [| reflexivity]]].
  - intros H. unfold Typed.Decode.
    destruct (Z.eqb_spec tag Typed.erlFormatVersion); [contradiction |].
    reflexivity.
  - intros H1 H2. unfold Typed.Decode.
    change (Typed.erlFormatVersion =? Typed.erlFormatVersion) with true.
    cbn [negb Typed.decode].
    destruct (Z.eqb_spec tag Typed.erlSmallTuple); [contradiction |].
    destruct (Z.eqb_spec tag Typed.erlLargeTuple); [contradiction |].
    reflexivity.
  - intros H. unfold Typed.Decode.
    change (Typed.erlFormatVersion =? Typed.erlFormatVersion) with true.
    cbn [negb Typed.decode].
    change (Typed.erlSmallTuple =? Typed.erlSmallTuple) with true.
    cbn [length Nat.leb nth].
    destruct (Z.eqb_spec (int_of arch arity) (Z.of_nat (length fields)));
      [contradiction |].
    reflexivity.
Qed.

End TypedErrors.

(** ** The two writers *)

Lemma int_of_uint32_of (arch : Arch) (size : Z) :
  0 <= size ->
  arch = Arch64 \/ size < 2 ^ 31 ->
  (int_of arch (uint32_of size) =? size) = (size <=? MaxUint32).
Proof.
  intros H0 H. unfold int_of, uint32_of, uwrap, MaxUint32.
  pose proof (Z.mod_pos_bound size (2 ^ 32) ltac:(lia)) as M.
  destruct (Z.leb_spec size 4294967295) as [L | G].
  - rewrite Z.mod_small by (change (2 ^ 32) with 4294967296; lia).
    rewrite swrap_id; [apply Z.eqb_refl | destruct arch; simpl; lia |].
    destruct H as [-> | H]; [simpl; lia |].
    destruct arch; simpl; lia.
  - apply Z.eqb_neq. intros E.
    pose proof (swrap_range (intSize arch) (size mod 2 ^ 32)
                  ltac:(destruct arch; simpl; lia)) as R.
    rewrite E in R.
    destruct H as [-> | H]; [| lia].
    cbn [intSize] in E. change (64 - 1) with 63 in *.
    assert (B : - 2 ^ 63 <= size mod 2 ^ 32 < 2 ^ 63) by lia.
    rewrite (swrap_id 64 (size mod 2 ^ 32)) in E
      by (try (change (64 - 1) with 63; exact B); lia).
    lia.
Qed.

(** X21.  The stand-alone writers of package [write] write what the
    methods of [Encoder] write, byte for byte and error for error: for
    every boolean, float and string; and for every binary and big integer
    where [int] has 64 bits, or for sizes below [2 ^ 31] where it has 32. *)
Theorem write_package_agrees (arch : Arch) (w : list Z) :
  (forall b : bool, write.Bool w b = Encoder.writeBool w b) /\
  (forall fb : Z, write.Float64 w fb = Encoder.writeFloat w fb) /\
  (forall s : list Z, write.String w s = Encoder.writeString w s) /\
  (forall bytes : list Z,
     arch = Arch64 \/ Z.of_nat (length bytes) < 2 ^ 31 ->
     write.Binary arch w bytes = Encoder.writeBinary w bytes) /\
  (forall x : Z,
     arch = Arch64 \/ Z.of_nat (big.size x) < 2 ^ 31 ->
     write.BigInt arch w x = Encoder.writeBigInt w x).
Proof.
  repeat split.
  - intros [|]; cbv - [app]; rewrite <- app_assoc; reflexivity.
  - intros bytes H. unfold write.Binary, Encoder.writeBinary.
    rewrite int_of_uint32_of by (try assumption; lia). reflexivity.
  - intros x H. unfold write.BigInt, Encoder.writeBigInt.
    rewrite write_reverse_rev. unfold reverse.
    rewrite Bytes_abs, length_rev, Bytes_length.
    rewrite int_of_uint32_of by (try assumption; lia).
    unfold MaxUint8.
    destruct (Z.of_nat (big.size x) <=? 255); [reflexivity |].
    destruct (Z.of_nat (big.size x) <=? MaxUint32); reflexivity.
Qed.

(** ** What [Decode] returns *)

Section Returned.

Variable arch : Arch.
Variable Sscanf_f : list Z -> Z * Z * option error.
Variable c : Context.

Local Abbreviation DecodeBody := (Decoder.DecodeBody arch Sscanf_f c).
Local Abbreviation Decode := (Decoder.Decode arch Sscanf_f c).

Lemma decodeEach_length (rec : Decoder.Reader -> Decoder.result) (n : nat) :
  forall (r r' : Decoder.Reader) (ts : list Term) (e : option error),
    Decoder.decodeEach rec n r = Done (ts, e, r') ->
    (length ts <= n)%nat /\ (e = None -> length ts = n).
Proof.
  induction n as [| n IH]; intros r r' ts e H; cbn [Decoder.decodeEach] in H.
  - injection H as <- <- _. split; [simpl; lia | reflexivity].
  - destruct (rec r) as [[[t [e0 |]] r0] | |]; try discriminate H.
    + injection H as <- <- _. split; [simpl; lia | discriminate].
    + destruct (Decoder.decodeEach rec n r0) as [[[ts0 e1] r1] | |] eqn:E;
        try discriminate H.
      injection H as <- <- _. destruct (IH _ _ _ _ E) as [L Eq].
      split; [simpl; lia |]. intros ->. simpl. rewrite Eq; reflexivity.
Qed.

Lemma filled_length (n : nat) (ts : list Term) :
  (length ts <= n)%nat -> length (Decoder.filled n ts) = n.
Proof.
  intros H. unfold Decoder.filled. rewrite length_app, repeat_length. lia.
Qed.

(** X22.  A tuple that [Decode] returns, with or without an error, has
    the arity that the header announced: the elements that were not
    decoded, because one before them failed, are nil.  This holds for
    SMALL_TUPLE and for LARGE_TUPLE. *)
Theorem decoded_tuple_has_the_announced_arity (r : Decoder.Reader) :
  (forall (arity : Z) (t : Term) (e : option error) (r' : Decoder.Reader),
     Decode (ettSmallTuple :: arity :: r) = Done (t, e, r') ->
     exists ts : list Term,
       t = TTuple ts /\ length ts = Z.to_nat arity) /\
  (forall (b3 b2 b1 b0 : Z) (t : Term) (e : option error)
          (r' : Decoder.Reader),
     Decode (ettLargeTuple :: b3 :: b2 :: b1 :: b0 :: r) = Done (t, e, r') ->
     exists ts : list Term,
       t = TTuple ts /\
       length ts = Z.to_nat (be_Uint32 [b3; b2; b1; b0])).
Proof.
  split.
  - intros arity t e r' H.
    rewrite (Decode_smallTuple arch Sscanf_f c) in H.
    destruct (Decoder.decodeEach Decode (Z.to_nat arity) r)
      as [[[ts e0] r0] | |] eqn:E; try discriminate H.
    injection H as <- _ _. eexists. split; [reflexivity |].
    apply filled_length. eapply decodeEach_length. exact E.
  - intros b3 b2 b1 b0 t e r' H.
    rewrite (Decode_largeTuple arch Sscanf_f c) in H.
    destruct (Decoder.decodeEach Decode
                (Z.to_nat (be_Uint32 [b3; b2; b1; b0])) r)
      as [[[ts e0] r0] | |] eqn:E; try discriminate H.
    injection H as <- _ _. eexists. split; [reflexivity |].
    apply filled_length. eapply decodeEach_length. exact E.
Qed.

Lemma wellKinded_narrowest (v : Z) : wellKinded arch (narrowest arch v).
Proof.
  unfold narrowest, wellKinded, is_int, is_int64.
  assert (M : 2 ^ (intSize arch - 1) <= 2 ^ 63)
    by (destruct arch; simpl; lia).
  destruct (Z.leb_spec (- 2 ^ (intSize arch - 1)) v);
    destruct (Z.ltb_spec v (2 ^ (intSize arch - 1)));
    cbn [andb]; try lia;
    destruct (Z.leb_spec (- 2 ^ 63) v);
    destruct (Z.ltb_spec v (2 ^ 63)); cbn [andb]; lia.
Qed.

Lemma readBigInt_wellKinded (r r' b : list Z) (sign : Z) (t : Term) :
  Decoder.readBigInt arch r b sign = (t, None, r') -> wellKinded arch t.
Proof.
  unfold Decoder.readBigInt.
  destruct (Decoder.ReadFull r b) as [[b0 [e0 |]] r0]; [discriminate |].
  cbv zeta.
  set (v := if negb (sign =? 0) then _ else _).
  pose proof (narrowing_exact arch v) as N. cbv zeta in N.
  pose proof (wellKinded_narrowest v) as W. rewrite <- N in W.
  destruct (v =? int64_of (int_of arch (big.Int64 v)));
    [intros H; injection H as <- _; exact W |].
  destruct (v =? big.Int64 v);
    intros H; injection H as <- _; exact W.
Qed.

Lemma is_int_byte (x : Z) : is_byte x -> is_int arch x.
Proof.
  unfold is_byte, is_int.
  assert (M : 2 ^ 31 <= 2 ^ (intSize arch - 1))
    by (destruct arch; simpl; lia).
  lia.
Qed.

Lemma is_int_int32 (x : Z) : is_int arch (int32_of x).
Proof.
  unfold is_int, int32_of.
  pose proof (swrap_range 32 x ltac:(lia)) as R. change (32 - 1) with 31 in R.
  assert (M : 2 ^ 31 <= 2 ^ (intSize arch - 1))
    by (destruct arch; simpl; lia).
  lia.
Qed.

(** Past the tag, the body hands on the result of the recursive call (for
    the version byte) or returns a term of its own making. *)
Lemma DecodeBody_wellKinded (rec : Decoder.Reader -> Decoder.result)
    (etype : Z) (r1 r' : Decoder.Reader) (t : Term) :
  Forall is_byte r1 ->
  DecodeBody rec (etype :: r1) = Done (t, None, r') ->
  rec r1 = Done (t, None, r') \/ wellKinded arch t.
Proof.
  intros Hb. unfold Decoder.DecodeBody.
  cbn [Decoder.ruint8 Decoder.ReadByte].
  destruct (etype =? EtVersion); [intros H; left; exact H |].
  destruct ((etype =? ettAtom) || (etype =? ettAtomUTF8)).
  { destruct (Decoder.buint16 r1) as [[b [e |]] r2]; [discriminate |].
    destruct (Decoder.ReadFull r2 b) as [[b' e] r3].
    intros H. injection H as <- _ _. right.
    unfold Decoder.newAtom.
    destruct (Decoder.bytes_eqb b' Decoder.bTrue); [exact I |].
    destruct (Decoder.bytes_eqb b' Decoder.bFalse); exact I. }
  destruct ((etype =? ettSmallAtom) || (etype =? ettSmallAtomUTF8)).
  { destruct (Decoder.buint8 r1) as [[b [e |]] r2]; [discriminate |].
    destruct (Decoder.ReadFull r2 b) as [[b' e] r3].
    intros H. injection H as <- _ _. right.
    unfold Decoder.newAtom.
    destruct (Decoder.bytes_eqb b' Decoder.bTrue); [exact I |].
    destruct (Decoder.bytes_eqb b' Decoder.bFalse); exact I. }
  destruct (etype =? ettBinary).
  { destruct (Decoder.buint32 r1) as [[b [e |]] r2]; [discriminate |].
    destruct (Decoder.ReadFull r2 b) as [[b' e] r3].
    intros H. injection H as <- _ _. right. exact I. }
  destruct (etype =? ettString).
  { destruct (Decoder.buint16 r1) as [[b [e |]] r2]; [discriminate |].
    destruct (Decoder.ReadFull r2 b) as [[b' e] r3].
    intros H. injection H as <- _ _. right. exact I. }
  destruct (etype =? ettFloat).
  { destruct (Decoder.ReadFull r1 (Decoder.make 31)) as [[b [e |]] r2];
      [discriminate |].
    destruct (Sscanf_f b) as [[n f] e].
    intros H. injection H as <- _ _. right. exact I. }
  destruct (etype =? ettNewFloat).
  { destruct (Decoder.ReadFull r1 (Decoder.make 8)) as [[b [e |]] r2];
      [discriminate |].
    intros H. injection H as <- _. right. exact I. }
  destruct (etype =? ettSmallInteger).
  { destruct r1 as [| x r2]; cbn [Decoder.ruint8 Decoder.ReadByte];
      [discriminate |].
    intros H. injection H as <- _. right. cbn [wellKinded].
    apply is_int_byte. inversion Hb; assumption. }
  destruct (etype =? ettInteger).
  { destruct (Decoder.ReadFull r1 (Decoder.make 4)) as [[b [e |]] r2];
      [discriminate |].
    intros H. injection H as <- _. right. apply is_int_int32. }
  destruct (etype =? ettSmallBig).
  { destruct (Decoder.ReadFull r1 (Decoder.make 2)) as [[b [e |]] r2];
      [discriminate |].
    destruct (Decoder.readBigInt arch r2 (Decoder.make (nth 0 b 0))
                (nth 1 b 0)) as [[t0 e0] r3] eqn:E.
    intros H. injection H as <- -> <-. right.
    eapply readBigInt_wellKinded. exact E. }
  destruct (etype =? ettLargeBig).
  { destruct (Decoder.ReadFull r1 (Decoder.make 5)) as [[b [e |]] r2];
      [discriminate |].
    destruct (Decoder.readBigInt arch r2
                (Decoder.make (be_Uint32 (firstn 4 b))) (nth 4 b 0))
      as [[t0 e0] r3] eqn:E.
    intros H. injection H as <- -> <-. right.
    eapply readBigInt_wellKinded. exact E. }
  intros H. right. revert H.
  unfold Decoder.finishFun.
  repeat match goal with
         | |- context [match ?x with _ => _ end] => destruct x
         end;
    intros H; try discriminate H; injection H as <- _; exact I.
Qed.

Lemma Decode_wellKinded_bounded (n : nat) :
  forall (r r' : Decoder.Reader) (t : Term),
    (length r <= n)%nat -> Forall is_byte r ->
    Decode r = Done (t, None, r') -> wellKinded arch t.
Proof.
  induction n as [| n IH]; intros [| x r1] r' t Hn Hb H;
    try discriminate H; [simpl in Hn; lia |].
  rewrite Decode_eq in H.
  apply DecodeBody_wellKinded in H; [| inversion Hb; assumption].
  destruct H as [H | H]; [| exact H].
  apply (IH r1 r' t); [simpl in Hn; lia | inversion Hb; assumption | exact H].
Qed.

(** X23.  On a stream of bytes, a term that [Decode] returns without an
    error is never the nil interface, and when it is an integer it is of
    the narrowest kind: an [int] holds a value of the native [int], an
    [int64] a value that does not fit the native [int] (so none is returned
    where [int] has 64 bits), and a big integer a value that does not fit
    64 bits. *)
Theorem decoded_term_is_well_kinded (r r' : Decoder.Reader) (t : Term) :
  Forall is_byte r ->
  Decode r = Done (t, None, r') ->
  t <> TNil /\
  (forall x : Z, t = TInt x -> is_int arch x) /\
  (forall x : Z, t = TInt64 x ->
     is_int64 x /\ ~ is_int arch x /\ arch = Arch32) /\
  (forall v : Z, t = TBigInt v -> ~ is_int64 v).
Proof.
  intros Hb H.
  pose proof (Decode_wellKinded_bounded (length r) r r' t
                (Nat.le_refl _) Hb H) as W.
  split; [intros E; rewrite E in W; exact W |].
  split; [intros x E; rewrite E in W; exact W |].
  split; [| intros v E; rewrite E in W; exact W].
  intros x E. rewrite E in W. destruct W as [W64 Wn].
  split; [exact W64 |]. split; [exact Wn |].
  destruct arch; [reflexivity |].
  exfalso. apply Wn. unfold is_int, is_int64 in *. simpl. exact W64.
Qed.

End Returned.

(** ** The further properties at concrete inputs *)

Lemma int_round_trip_witness :
  is_int64 4294967296 /\
  exists enc : list Z,
    Encoder.writeInt [131] 4294967296 = ([131] ++ enc, None) /\
    Decoder.Decode Arch32 scanNothing newContext (enc ++ [106])
    = Done (TInt64 4294967296, None, [106]) /\
    Decoder.Decode Arch64 scanNothing newContext (enc ++ [106])
    = Done (TInt 4294967296, None, [106]).
Proof.
  assert (H : is_int64 4294967296) by (unfold is_int64; lia).
  split; [exact H |].
  destruct (int_round_trip Arch32 scanNothing newContext [131] 4294967296 H)
    as (enc & Hw & Hd & _).
  destruct (int_round_trip Arch64 scanNothing newContext [131] 4294967296 H)
    as (enc' & Hw' & Hd' & _).
  assert (E : enc' = enc).
  { rewrite Hw in Hw'. injection Hw' as Hw'. symmetry. exact Hw'. }
  exists enc. split; [exact Hw |].
  split; [exact (Hd [106]) | rewrite <- E; exact (Hd' [106])].
Defined.

Lemma uint_round_trip_witness :
  is_uint64 18446744073709551615 /\
  exists enc : list Z,
    Encoder.writeUint [] 18446744073709551615 = ([] ++ enc, None) /\
    Decoder.Decode Arch64 scanNothing newContext (enc ++ [])
    = Done (TBigInt 18446744073709551615, None, []).
Proof.
  assert (H : is_uint64 18446744073709551615) by (unfold is_uint64; lia).
  split; [exact H |].
  destruct (uint_round_trip Arch64 scanNothing newContext []
              18446744073709551615 H) as (enc & Hw & Hd & _).
  exists enc. split; [exact Hw | exact (Hd [])].
Defined.

Lemma atom_round_trip_witness :
  Z.of_nat (length [111; 107]) <= 65535 /\
  exists enc : list Z,
    Encoder.writeAtom [] [111; 107] = ([] ++ enc, None) /\
    Decoder.Decode Arch64 scanNothing newContext (enc ++ [106])
    = Done (TAtom [111; 107], None, [106]).
Proof.
  assert (H : Z.of_nat (length [111; 107]) <= 65535) by (simpl; lia).
  split; [exact H |].
  destruct (atom_round_trip Arch64 scanNothing newContext [] [111; 107] H)
    as (enc & Hw & Hd & _).
  exists enc. split; [exact Hw | exact (Hd [106])].
Defined.

Lemma ref_round_trip_witness :
  exists enc : list Z,
    Encoder.writeRef []
      {| Ref_Node := [111; 107]; Ref_Creation := 2;
         Ref_Id := [7; 4294967295; 0] |}
    = ([] ++ ettNewRef :: enc, None) /\
    Decoder.Decode Arch64 scanNothing newContext
      (ettNewRef :: enc ++ [106])
    = Done (TRef {| Ref_Node := [111; 107]; Ref_Creation := 2;
                    Ref_Id := [7; 4294967295; 0] |}, None, [106]).
Proof.
  destruct (ref_round_trip Arch64 scanNothing newContext []
              {| Ref_Node := [111; 107]; Ref_Creation := 2;
                 Ref_Id := [7; 4294967295; 0] |})
    as (enc & Hw & Hd).
  - unfold validNode. simpl. repeat split; [lia | discriminate | discriminate].
  - simpl. lia.
  - repeat constructor; unfold MaxUint32; lia.
  - exists enc. split; [exact Hw | exact (Hd [106])].
Defined.

Lemma okAndOne_canonical :
  Forall (canonical Arch64) [TAtom [111; 107]; TInt 1].
Proof.
  repeat constructor; try discriminate; unfold is_int; simpl; lia.
Qed.

Lemma tuple_round_trip_witness :
  exists enc : list Z,
    Encoder.EncodeTerm [] (TTuple [TAtom [111; 107]; TInt 1])
    = Done ([] ++ ettSmallTuple :: enc, None) /\
    Decoder.Decode Arch64 scanNothing newContext
      (ettSmallTuple :: enc ++ [106])
    = Done (TTuple [TAtom [111; 107]; TInt 1], None, [106]).
Proof.
  destruct (tuple_round_trip Arch64 scanNothing newContext
              [TAtom [111; 107]; TInt 1] [])
    as (tag & enc & Hw & Hs & _ & Hd).
  - unfold MaxUint32. simpl. lia.
  - apply (Forall_impl _
             (canonical_comesBack Arch64 scanNothing newContext)).
    exact okAndOne_canonical.
  - assert (T : tag = ettSmallTuple) by (apply Hs; simpl; lia).
    rewrite T in Hw, Hd.
    exists enc. split; [exact Hw | exact (Hd [106])].
Defined.

Lemma list_round_trip_witness :
  exists enc : list Z,
    Encoder.EncodeTerm [] (TList [TAtom [111; 107]; TInt 1])
    = Done ([] ++ enc, None) /\
    last enc 0 = ettNil /\
    Decoder.Decode Arch64 scanNothing newContext (enc ++ [97; 5])
    = Done (TList [TAtom [111; 107]; TInt 1], None, [97; 5]).
Proof.
  destruct (list_round_trip Arch64 scanNothing newContext
              [TAtom [111; 107]; TInt 1] [])
    as (enc & Hw & Hl & Hd).
  - unfold MaxUint32. simpl. lia.
  - apply (Forall_impl _
             (canonical_comesBack Arch64 scanNothing newContext)).
    exact okAndOne_canonical.
  - exists enc. split; [exact Hw | split; [exact Hl | exact (Hd [97; 5])]].
Defined.

Lemma canonical_term_round_trip_witness :
  exists enc : list Z,
    Encoder.Encode []
      (TTuple [TAtom [111; 107]; TInt (-1); TList [TInt 1; TBigInt (2 ^ 70)];
               TString [104; 105]; TBool true; TFloat64 0])
    = Done (EtVersion :: enc, None) /\
    Decoder.Decode Arch64 scanNothing newContext (EtVersion :: enc ++ [])
    = Done (TTuple [TAtom [111; 107]; TInt (-1);
                    TList [TInt 1; TBigInt (2 ^ 70)];
                    TString [104; 105]; TBool true; TFloat64 0], None, []).
Proof.
  destruct (canonical_term_round_trip Arch64 scanNothing newContext
              (TTuple [TAtom [111; 107]; TInt (-1);
                       TList [TInt 1; TBigInt (2 ^ 70)];
                       TString [104; 105]; TBool true; TFloat64 0]))
    as (enc & Hw & Hd).
  - cbn [canonical length]. unfold validNode, is_int, is_int64, is_uint64,
      MaxUint32.
    repeat split; try discriminate; simpl; lia.
  - exists enc. split; [exact Hw | exact (Hd [])].
Defined.


Lemma typed_scalar_is_unchanged_on_error_witness :
  Typed.Decode Arch64 (parseNothing false) specParseInt64 specParseInt64
    (parseNothing 0) (parseNothing []) (parseNothing []) (parseNothing 0)
    (parseNothing []) (fun _ => false) (fun bits => bits)
    [131; 98; 128; 0; 0; 0] (Typed.VInt Typed.Int8 5)
  = Done (6,
          Some (Typed.OverflowError (Typed.OfInt64 (-2147483648))
                                    (Typed.TyInt Typed.Int8)),
          Typed.VInt Typed.Int8 5) /\
  Typed.VInt Typed.Int8 5 = Typed.VInt Typed.Int8 5.
Proof.
  assert (H : Typed.Decode Arch64 (parseNothing false) specParseInt64
                specParseInt64 (parseNothing 0) (parseNothing [])
                (parseNothing []) (parseNothing 0) (parseNothing [])
                (fun _ => false) (fun bits => bits)
                [131; 98; 128; 0; 0; 0] (Typed.VInt Typed.Int8 5)
              = Done (6,
                      Some (Typed.OverflowError
                              (Typed.OfInt64 (-2147483648))
                              (Typed.TyInt Typed.Int8)),
                      Typed.VInt Typed.Int8 5))
    by reflexivity.
  split; [exact H |].
  exact (typed_scalar_is_unchanged_on_error Arch64 (parseNothing false)
           specParseInt64 specParseInt64 (parseNothing 0) (parseNothing [])
           (parseNothing []) (parseNothing 0) (parseNothing [])
           (fun _ => false) (fun bits => bits)
           [131; 98; 128; 0; 0; 0] (Typed.VInt Typed.Int8 5)
           (Typed.VInt Typed.Int8 5) 6 _ I H).
Defined.

Lemma decoded_term_is_well_kinded_witness :
  Forall is_byte [110; 5; 0; 0; 0; 0; 0; 1; 106] /\
  Decoder.Decode Arch32 scanNothing newContext
    [110; 5; 0; 0; 0; 0; 0; 1; 106]
  = Done (TInt64 4294967296, None, [106]) /\
  is_int64 4294967296 /\ ~ is_int Arch32 4294967296.
Proof.
  assert (Hb : Forall is_byte [110; 5; 0; 0; 0; 0; 0; 1; 106])
    by (repeat constructor; unfold is_byte; lia).
  assert (H : Decoder.Decode Arch32 scanNothing newContext
                [110; 5; 0; 0; 0; 0; 0; 1; 106]
              = Done (TInt64 4294967296, None, [106])) by reflexivity.
  split; [exact Hb |]. split; [exact H |].
  destruct (decoded_term_is_well_kinded Arch32 scanNothing newContext
              [110; 5; 0; 0; 0; 0; 0; 1; 106] [106] (TInt64 4294967296)
              Hb H) as (_ & _ & W & _).
  destruct (W 4294967296 eq_refl) as (W1 & W2 & _).
  split; [exact W1 | exact W2].
Defined.

Lemma string_round_trip_witness :
  Z.of_nat (length [104; 105]) <= 65535 /\
  exists enc : list Z,
    Encoder.writeString [131] [104; 105] = ([131] ++ enc, None) /\
    Decoder.Decode Arch64 scanNothing newContext (enc ++ [106])
    = Done (TString [104; 105], None, [106]).
Proof.
  assert (H : Z.of_nat (length [104; 105]) <= 65535) by (simpl; lia).
  split; [exact H |].
  destruct (proj1 (string_round_trip Arch64 scanNothing newContext
                     [131] [104; 105]) H) as (enc & Hw & Hd).
  exists enc. split; [exact Hw | exact (Hd [106])].
Defined.

Lemma binary_round_trip_witness :
  Z.of_nat (length [0; 255; 7]) <= MaxUint32 /\
  exists enc : list Z,
    Encoder.writeBinary [131] [0; 255; 7] = ([131] ++ enc, None) /\
    Decoder.Decode Arch32 scanNothing newContext (enc ++ [106])
    = Done (TBytes [0; 255; 7], None, [106]).
Proof.
  assert (H : Z.of_nat (length [0; 255; 7]) <= MaxUint32)
    by (unfold MaxUint32; simpl; lia).
  split; [exact H |].
  destruct (proj1 (binary_round_trip Arch32 scanNothing newContext
                     [131] [0; 255; 7]) H) as (enc & Hw & Hd).
  exists enc. split; [exact Hw | exact (Hd [106])].
Defined.

Lemma unknown_tag_is_an_error_witness :
  ~ In 200 decodedTags /\
  Decoder.Decode Arch64 scanNothing newContext [200; 1; 2]
  = Done (TNil, Some (ErrUnknownTerm 200), [1; 2]).
Proof.
  assert (H : ~ In 200 decodedTags).
  { intros H. simpl in H.
    repeat (destruct H as [H | H]; [discriminate H |]). exact H. }
  split; [exact H |].
  exact (proj1 (unknown_tag_is_an_error Arch64 scanNothing newContext
                  200 [1; 2]) H).
Defined.


Lemma port_and_export_come_back_as_tuples_witness :
  validNode [110] /\ is_uint32 7 /\ is_byte 1 /\
  exists enc : list Z,
    Encoder.EncodeTerm [] (TPort (mkPort [110] 7 1))
    = Done ([] ++ enc, None) /\
    Decoder.Decode Arch64 scanNothing newContext (enc ++ [106])
    = Done (TTuple [TAtom [110]; narrowest Arch64 7; TInt 1], None, [106]).
Proof.
  assert (Hn : validNode [110])
    by (unfold validNode; repeat split; [simpl; lia | discriminate ..]).
  assert (Hi : is_uint32 7) by (unfold is_uint32, MaxUint32; lia).
  assert (Hc : is_byte 1) by (unfold is_byte; lia).
  split; [exact Hn |]. split; [exact Hi |]. split; [exact Hc |].
  destruct (proj1 (port_and_export_come_back_as_tuples Arch64 scanNothing
                     newContext [] (mkPort [110] 7 1)
                     (mkExport [109] [102] 2)) Hn Hi Hc)
    as (enc & Hw & Hd).
  exists enc. split; [exact Hw | exact (Hd [106])].
Defined.

Lemma typed_struct_errors_witness :
  int_of Arch64 3 <> Z.of_nat (length [Typed.VInt Typed.Int8 5]) /\
  Typed.Decode Arch64 (parseNothing false) specParseInt64 specParseInt64
    (parseNothing 0) (parseNothing []) (parseNothing []) (parseNothing 0)
    (parseNothing []) (fun _ => false) (fun bits => bits)
    [131; 104; 3; 97; 1; 97; 2; 97; 3]
    (Typed.VStruct [Typed.VInt Typed.Int8 5])
  = Done (uint_of Arch64 3,
          Some (Typed.StructuralError
                  "different number of fields (%d, should be %d)"
                  [Z.of_nat (length [Typed.VInt Typed.Int8 5]);
                   int_of Arch64 3]),
          Typed.VStruct [Typed.VInt Typed.Int8 5]).
Proof.
  assert (H : int_of Arch64 3
              <> Z.of_nat (length [Typed.VInt Typed.Int8 5]))
    by discriminate.
  split; [exact H |].
  destruct (typed_struct_errors Arch64 (parseNothing false) specParseInt64
              specParseInt64 (parseNothing 0) (parseNothing [])
              (parseNothing []) (parseNothing 0) (parseNothing [])
              (fun _ => false) (fun bits => bits)
              [Typed.VInt Typed.Int8 5] [97; 1; 97; 2; 97; 3] 104 3)
    as (_ & _ & Hs & _).
  exact (Hs H).
Defined.

Lemma write_package_agrees_witness :
  Z.of_nat (length [1; 2; 3]) < 2 ^ 31 /\
  write.Binary Arch32 [131] [1; 2; 3] = Encoder.writeBinary [131] [1; 2; 3] /\
  Z.of_nat (big.size (2 ^ 70)) < 2 ^ 31 /\
  write.BigInt Arch32 [131] (2 ^ 70) = Encoder.writeBigInt [131] (2 ^ 70).
Proof.
  assert (H1 : Z.of_nat (length [1; 2; 3]) < 2 ^ 31) by (simpl; lia).
  assert (H2 : Z.of_nat (big.size (2 ^ 70)) < 2 ^ 31)
    by (vm_compute; reflexivity).
  destruct (write_package_agrees Arch32 [131]) as (_ & _ & _ & Hb & Hg).
  split; [exact H1 |]. split; [exact (Hb [1; 2; 3] (or_intror H1)) |].
  split; [exact H2 | exact (Hg (2 ^ 70) (or_intror H2))].
Defined.

Lemma decoded_tuple_has_the_announced_arity_witness :
  Decoder.Decode Arch64 scanNothing newContext [104; 3; 97; 1; 97]
  = Done (TTuple [TInt 1; TInt 0; TNil], Some EOF, []) /\
  exists ts : list Term,
    TTuple [TInt 1; TInt 0; TNil] = TTuple ts /\ length ts = Z.to_nat 3.
Proof.
  assert (H : Decoder.Decode Arch64 scanNothing newContext
                [104; 3; 97; 1; 97]
              = Done (TTuple [TInt 1; TInt 0; TNil], Some EOF, []))
    by reflexivity.
  split; [exact H |].
  exact (proj1 (decoded_tuple_has_the_announced_arity Arch64 scanNothing
                  newContext [97; 1; 97])
           3 (TTuple [TInt 1; TInt 0; TNil]) (Some EOF) [] H).
Defined.
